(** * pyiron.atomistics.master.elastic: elastic tensor fitting

    A shallow embedding of [pyiron/atomistics/master/elastic.py] and the
    properties of its tensor algebra, rotation reduction and fit engine.

    Numbers.  The program computes with IEEE doubles.  The fit engine and
    the rotation reduction are embedded over the rationals [Q]
    (executable, exact), the orientation transform over the reals [R]
    (it needs a square root).  Rounding error is not modelled, except
    for the quotient of two integers in [_number_of_measurements],
    which is rounded to binary64.

    Arrays.  A numpy array of rank n is a list nested n times; indices are
    Python integers ([Z]).  The arrays are taken to have the shapes the
    docstrings give (n x 3 x 3 strains, 6 x 6 tensors, ...); reading outside
    an array, where numpy raises IndexError, yields the default element.

    Libraries.  The regression of scikit-learn and the table of constants
    of scipy are parameters of the fit engine (class [External]); the
    general theorems hold for every instance.  The instance
    [sklearn_scipy], an exact model of the least-squares regression,
    serves to evaluate the functions on concrete inputs; it is proved
    to solve the least-squares problem with intercept. *)

From Stdlib Require Import String.
From Stdlib Require Import List ZArith QArith Qround Qabs Reals Lqa Lra Lia Bool.
From Stdlib Require Import Permutation Sorted Field.
From Stdlib Require DecimalString DecimalNat Finite.
Import Datatypes ListNotations.

Close Scope R_scope.
Close Scope Q_scope.
Open Scope Z_scope.

(* ================================================================== *)
(** * Part I: definitions                                              *)
(* ================================================================== *)

(** ** Exceptions *)

(** Every error the module raises is a Python [ValueError]; the message
    tells them apart. *)
Inductive exception : Type :=
| ValueError (message : string).

(** The names the specification gives to the three errors. *)
Definition InvalidOrientation : exception :=
  ValueError "orientation must be an orthogonal 3x3 tensor"%string.
Definition InsufficientData : exception :=
  ValueError "Not enough points"%string.
Definition InputMismatch : exception :=
  ValueError "You have to provide either strain and stress, or strain, energy and volume of same length."%string.

(** numpy's own [ValueError] for operands whose shapes do not broadcast
    (the shapes that numpy appends to the message are left out). *)
Definition BroadcastError : exception :=
  ValueError "operands could not be broadcast together"%string.

(** ** numpy arrays as nested lists *)

Module Np.

Section Arrays.
Context {A : Type} (zero : A).

(** [a[i]] for a non-negative Python index. *)
Definition get1 (a : list A) (i : Z) : A := nth (Z.to_nat i) a zero.

(** [a[i] = v], in place. *)
Fixpoint upd (n : nat) (v : A) (a : list A) : list A :=
  match a, n with
  | [], _ => []
  | _ :: t, O => v :: t
  | h :: t, S n' => h :: upd n' v t
  end.

Definition set1 (a : list A) (i : Z) (v : A) : list A := upd (Z.to_nat i) v a.

Definition zeros1 (n : nat) : list A := repeat zero n.
End Arrays.

Definition get2 {A} (zero : A) (m : list (list A)) (i j : Z) : A :=
  get1 zero (get1 [] m i) j.

Definition set2 {A} (m : list (list A)) (i j : Z) (v : A) : list (list A) :=
  set1 m i (set1 (get1 [] m i) j v).

Definition get4 {A} (zero : A) (c : list (list (list (list A))))
           (i j k l : Z) : A :=
  get2 zero (get2 [] c i j) k l.

Definition set4 {A} (c : list (list (list (list A)))) (i j k l : Z) (v : A)
  : list (list (list (list A))) :=
  set2 c i j (set2 (get2 [] c i j) k l v).

(** [np.zeros((r, c))] *)
Definition zeros2 {A} (zero : A) (r c : nat) : list (list A) :=
  repeat (zeros1 zero c) r.

(** [np.zeros((3,3,3,3))] and the like *)
Definition zeros4 {A} (zero : A) (a b c d : nat)
  : list (list (list (list A))) :=
  repeat (repeat (zeros2 zero c d) b) a.

(** [np.zeros_like(m)] for a rank-2 array *)
Definition zeros_like {A} (zero : A) (m : list (list A)) : list (list A) :=
  map (map (fun _ => zero)) m.

(** the shape test [m.shape == (r, c)] *)
Definition has_shape2 {A} (r c : nat) (m : list (list A)) : bool :=
  (length m =? r)%nat && forallb (fun row => (length row =? c)%nat) m.

(** [range(n)] *)
Definition range (n : nat) : list Z := map Z.of_nat (seq 0 n).

(** *** Operations of the fit engine, over [Q] *)

Local Open Scope Q_scope.

(** [np.eye(3)] *)
Definition eye3 : list (list Q) := [[1; 0; 0]; [0; 1; 0]; [0; 0; 1]].

(** [np.rint]: the nearest integer, a tie going to the even one. *)
Definition rint (x : Q) : Z :=
  let f := Qfloor x in
  match Qcompare (x - inject_Z f) (1 # 2) with
  | Lt => f
  | Gt => (f + 1)%Z
  | Eq => if Z.even f then f else (f + 1)%Z
  end.

(** [np.round(x, decimals)]: [rint(x * 10**decimals) / 10**decimals]. *)
Definition round (decimals : nat) (x : Q) : Q :=
  inject_Z (rint (x * inject_Z (10 ^ Z.of_nat decimals)))
  / inject_Z (10 ^ Z.of_nat decimals).

(** [np.round(rotations, 6)] on an array of matrices *)
Definition round_all (decimals : nat) (ms : list (list (list Q)))
  : list (list (list Q)) :=
  map (map (map (round decimals))) ms.

(** Equality of two rows of numbers, entry by entry ([==] on floats). *)
Fixpoint vec_eqb (u v : list Q) : bool :=
  match u, v with
  | [], [] => true
  | x :: u', y :: v' => Qeq_bool x y && vec_eqb u' v'
  | _, _ => false
  end.

(** The lexicographic order in which [np.unique] sorts rows. *)
Fixpoint vec_leb (u v : list Q) : bool :=
  match u, v with
  | [], _ => true
  | _ :: _, [] => false
  | x :: u', y :: v' =>
      match Qcompare x y with
      | Lt => true
      | Gt => false
      | Eq => vec_leb u' v'
      end
  end.

(** With [axis=0] numpy compares the sub-arrays flattened. *)
Definition mat_eqb (a b : list (list Q)) : bool :=
  vec_eqb (concat a) (concat b).
Definition mat_leb (a b : list (list Q)) : bool :=
  vec_leb (concat a) (concat b).

Section Unique.
Context {A : Type} (eqb leb : A -> A -> bool).

(** The distinct elements, each at its first occurrence. *)
Fixpoint first_occurrences (l : list A) : list A :=
  match l with
  | [] => []
  | x :: t => x :: filter (fun y => negb (eqb x y)) (first_occurrences t)
  end.

Fixpoint insert (x : A) (l : list A) : list A :=
  match l with
  | [] => [x]
  | y :: t => if leb x y then x :: l else y :: insert x t
  end.

Definition sort (l : list A) : list A := fold_right insert [] l.

(** Position of the first element of [u] equal to [x]. *)
Fixpoint index_of (x : A) (u : list A) : nat :=
  match u with
  | [] => O
  | y :: t => if eqb x y then O else S (index_of x t)
  end.

(** [np.unique(l)]: the sorted distinct elements. *)
Definition unique (l : list A) : list A := sort (first_occurrences l).

(** [np.unique(l, return_inverse=True)]: the sorted distinct elements
    and, for every element of [l], its position among them. *)
Definition unique_inverse (l : list A) : list A * list nat :=
  let u := unique l in
  (u, map (fun x => index_of x u) l).
End Unique.

(** [a[idx]] with an integer index array. *)
Definition take {A} (default : A) (idx : list nat) (a : list A) : list A :=
  map (fun i => nth i a default) idx.

(** [sum(f(i) for i in range(3))] *)
Definition sum3 (f : Z -> Q) : Q :=
  fold_right (fun i acc => f i + acc) 0 (range 3).

(** [np.einsum('nik,mkl,njl->nmij', rotations, x, rotations).reshape(-1, 3, 3)]:
    [R x R^T] for every rotation [R] (outer index) and every sample [x]
    (inner index). *)
Definition einsum_rotate_samples (rotations x : list (list (list Q)))
  : list (list (list Q)) :=
  flat_map (fun r =>
    map (fun m =>
      map (fun i => map (fun j =>
        sum3 (fun k => sum3 (fun l =>
          get2 0 r i k * get2 0 m k l * get2 0 r j l)))
        (range 3)) (range 3))
      x)
    rotations.

(** [np.tile(a, reps)] of a rank-1 array *)
Definition tile {A} (a : list A) (reps : nat) : list A :=
  concat (repeat a reps).

(** [np.triu(m)]: the entries below the diagonal set to zero. *)
Definition triu (m : list (list Q)) : list (list Q) :=
  map (fun '(i, row) =>
         map (fun '(j, x) => if (j <? i)%nat then 0 else x)
             (combine (seq 0 (length row)) row))
      (combine (seq 0 (length m)) m).

(** [np.ones((r, c))] *)
Definition ones2 (r c : nat) : list (list Q) := repeat (repeat 1 c) r.

(** [np.sum(m, axis=0)] for an array with [c] columns *)
Definition sum_axis0 (c : nat) (m : list (list Q)) : list Q :=
  map (fun j => fold_right (fun row acc => nth j row 0 + acc) 0 m) (seq 0 c).

(** [a[mask]] with a boolean mask *)
Fixpoint select {A} (mask : list bool) (a : list A) : list A :=
  match mask, a with
  | b :: mask', x :: a' => if b then x :: select mask' a' else select mask' a'
  | _, _ => []
  end.

(** [m.T] of an array with [c] columns *)
Definition transpose (c : nat) (m : list (list Q)) : list (list Q) :=
  map (fun j => map (fun row => nth j row 0) m) (seq 0 c).

(** [a.reshape(6, 6)] of 36 numbers *)
Definition reshape_6_6 (a : list Q) : list (list Q) :=
  map (fun i => firstn 6 (skipn (6 * i) a)) (seq 0 6).

(** [a[mask] = v] for a mask and as many values as the mask selects *)
Fixpoint put {A} (mask : list bool) (v : list A) (a : list A) : list A :=
  match mask, a with
  | b :: mask', x :: a' =>
      if b then
        match v with
        | y :: v' => y :: put mask' v' a'
        | [] => x :: put mask' v a'
        end
      else x :: put mask' v a'
  | _, _ => a
  end.

(** [a[mask] *= rhs].  numpy multiplies the selected entries by [rhs]
    in place, so [rhs] must broadcast to their shape: it has as many
    entries as the mask selects, or exactly one; any other length is
    a [ValueError]. *)
Definition imul_masked (a : list Q) (mask : list bool) (rhs : list Q)
  : exception + list Q :=
  let sel := select mask a in
  if (length rhs =? length sel)%nat then
    inr (put mask (map (fun '(x, y) => x * y) (combine sel rhs)) a)
  else
    match rhs with
    | [y] => inr (put mask (map (fun x => x * y) sel) a)
    | _ => inl BroadcastError
    end.

End Np.

(** ** Tensor algebra: the Voigt index and the two copy loops of
       [get_elastic_tensor_by_orientation] *)

(** The subscript [i+(i!=j)*(6-2*i-j)] of lines 49 and 56; the Python
    boolean [i!=j] multiplies as 0 or 1. *)
Definition voigt_index (i j : Z) : Z :=
  i + Z.b2z (negb (i =? j)) * (6 - 2 * i - j).

(** The index tuples [(i,j,k,l)] in the order the four nested
    [for ... in range(3)] loops visit them. *)
Definition loop_indices : list (Z * Z * Z * Z) :=
  flat_map (fun i =>
  flat_map (fun j =>
  flat_map (fun k =>
       map (fun l => (i, j, k, l)) (Np.range 3))
    (Np.range 3)) (Np.range 3)) (Np.range 3).

Section VoigtLoops.
Context {A : Type} (zero : A).

(** Lines 44-49: [C = np.zeros((3,3,3,3))] filled from the 6x6 tensor. *)
Definition voigt_to_full (elastic_tensor : list (list A))
  : list (list (list (list A))) :=
  fold_left
    (fun C '(i, j, k, l) =>
       Np.set4 C i j k l
         (Np.get2 zero elastic_tensor (voigt_index i j) (voigt_index k l)))
    loop_indices
    (Np.zeros4 zero 3 3 3 3).

(** Lines 51-56: [np.zeros_like(elastic_tensor)] filled from the rank-4
    tensor; a later assignment to the same cell overwrites an earlier
    one. *)
Definition full_to_voigt (elastic_tensor : list (list A))
           (C : list (list (list (list A)))) : list (list A) :=
  fold_left
    (fun ret '(i, j, k, l) =>
       Np.set2 ret (voigt_index i j) (voigt_index k l)
         (Np.get4 zero C i j k l))
    loop_indices
    (Np.zeros_like zero elastic_tensor).
End VoigtLoops.

(** ** [get_elastic_tensor_by_orientation], over the reals *)

Section Orientation.
Local Open Scope R_scope.

(** [sum(f(i) for i in range(3))] *)
Definition sum3R (f : Z -> R) : R :=
  fold_right (fun i acc => f i + acc) 0 (Np.range 3).

(** [np.linalg.norm(v)] of one row: the Euclidean norm. *)
Definition linalg_norm (v : list R) : R :=
  sqrt (fold_right (fun x acc => x * x + acc) 0 v).

(** [np.einsum('ij,i->ij', orientation, 1/np.linalg.norm(orientation, axis=-1))] *)
Definition normalize_rows (orientation : list (list R)) : list (list R) :=
  map (fun row => map (fun x => x * (1 / linalg_norm row)) row) orientation.

(** [np.linalg.det] of a 3x3 array. *)
Definition linalg_det (m : list (list R)) : R :=
  let a i j := Np.get2 0 m i j in
    a 0%Z 0%Z * (a 1%Z 1%Z * a 2%Z 2%Z - a 1%Z 2%Z * a 2%Z 1%Z)
  - a 0%Z 1%Z * (a 1%Z 0%Z * a 2%Z 2%Z - a 1%Z 2%Z * a 2%Z 0%Z)
  + a 0%Z 2%Z * (a 1%Z 0%Z * a 2%Z 1%Z - a 1%Z 1%Z * a 2%Z 0%Z).

(** [np.isclose(a, b)] with numpy's defaults [rtol=1e-05], [atol=1e-08]:
    [|a - b| <= atol + rtol * |b|]. *)
Definition isclose (a b : R) : bool :=
  if Rle_dec (Rabs (a - b)) (1e-8 + 1e-5 * Rabs b) then true else false.

(** [np.einsum('Ii,Jj,ijkl,Kk,Ll->IJKL', o, o, C, o, o)] *)
Definition einsum_rotate (o : list (list R))
           (C : list (list (list (list R)))) : list (list (list (list R))) :=
  let r := Np.range 3 in
  map (fun I => map (fun J => map (fun K => map (fun L =>
    sum3R (fun i => sum3R (fun j => sum3R (fun k => sum3R (fun l =>
      Np.get2 0 o I i * Np.get2 0 o J j * Np.get4 0 C i j k l
      * Np.get2 0 o K k * Np.get2 0 o L l))))) r) r) r) r.

Definition get_elastic_tensor_by_orientation
           (orientation elastic_tensor : list (list R))
  : exception + list (list R) :=
  let orientation := normalize_rows orientation in
  if negb (isclose (linalg_det orientation) 1) then
    inl (ValueError "orientation must be an orthogonal 3x3 tensor"%string)
  else
    let C := voigt_to_full 0 elastic_tensor in
    let C := einsum_rotate orientation C in
    inr (full_to_voigt 0 elastic_tensor C).
End Orientation.

(** ** [sklearn.linear_model.LinearRegression]

    The regression object is external to the module.  Its interface is
    the record below; [Sk.LinearRegression_fit] further down is an exact
    (rational) model of what scikit-learn computes with the default
    [fit_intercept=True]. *)

Record LinearRegression : Type := {
  coef_ : list Q;
  intercept_ : Q
}.

(** What the module takes from its libraries: the regression of
    scikit-learn and one entry of the table of physical constants of
    scipy. *)
Class External : Type := {
  (** [scipy.constants.physical_constants["joule-electron volt relationship"][0]] *)
  joule_electron_volt_relationship : Q;
  (** [LinearRegression().fit(X, y)] *)
  LinearRegression_fit : list (list Q) -> list Q -> LinearRegression;
  (** [reg.score(X, y)] *)
  LinearRegression_score : LinearRegression -> list (list Q) -> list Q -> Q
}.

Module Sk.
Local Open Scope Q_scope.

Definition dot (u v : list Q) : Q :=
  fold_right (fun '(x, y) acc => Qred (x * y + acc)) 0 (combine u v).

Definition sum (v : list Q) : Q := fold_right (fun x acc => Qred (x + acc)) 0 v.

Definition mean (v : list Q) : Q := Qred (sum v / inject_Z (Z.of_nat (length v))).

Definition n_features (X : list (list Q)) : nat :=
  match X with [] => O | row :: _ => length row end.

Definition column (j : nat) (X : list (list Q)) : list Q :=
  map (fun row => nth j row 0) X.

(** [X^T X] and [X^T y] *)
Definition gram (X : list (list Q)) : list (list Q) :=
  let p := n_features X in
  map (fun j => map (fun k => dot (column j X) (column k X)) (seq 0 p)) (seq 0 p).
Definition moment (X : list (list Q)) (y : list Q) : list Q :=
  map (fun j => dot (column j X) y) (seq 0 (n_features X)).

Definition matvec (M : list (list Q)) (v : list Q) : list Q :=
  map (fun row => dot row v) M.
Definition matmul (M N : list (list Q)) : list (list Q) :=
  map (fun row => map (fun k => dot row (column k N)) (seq 0 (n_features N))) M.

(** Gauss-Jordan elimination on augmented rows: one particular solution
    of a consistent linear system, the free unknowns set to zero. *)
Definition axpy (a : Q) (u v : list Q) : list Q :=
  map (fun '(x, y) => Qred (y - a * x)) (combine u v).

Fixpoint find_pivot (j : nat) (rows : list (list Q))
  : option (list Q * list (list Q)) :=
  match rows with
  | [] => None
  | r :: rest =>
      if Qeq_bool (nth j r 0) 0 then
        match find_pivot j rest with
        | Some (p, others) => Some (p, r :: others)
        | None => None
        end
      else Some (r, rest)
  end.

Fixpoint gauss_jordan (cols : list nat) (done : list (nat * list Q))
         (todo : list (list Q)) : list (nat * list Q) :=
  match cols with
  | [] => done
  | j :: cols' =>
      match find_pivot j todo with
      | None => gauss_jordan cols' done todo
      | Some (p, rest) =>
          let p := map (fun x => Qred (x / nth j p 0)) p in
          let clear r := axpy (nth j r 0) p r in
          gauss_jordan cols'
            ((j, p) :: map (fun '(c, r) => (c, clear r)) done)
            (map clear rest)
      end
  end.

Definition solve (M : list (list Q)) (c : list Q) : list Q :=
  let p := n_features M in
  let rows := map (fun '(row, ci) => row ++ [ci]) (combine M c) in
  let pivots := gauss_jordan (seq 0 p) [] rows in
  map (fun j =>
         match find (fun '(c, _) => (c =? j)%nat) pivots with
         | Some (_, r) => nth p r 0
         | None => 0
         end) (seq 0 p).

(** [scipy.linalg.lstsq(A, b)[0]]: the least-squares solution of
    minimum norm.  It solves the normal equations [N x = A^T b],
    [N = A^T A], and lies in the row space of [A], which is the range
    of [N]: [x = N z] with [N N z = A^T b]. *)
Definition lstsq (A : list (list Q)) (b : list Q) : list Q :=
  let N := gram A in
  matvec N (solve (matmul N N) (moment A b)).

(** [LinearRegression().fit(X, y)]: centre [X] and [y], solve the
    least-squares problem, recover the intercept. *)
Definition LinearRegression_fit (X : list (list Q)) (y : list Q)
  : LinearRegression :=
  let p := n_features X in
  let X_offset := map (fun j => mean (column j X)) (seq 0 p) in
  let y_offset := mean y in
  let Xc := map (fun row => map (fun '(x, m) => Qred (x - m)) (combine row X_offset)) X in
  let yc := map (fun v => Qred (v - y_offset)) y in
  let coef := lstsq Xc yc in
  {| coef_ := coef; intercept_ := Qred (y_offset - dot X_offset coef) |}.

(** [reg.predict(X)] *)
Definition predict (reg : LinearRegression) (X : list (list Q)) : list Q :=
  map (fun row => Qred (dot row (coef_ reg) + intercept_ reg)) X.

(** [reg.score(X, y)]: the coefficient of determination
    [1 - sum((y - prediction)**2) / sum((y - mean(y))**2)];
    for a constant [y] scikit-learn returns 1 for a perfect
    prediction and 0 otherwise. *)
Definition LinearRegression_score (reg : LinearRegression)
           (X : list (list Q)) (y : list Q) : Q :=
  let res := map (fun '(v, w) => v - w) (combine y (predict reg X)) in
  let dev := map (fun v => v - mean y) y in
  let u := dot res res in
  let v := dot dev dev in
  if Qeq_bool v 0 then (if Qeq_bool u 0 then 1 else 0) else Qred (1 - u / v).
End Sk.

(** scikit-learn, and scipy with the CODATA 2018 table, in which the
    entry reads [6.241509074e18] (electron volts in one joule). *)
#[export] Instance sklearn_scipy : External := {|
  joule_electron_volt_relationship := 6.241509074e18;
  LinearRegression_fit := Sk.LinearRegression_fit;
  LinearRegression_score := Sk.LinearRegression_score
|}.

(** ** The fit engine *)

(** The regression score returned on request: six numbers from the
    stress-based fit, one from the energy-based fit. *)
Inductive fit_score : Type :=
| StressScore (score : list Q)
| EnergyScore (score : Q).

Section FitEngine.
Context `{External}.
Local Open Scope Q_scope.

(** Lines 26-28. *)
Definition eV_div_A3_to_GPa : Q :=
  1e21 / joule_electron_volt_relationship.

(** Lines 104-105 (and 215-216):
    [_, indices = np.unique(np.round(rotations, 6), axis=0, return_inverse=True)];
    [rotations = rotations[np.unique(indices)]]. *)
Definition unique_rotations (rotations : list (list (list Q)))
  : list (list (list Q)) :=
  let '(_, indices) :=
    Np.unique_inverse Np.mat_eqb Np.mat_leb (Np.round_all 6 rotations) in
  Np.take [] (Np.unique Nat.eqb Nat.leb indices) rotations.

(** Line 109: the Voigt 6-vector of a strain, shear components doubled. *)
Definition strain_to_voigt (s : list (list Q)) : list Q :=
  [Np.get2 0 s 0 0; Np.get2 0 s 1 1; Np.get2 0 s 2 2;
   2 * Np.get2 0 s 1 2; 2 * Np.get2 0 s 0 2; 2 * Np.get2 0 s 0 1].

(** Line 61: the Voigt 6-vector of a stress. *)
Definition stress_to_voigt (s : list (list Q)) : list Q :=
  [Np.get2 0 s 0 0; Np.get2 0 s 1 1; Np.get2 0 s 2 2;
   Np.get2 0 s 1 2; Np.get2 0 s 0 2; Np.get2 0 s 0 1].

(** [a[:, ii]] *)
Definition column (ii : Z) (a : list (list Q)) : list Q :=
  map (fun row => Np.get1 0 row ii) a.

(** Lines 60-61 of [_fit_coeffs_with_stress]: every stress under every
      rotation, as Voigt 6-vectors. *)
Definition augment_stress (rotations stress : list (list (list Q)))
  : list (list Q) :=
  map stress_to_voigt (Np.einsum_rotate_samples rotations stress).

Definition _fit_coeffs_with_stress (strain : list (list Q))
           (stress rotations : list (list (list Q)))
  : list (list Q) * list Q :=
  let stress := augment_stress rotations stress in
  let fits :=
    map (fun ii =>
           let reg := LinearRegression_fit strain (column ii stress) in
           (coef_ reg, LinearRegression_score reg strain (column ii stress)))
        (Np.range 6) in
  (map fst fits, map snd fits).

(** Lines 73-76 of [_fit_coeffs_with_energies]: the design matrix of the
      energy fit, and the mask of the 36 flattened columns it keeps. *)
Definition energy_design_matrix (strain : list (list Q)) (volume : list Q)
  : list bool * list (list Q) :=
  (* np.einsum('n,ni,nj->nij', 0.5*volume, strain, strain) *)
  let C := map (fun '(v, s) =>
                  map (fun si => map (fun sj => 0.5 * v * si * sj) s) s)
               (combine volume strain) in
  (* np.triu(C).reshape(-1, 36) *)
  let C := map (fun c => concat (Np.triu c)) C in
  (* C[:, np.sum(C, axis=0) != 0] *)
  let keep := map (fun s => negb (Qeq_bool s 0)) (Np.sum_axis0 36 C) in
  let C := map (Np.select keep) C in
  (* np.append(np.ones(len(C)).reshape(-1, 1), C, axis=-1) *)
  (keep, map (fun row => 1 :: row) C).

Definition _fit_coeffs_with_energies (strain : list (list Q))
           (energy volume : list Q) (rotations : list (list (list Q)))
  : exception + (list (list Q) * Q) :=
  let energy := Np.tile energy (length rotations) in
  let volume := Np.tile volume (length rotations) in
  let C := snd (energy_design_matrix strain volume) in
  let reg := LinearRegression_fit C energy in
  let score := LinearRegression_score reg C energy in
  let coeff := concat (Np.triu (Np.ones2 6 6)) in
  (* coeff[coeff!=0] *= reg.coef_[1:]*eV_div_A3_to_GPa *)
  match Np.imul_masked coeff
          (map (fun x => negb (Qeq_bool x 0)) coeff)
          (map (fun c => c * eV_div_A3_to_GPa) (tl (coef_ reg))) with
  | inl e => inl e
  | inr coeff =>
      let coeff := Np.reshape_6_6 coeff in
      (* 0.5*(coeff+coeff.T) *)
      let coeff :=
        map (fun '(r, rT) => map (fun '(x, y) => 0.5 * (x + y)) (combine r rT))
            (combine coeff (Np.transpose 6 coeff)) in
      inr (coeff, score)
  end.

(** Lines 102-107 of [calc_elastic_tensor]: the rotations under which
      the samples are replicated.  [np.append(np.eye(3), rotations)]
      flattens both arrays and [reshape(-1, 3, 3)] cuts the result into
      matrices again: the identity followed by the given rotations. *)
Definition reduce_rotations (rotations : option (list (list (list Q))))
  : list (list (list Q)) :=
  match rotations with
  | Some rotations => unique_rotations (Np.eye3 :: rotations)
  | None => [Np.eye3]
  end.

(** Lines 108-109: every strain under every rotation, as Voigt
      6-vectors; the rows of the design matrix. *)
Definition augment_strain (rotations strain : list (list (list Q)))
  : list (list Q) :=
  map strain_to_voigt (Np.einsum_rotate_samples rotations strain).

Definition calc_elastic_tensor (strain : list (list (list Q)))
           (stress : option (list (list (list Q))))
           (energy volume : option (list Q))
           (rotations : option (list (list (list Q))))
           (return_score : bool)
  : exception + (list (list Q) * option fit_score) :=
  if (length strain =? 0)%nat then
    inl (ValueError "Not enough points"%string)
  else
    let rotations := reduce_rotations rotations in
    let strain := augment_strain rotations strain in
    let mismatch : exception + (list (list Q) * option fit_score) :=
      inl (ValueError "You have to provide either strain and stress, or strain, energy and volume of same length."%string) in
    let with_energies :=
      match energy, volume with
      | Some energy, Some volume =>
          if ((length energy * length rotations =? length strain)%nat
              && (length energy =? length volume)%nat)%bool then
            match _fit_coeffs_with_energies strain energy volume rotations with
            | inl e => inl e
            | inr (coeff, score) =>
                inr (coeff, if return_score then Some (EnergyScore score) else None)
            end
          else mismatch
      | _, _ => mismatch
      end in
    match stress with
    | Some stress =>
        if (length stress * length rotations =? length strain)%nat then
          let '(coeff, score) := _fit_coeffs_with_stress strain stress rotations in
          inr (coeff, if return_score then Some (StressScore score) else None)
        else with_energies
    | None => with_energies
    end.

(** [ElasticTensor._get_rotation_matrices], lines 213-217: from the
    rotations that the symmetry analysis of the structure returns to
    the value stored in [input['rotations']]. *)
Definition _get_rotation_matrices (symmetry_rotations : list (list (list Q)))
  : list (list (list Q)) :=
  unique_rotations symmetry_rotations.
End FitEngine.

(** ** Reference definitions and test data *)

(** The index map as the specification words it:
    [m(i,j) = i if i==j else 6-2*min(i,j)-max(i,j)]. *)
Definition spec_voigt_map (i j : Z) : Z :=
  if i =? j then i else 6 - 2 * Z.min i j - Z.max i j.

(** The index map in closed form, as the subscript of the source
    computes it: [i] on the diagonal, [6 - i - j] off it. *)
Definition voigt_map (i j : Z) : Z :=
  if i =? j then i else 6 - i - j.

(** A 6x6 array whose 36 entries are all different: entry [(r, c)] is
    [6 r + c]. *)
Definition numbered_6x6 : list (list Z) :=
  map (fun r => map (fun c => 6 * r + c) (Np.range 6)) (Np.range 6).

(** [m == m.T] on a 6x6 array *)
Definition symmetric_6x6 {A} (zero : A) (m : list (list A)) : Prop :=
  forall i j, 0 <= i < 6 -> 0 <= j < 6 ->
    Np.get2 zero m i j = Np.get2 zero m j i.

(** The orientation [[1,0,0],[0,1,0],[0,0,2]] and the identity, as real
    matrices. *)
Definition stretched_z : list (list R) :=
  [[1; 0; 0]; [0; 1; 0]; [0; 0; 2]]%R.
Definition eye3R : list (list R) :=
  [[1; 0; 0]; [0; 1; 0]; [0; 0; 1]]%R.

(** [numbered_6x6] as an array of reals. *)
Definition numbered_6x6_R : list (list R) := map (map IZR) numbered_6x6.

(** The rotation reduction as the specification words it: prepend the
    identity, compare the matrices rounded to 6 decimal places, keep one
    representative of each in the order of first occurrence. *)
Definition spec_reduce_rotations (rotations : list (list (list Q)))
  : list (list (list Q)) :=
  Np.first_occurrences
    (fun a b => Np.mat_eqb (map (map (Np.round 6)) a) (map (map (Np.round 6)) b))
    (Np.eye3 :: rotations).

(** The number of matrices that remain distinct after rounding to 6
    decimal places. *)
Definition distinct_after_rounding (ms : list (list (list Q))) : nat :=
  length (Np.first_occurrences Np.mat_eqb (Np.round_all 6 ms)).

(** A rotation by 90 degrees about the z axis, and the identity with two
    entries off by 1e-8. *)
Definition rot90_z : list (list Q) :=
  [[0; -1; 0]; [1; 0; 0]; [0; 0; 1]]%Q.
Definition eye3_perturbed : list (list Q) :=
  [[1 + 1e-8; 0; 0]; [0; 1; 0]; [0; 0; 1 - 1e-8]]%Q.

(** ** Least squares, for comparison with the regression

    For a design matrix [X] (one row per sample), targets [y],
    coefficients [c] and an intercept [b]. *)

Section LeastSquares.
Local Open Scope Q_scope.

Definition qdot (u v : list Q) : Q :=
  fold_right (fun '(x, y) acc => x * y + acc) 0 (combine u v).

(** The sum of the squared residuals [y_n - (x_n . c + b)]. *)
Definition sum_squared_residuals (X : list (list Q)) (y c : list Q) (b : Q) : Q :=
  fold_right (fun '(x, yn) acc =>
                (yn - (qdot x c + b)) * (yn - (qdot x c + b)) + acc)
             0 (combine X y).

(** [c] and [b] are an ordinary least-squares solution of
    [y ~ X c + b]: no coefficients and intercept do better. *)
Definition least_squares_with_intercept
           (X : list (list Q)) (y c : list Q) (b : Q) : Prop :=
  forall c' b', length c' = length c ->
    sum_squared_residuals X y c b <= sum_squared_residuals X y c' b'.

(** [c] is an ordinary least-squares solution of [y ~ X c], without
    intercept. *)
Definition least_squares_without_intercept
           (X : list (list Q)) (y c : list Q) : Prop :=
  forall c', length c' = length c ->
    sum_squared_residuals X y c 0 <= sum_squared_residuals X y c' 0.

Definition vadd (u v : list Q) : list Q :=
  map (fun '(x, y) => x + y) (combine u v).

Definition vscale (a : Q) (u : list Q) : list Q := map (Qmult a) u.

Definition vsub (u v : list Q) : list Q :=
  map (fun '(x, y) => x - y) (combine u v).

(** The sum of the residuals, and [X^T r] for the residuals [r]. *)
Definition residual_sum (X : list (list Q)) (y c : list Q) (b : Q) : Q :=
  fold_right (fun '(x, yn) acc => (yn - (qdot x c + b)) + acc) 0 (combine X y).

Definition residual_moments (X : list (list Q)) (y c : list Q) (b : Q) : list Q :=
  fold_right (fun '(x, yn) acc => vadd (vscale (yn - (qdot x c + b)) x) acc)
             (repeat 0 (length c)) (combine X y).

(** The normal equations of the regression with intercept: the
    residuals sum to zero and are orthogonal to every column of [X]. *)
Definition normal_equations (X : list (list Q)) (y c : list Q) (b : Q) : bool :=
  forallb (fun row => (length row =? length c)%nat) X
  && Qeq_bool (residual_sum X y c b) 0
  && forallb (fun m => Qeq_bool m 0) (residual_moments X y c b).
End LeastSquares.

(** ** Inputs and reference notions of the fit engine *)

Section FitReference.
Context `{External}.
Local Open Scope Q_scope.

(** The first branch of lines 110-115 is taken: stress is given and has
    one entry per strain. *)
Definition takes_stress_path (strain : list (list (list Q)))
           (stress rotations : option (list (list (list Q)))) : bool :=
  match stress with
  | Some stress =>
      (length stress * length (reduce_rotations rotations)
       =? length (augment_strain (reduce_rotations rotations) strain))%nat
  | None => false
  end.

(** The second branch applies: energy and volume are given, with one
    entry each per strain. *)
Definition energy_data_fits (strain : list (list (list Q)))
           (energy volume : option (list Q))
           (rotations : option (list (list (list Q)))) : bool :=
  match energy, volume with
  | Some energy, Some volume =>
      (length energy * length (reduce_rotations rotations)
       =? length (augment_strain (reduce_rotations rotations) strain))%nat
      && (length energy =? length volume)%nat
  | _, _ => false
  end.
End FitReference.

(** Strains and stresses with a single non-zero diagonal entry, a
    diagonal strain, the zero matrix and the matrix of ones. *)
Definition uniaxial_x (a : Q) : list (list Q) :=
  [[a; 0; 0]; [0; 0; 0]; [0; 0; 0]]%Q.
Definition uniaxial_y (a : Q) : list (list Q) :=
  [[0; 0; 0]; [0; a; 0]; [0; 0; 0]]%Q.
Definition diagonal3 (a b c : Q) : list (list Q) :=
  [[a; 0; 0]; [0; b; 0]; [0; 0; c]]%Q.
Definition zeros3 : list (list Q) :=
  [[0; 0; 0]; [0; 0; 0]; [0; 0; 0]]%Q.
Definition all_ones3 (a : Q) : list (list Q) :=
  [[a; a; a]; [a; a; a]; [a; a; a]]%Q.

(** The elementary charge in coulombs (exact in the SI since 2019). *)
Definition elementary_charge : Q := 1.602176634e-19%Q.

(** Lines 81-82 of [_fit_coeffs_with_energies] as a function of the 36
    flattened coefficients: [coeff.reshape(6,6)], then
    [0.5*(coeff+coeff.T)]. *)
Definition symmetrize_6_6 (c : list Q) : list (list Q) :=
  map (fun '(r, rT) => map (fun '(x, y) => 0.5 * (x + y)) (combine r rT))%Q
      (combine (Np.reshape_6_6 c) (Np.transpose 6 (Np.reshape_6_6 c))).

(** The design matrices of the two stress-fit examples, written out. *)
Definition design_x_x2 : list (list Q) :=
  [[1; 0; 0; 0; 0; 0]; [2; 0; 0; 0; 0; 0]]%Q.
Definition design_x_y_0 : list (list Q) :=
  [[1; 0; 0; 0; 0; 0]; [0; 1; 0; 0; 0; 0]; [0; 0; 0; 0; 0; 0]]%Q.

(** ** Further reference notions *)

(** No two elements of the list are equal. *)
Fixpoint pairwise_distinctb {A} (eqb : A -> A -> bool) (l : list A) : bool :=
  match l with
  | [] => true
  | x :: t => forallb (fun y => negb (eqb x y)) t && pairwise_distinctb eqb t
  end.

(** No two matrices of the list are equal after rounding to 6 decimal
    places. *)
Definition distinct_rotations (ms : list (list (list Q))) : bool :=
  pairwise_distinctb Np.mat_eqb (Np.round_all 6 ms).

(** The matrix is the identity after rounding to 6 decimal places. *)
Definition rounds_to_identity (m : list (list Q)) : bool :=
  Np.mat_eqb (map (map (Np.round 6)) Np.eye3) (map (map (Np.round 6)) m).

(** A diagonal orientation, and an orientation with its rows
    multiplied by the factors [s]. *)
Definition diagonal_orientation (a b c : R) : list (list R) :=
  [[a; 0; 0]; [0; b; 0]; [0; 0; c]]%R.
Definition scale_rows (s : list R) (o : list (list R)) : list (list R) :=
  map (fun '(si, row) => map (Rmult si) row) (combine s o).

(** A quarter turn about z, the same with rows of the lengths 2, 3 and
    1, and a symmetric 6x6 tensor. *)
Definition quarter_turn_R : list (list R) :=
  [[0; -1; 0]; [1; 0; 0]; [0; 0; 1]]%R.
Definition quarter_turn_scaled_R : list (list R) :=
  [[0; -2; 0]; [3; 0; 0]; [0; 0; 1]]%R.
Definition symmetric_numbered_R : list (list R) :=
  map (map IZR)
      (map (fun r => map (fun c => r * c + r + c) (Np.range 6)) (Np.range 6)).

(** ** [calc_elastic_constants] *)

Module Constants.
Local Open Scope Q_scope.

(** [m[:3, :3]] and [m[3:, 3:]] *)
Definition upper_left (m : list (list Q)) : list (list Q) :=
  map (firstn 3) (firstn 3 m).
Definition lower_right (m : list (list Q)) : list (list Q) :=
  map (skipn 3) (skipn 3 m).

(** [m.diagonal()] *)
Definition diagonal (m : list (list Q)) : list Q :=
  map (fun '(i, row) => nth i row 0) (combine (seq 0 (length m)) m).

(** [np.sum] of a rank-1 and of a rank-2 array *)
Definition sum1 (v : list Q) : Q := fold_right Qplus 0 v.
Definition sum2 (m : list (list Q)) : Q := sum1 (concat m).

(** [np.mean] of a rank-1 and of a rank-2 array *)
Definition mean1 (v : list Q) : Q := sum1 v / inject_Z (Z.of_nat (length v)).
Definition mean2 (m : list (list Q)) : Q := mean1 (concat m).

(** [np.trace] *)
Definition trace (m : list (list Q)) : Q := sum1 (diagonal m).

(** The determinant of a 3x3 array. *)
Definition det3 (m : list (list Q)) : Q :=
  let a i j := Np.get2 0 m i j in
    a 0%Z 0%Z * (a 1%Z 1%Z * a 2%Z 2%Z - a 1%Z 2%Z * a 2%Z 1%Z)
  - a 0%Z 1%Z * (a 1%Z 0%Z * a 2%Z 2%Z - a 1%Z 2%Z * a 2%Z 0%Z)
  + a 0%Z 2%Z * (a 1%Z 0%Z * a 2%Z 1%Z - a 1%Z 1%Z * a 2%Z 0%Z).

(** [np.linalg.inv] of a 3x3 array: the adjugate over the determinant.
    For a singular matrix numpy raises [LinAlgError], a subclass of
    [ValueError], with the message "Singular matrix". *)
Definition inv3 (m : list (list Q)) : exception + list (list Q) :=
  let a i j := Np.get2 0 m i j in
  let d := det3 m in
  if Qeq_bool d 0 then inl (ValueError "Singular matrix"%string)
  else inr
    [[(a 1%Z 1%Z * a 2%Z 2%Z - a 1%Z 2%Z * a 2%Z 1%Z) / d;
      (a 0%Z 2%Z * a 2%Z 1%Z - a 0%Z 1%Z * a 2%Z 2%Z) / d;
      (a 0%Z 1%Z * a 1%Z 2%Z - a 0%Z 2%Z * a 1%Z 1%Z) / d];
     [(a 1%Z 2%Z * a 2%Z 0%Z - a 1%Z 0%Z * a 2%Z 2%Z) / d;
      (a 0%Z 0%Z * a 2%Z 2%Z - a 0%Z 2%Z * a 2%Z 0%Z) / d;
      (a 0%Z 2%Z * a 1%Z 0%Z - a 0%Z 0%Z * a 1%Z 2%Z) / d];
     [(a 1%Z 0%Z * a 2%Z 1%Z - a 1%Z 1%Z * a 2%Z 0%Z) / d;
      (a 0%Z 1%Z * a 2%Z 0%Z - a 0%Z 0%Z * a 2%Z 1%Z) / d;
      (a 0%Z 0%Z * a 1%Z 1%Z - a 0%Z 1%Z * a 1%Z 0%Z) / d]].

(** A quotient of floats: on a zero divisor numpy warns and returns
    [inf] or [nan]; [None] stands for such a value. *)
Definition divide (x y : Q) : option Q :=
  if Qeq_bool y 0 then None else Some (x / y).
End Constants.

(** The dictionary that [calc_elastic_constants] returns, one field per
    key. *)
Record elastic_constants : Type := {
  elastic_tensor : list (list Q);
  lame_coefficient : Q;
  shear_modulus : Q;
  bulk_modulus : Q;
  youngs_modulus : option Q;
  poissons_ratio : option Q;
  zener_ratio : option Q
}.

(** Lines 121-139. *)
Definition calc_elastic_constants (tensor : list (list Q))
  : exception + elastic_constants :=
  let c := Constants.upper_left tensor in
  let s := Constants.lower_right tensor in
  match Constants.inv3 c with
  | inl e => inl e
  | inr inverse =>
      let youngs :=
        Constants.divide 1 (Constants.mean1 (Constants.diagonal inverse)) in
      inr {|
        elastic_tensor := tensor;
        lame_coefficient := Constants.mean1 (Constants.diagonal c);
        shear_modulus := Constants.mean1 (Constants.diagonal s);
        bulk_modulus := Constants.mean2 c;
        youngs_modulus := youngs;
        poissons_ratio :=
          option_map (fun y => - y * Constants.sum2 inverse / 6 + 0.5)%Q youngs;
        zener_ratio :=
          Constants.divide
            (12 * Constants.mean1 (Constants.diagonal s))%Q
            (3 * Constants.trace c - Constants.sum2 c)%Q
      |}
  end.

(** The tensor of a cubic crystal with the constants [c11], [c12],
    [c44], and a tensor multiplied by a factor. *)
Definition cubic_tensor (c11 c12 c44 : Q) : list (list Q) :=
  [[c11; c12; c12; 0; 0; 0]; [c12; c11; c12; 0; 0; 0];
   [c12; c12; c11; 0; 0; 0]; [0; 0; 0; c44; 0; 0];
   [0; 0; 0; 0; c44; 0]; [0; 0; 0; 0; 0; c44]]%Q.


(** ** Python's division of integers *)

(** The binary64 number nearest to a rational, a tie going to the even
    significand: [a / b] on two Python integers is the exact quotient
    rounded so.  [2 ^ e] is the power of two at or below [|x|], [2 ^ q]
    the weight of the last of the 53 bits, not below [2 ^ -1074]
    (subnormal numbers).  [None] when the rounded number would be
    [2 ^ 1024] or more: Python raises [OverflowError]. *)
Definition binary64 (x : Q) : option Q :=
  let a := Qabs x in
  if Qeq_bool a 0 then Some 0%Q
  else
    let e0 := Z.log2 (Z.abs (Qnum x)) - Z.log2 (Z.pos (Qden x)) in
    let e := if Qle_bool (2 ^ e0) a then e0 else e0 - 1 in
    let q := Z.max (e - 52) (-1074) in
    let r := (inject_Z (Np.rint (a / 2 ^ q)) * 2 ^ q)%Q in
    if Qle_bool (2 ^ 1024) r then None
    else Some (if Qle_bool 0 x then r else (- r)%Q).

(** ** The job class [ElasticTensor]: its input and the generation of
       strains *)

Module ElasticTensor.
Local Open Scope Q_scope.

(** What the methods raise: Python's [OverflowError], and the errors
    of the module and of numpy. *)
Inductive error : Type :=
| OverflowError
| Raised (e : exception).

(** [self.input], one field per key. *)
Record input : Type := {
  min_num_measurements : Z;
  min_num_points : Z;
  max_strain : Q;
  strain_matrices : list (list (list Q));
  use_symmetry : bool;
  rotations : list (list (list Q));
  use_elements : bool
}.

(** The input that [__init__] sets up (lines 192-203). *)
Definition default_input : input := {|
  min_num_measurements := 11;
  min_num_points := 105;
  max_strain := 0.01;
  strain_matrices := [];
  use_symmetry := true;
  rotations := [];
  use_elements := true
|}.

(** Lines 206-211:
    [max(min_num_measurements, int(np.ceil(min_num_points/max(len(rotations), 1))))].
    The quotient is a float. *)
Definition _number_of_measurements (inp : input) : error + Z :=
  match binary64 (inject_Z (min_num_points inp)
                  / inject_Z (Z.max (Z.of_nat (length (rotations inp))) 1)) with
  | None => inl OverflowError
  | Some quotient =>
      inr (Z.max (min_num_measurements inp) (Qceiling quotient))
  end.

(** Entry-wise sum of two matrices. *)
Definition add_matrices (a b : list (list Q)) : list (list Q) :=
  map (fun '(r, s) => map (fun '(x, y) => x + y) (combine r s)) (combine a b).

Section Generation.
(** [structure.get_symmetry(use_elements=...)['rotations']] of the
    reference job, the array that [np.random.random((n, 3, 3))] draws,
    and [validate_ready_to_run] of the parent class, which may raise
    and may change the input: all three come from outside the
    module. *)
Variable get_symmetry_rotations : bool -> list (list (list Q)).
Variable random : nat -> list (list (list Q)).
Variable super_validate_ready_to_run : input -> error + input.

(** Lines 219-225.  numpy refuses a negative number of matrices. *)
Definition _create_strain_matrices (inp : input) : error + input :=
  let inp :=
    if (use_symmetry inp && (length (rotations inp) =? 0)%nat)%bool then
      {| min_num_measurements := min_num_measurements inp;
         min_num_points := min_num_points inp;
         max_strain := max_strain inp;
         strain_matrices := strain_matrices inp;
         use_symmetry := use_symmetry inp;
         rotations :=
           _get_rotation_matrices (get_symmetry_rotations (use_elements inp));
         use_elements := use_elements inp |}
    else inp in
  match _number_of_measurements inp with
  | inl e => inl e
  | inr n =>
  if (n <? 0)%Z then
    inl (Raised (ValueError "negative dimensions are not allowed"%string))
  else
    (* np.random.random((n, 3, 3)) - 0.5 *)
    let eps_lst := map (map (map (fun r => r - 0.5))) (random (Z.to_nat n)) in
    (* eps_lst *= max_strain *)
    let eps_lst := map (map (map (fun e => e * max_strain inp))) eps_lst in
    (* eps_lst += np.einsum('nij->nji', eps_lst); the right-hand side is
       read as it was before the update *)
    let eps_lst := map (fun e => add_matrices e (Np.transpose 3 e)) eps_lst in
    inr {| min_num_measurements := min_num_measurements inp;
           min_num_points := min_num_points inp;
           max_strain := max_strain inp;
           strain_matrices := eps_lst;
           use_symmetry := use_symmetry inp;
           rotations := rotations inp;
           use_elements := use_elements inp |}
  end.

(** Lines 227-230. *)
Definition validate_ready_to_run (inp : input) : error + input :=
  match super_validate_ready_to_run inp with
  | inl e => inl e
  | inr inp =>
      if (length (strain_matrices inp) =? 0)%nat then
        _create_strain_matrices inp
      else inr inp
  end.
End Generation.
End ElasticTensor.

(** A random array with the shape asked for and entries in [0, 1). *)
Definition random_array_ok (random : nat -> list (list (list Q))) : Prop :=
  forall n,
    length (random n) = n
    /\ Forall (fun m =>
         Np.has_shape2 3 3 m = true
         /\ Forall (Forall (fun x => 0 <= x /\ x < 1)%Q) m) (random n).

(** Two sources of "random" numbers for examples: every entry 3/4, and
    the entries 0, 1/9, ... 8/9 row by row. *)
Definition constant_random (n : nat) : list (list (list Q)) :=
  repeat (repeat (repeat (3 # 4)%Q 3) 3) n.
Definition skewed_random (n : nat) : list (list (list Q)) :=
  repeat [[0; 1 # 9; 2 # 9]; [3 # 9; 4 # 9; 5 # 9]; [6 # 9; 7 # 9; 8 # 9]]%Q n.

(** A small run: two samples asked for, and a symmetry analysis that
    finds the identity and a quarter turn about z. *)
Definition two_sample_input : ElasticTensor.input :=
  {| ElasticTensor.min_num_measurements := 2;
     ElasticTensor.min_num_points := 4;
     ElasticTensor.max_strain := 0.01;
     ElasticTensor.strain_matrices := [];
     ElasticTensor.use_symmetry := true;
     ElasticTensor.rotations := [];
     ElasticTensor.use_elements := true |}.
Definition quarter_turn_symmetry (use_elements : bool)
  : list (list (list Q)) :=
  [Np.eye3; rot90_z].

(** [two_sample_input] after [_create_strain_matrices] with the one and
    with the other source of random numbers (the unchanged input if
    that fails). *)
Definition two_sample_run : ElasticTensor.input :=
  match ElasticTensor._create_strain_matrices
          quarter_turn_symmetry constant_random two_sample_input with
  | inr inp => inp
  | inl _ => two_sample_input
  end.
Definition skewed_run : ElasticTensor.input :=
  match ElasticTensor._create_strain_matrices
          quarter_turn_symmetry skewed_random two_sample_input with
  | inr inp => inp
  | inl _ => two_sample_input
  end.

(** Inputs that come with their strain matrices, and with their
    rotations only; a parent class that accepts every input as it
    is. *)
Definition input_with_strains : ElasticTensor.input :=
  {| ElasticTensor.min_num_measurements := 2;
     ElasticTensor.min_num_points := 4;
     ElasticTensor.max_strain := 0.01;
     ElasticTensor.strain_matrices := [uniaxial_x 0.01];
     ElasticTensor.use_symmetry := true;
     ElasticTensor.rotations := [];
     ElasticTensor.use_elements := true |}.
Definition input_with_rotations : ElasticTensor.input :=
  {| ElasticTensor.min_num_measurements := 11;
     ElasticTensor.min_num_points := 100;
     ElasticTensor.max_strain := 0.01;
     ElasticTensor.strain_matrices := [];
     ElasticTensor.use_symmetry := true;
     ElasticTensor.rotations := [rot90_z; rot90_z; Np.eye3];
     ElasticTensor.use_elements := true |}.
Definition parent_accepts (inp : ElasticTensor.input)
  : ElasticTensor.error + ElasticTensor.input :=
  inr inp.

(** ** [ElasticTensor.collect_output] *)

Module Collect.

(** What Python itself raises in [collect_output], beside the errors of
    the module: an index into an empty sequence, a key that a
    dictionary does not hold. *)
Inductive error : Type :=
| IndexError
| KeyError (key : string)
| Raised (e : exception).

(** [output/generic] of a child job as [inspect] shows it: the history
    of each quantity, [None] where [list_nodes()] does not name it. *)
Module Generic.
Record t : Type := {
  energy_tot : option (list Q);
  energy_pot : option (list Q);
  pressures : option (list (list (list Q)));
  volume : option (list Q)
}.
End Generic.

(** The entries of a dictionary that the gathering fills; [None] for a
    key that is not there.  ['energy_tot'.split('_')[0]] and
    ['energy_pot'.split('_')[0]] are both ['energy']; the other two keys
    have no underscore and name their own entries. *)
Record channels : Type := {
  energy : option (list Q);
  pressures : option (list (list (list Q)));
  volume : option (list Q);
  id : option (list Z)
}.

(** [defaultdict(list)] *)
Definition empty : channels :=
  {| energy := None; pressures := None; volume := None; id := None |}.

(** [history[-1]] *)
Definition last_item {A} (history : list A) : error + A :=
  match rev history with
  | x :: _ => inr x
  | [] => inl IndexError
  end.

(** [d[channel]] on a [defaultdict(list)]: the empty list for a new
    key. *)
Definition entries {A} (channel : option (list A)) : list A :=
  match channel with
  | Some l => l
  | None => []
  end.

(** [d[channel].append(x)] *)
Definition append {A} (channel : option (list A)) (x : A) : option (list A) :=
  Some (entries channel ++ [x]).

(** Lines 243-246, for one key:
    [output_dict[channel].append(node[-1])] if the node is there,
    [output_dict[channel] = []] if not. *)
Definition gather {A} (node : option (list A)) (channel : option (list A))
  : error + option (list A) :=
  match node with
  | Some history =>
      match last_item history with
      | inr x => inr (append channel x)
      | inl e => inl e
      end
  | None => inr (Some [])
  end.

(** Lines 241-247: the body of the loop over the children, the keys
    taken in the order ['energy_tot', 'energy_pot', 'pressures', 'volume']. *)
Definition gather_job (d : channels) (job : Z * Generic.t) : error + channels :=
  let '(job_id, ham) := job in
  match gather (Generic.energy_tot ham) (energy d) with
  | inl e => inl e
  | inr en =>
  match gather (Generic.energy_pot ham) en with
  | inl e => inl e
  | inr en =>
  match gather (Generic.pressures ham) (pressures d) with
  | inl e => inl e
  | inr pr =>
  match gather (Generic.volume ham) (volume d) with
  | inl e => inl e
  | inr vol =>
      inr {| energy := en; pressures := pr; volume := vol;
             id := append (id d) job_id |}
  end end end end.

(** Lines 240-247. *)
Fixpoint gather_jobs (d : channels) (children : list (Z * Generic.t))
  : error + channels :=
  match children with
  | [] => inr d
  | job :: children =>
      match gather_job d job with
      | inl e => inl e
      | inr d => gather_jobs d children
      end
  end.

(** Lines 248-249: [self._output[k] = np.array(v)] for the keys of
    [output_dict]; the other entries of [self._output] stay. *)
Definition store (d _output : channels) : channels :=
  let pick {A} (new old : option A) : option A :=
    match new with Some v => Some v | None => old end in
  {| energy := pick (energy d) (energy _output);
     pressures := pick (pressures d) (pressures _output);
     volume := pick (volume d) (volume _output);
     id := pick (id d) (id _output) |}.

(** Lines 233-239: in interactive mode the histories of the first child
    are taken whole, and only ['energy_tot', 'pressures', 'volume'] are
    looked at. *)
Definition take_interactive (children : list (Z * Generic.t))
           (_output : channels) : error + channels :=
  match children with
  | [] => inl IndexError
  | (_, ham) :: _ =>
      let whole {A} (node : option (list A)) : option (list A) :=
        Some (match node with Some history => history | None => [] end) in
      inr {| energy := whole (Generic.energy_tot ham);
             pressures := whole (Generic.pressures ham);
             volume := whole (Generic.volume ham);
             id := id _output |}
  end.

(** [self._output[key]] *)
Definition lookup {A} (key : string) (entry : option A) : error + A :=
  match entry with
  | Some v => inr v
  | None => inl (KeyError key)
  end.

(** [-np.array(pressures)] *)
Definition negate (pressures : list (list (list Q))) : list (list (list Q)) :=
  map (map (map Qopp)) pressures.

(** What [collect_output] leaves in [self._output] and writes to the
    HDF5 file: the gathered entries, ['fit_score'] and the entries of
    [calc_elastic_constants]. *)
Record output : Type := {
  gathered : channels;
  score : option fit_score;
  constants : elastic_constants
}.

Section CollectOutput.
Context `{External}.

(** Lines 232-265.  [interactive] is
    [ref_job.server.run_mode.interactive]; [children] pairs each of
    [child_ids] with what [inspect] shows of it; [_output] is
    [self._output] at the start. *)
Definition collect_output (inp : ElasticTensor.input) (interactive : bool)
           (children : list (Z * Generic.t)) (_output : channels)
  : error + output :=
  let gathering :=
    if interactive then take_interactive children _output
    else
      match gather_jobs empty children with
      | inl e => inl e
      | inr d => inr (store d _output)
      end in
  match gathering with
  | inl e => inl e
  | inr _output =>
  match lookup "pressures" (pressures _output) with
  | inl e => inl e
  | inr p =>
  match lookup "energy" (energy _output) with
  | inl e => inl e
  | inr en =>
  match lookup "volume" (volume _output) with
  | inl e => inl e
  | inr vol =>
  match calc_elastic_tensor (ElasticTensor.strain_matrices inp)
          (Some (negate p)) (Some en) (Some vol)
          (Some (ElasticTensor.rotations inp)) true with
  | inl e => inl (Raised e)
  | inr (tensor, fit) =>
  match calc_elastic_constants tensor with
  | inl e => inl (Raised e)
  | inr c => inr {| gathered := _output; score := fit; constants := c |}
  end end end end end end.
End CollectOutput.

(** Every key is there. *)
Definition filled (d : channels) : Prop :=
  energy d <> None /\ pressures d <> None /\ volume d <> None /\ id d <> None.
End Collect.

(** A run to try the gathering on: four strains (none, and a unit
    stretch along each axis), and four children whose last pressures
    are those of a cubic crystal with [c11 = 3] and [c12 = 1]. *)
Definition axis_strains_input : ElasticTensor.input :=
  {| ElasticTensor.min_num_measurements := 4;
     ElasticTensor.min_num_points := 4;
     ElasticTensor.max_strain := 1;
     ElasticTensor.strain_matrices :=
       [zeros3; diagonal3 1 0 0; diagonal3 0 1 0; diagonal3 0 0 1];
     ElasticTensor.use_symmetry := false;
     ElasticTensor.rotations := [];
     ElasticTensor.use_elements := true |}.
Definition child_output (pressure : list (list Q)) : Collect.Generic.t :=
  {| Collect.Generic.energy_tot := Some [1; 2]%Q;
     Collect.Generic.energy_pot := Some [3]%Q;
     Collect.Generic.pressures := Some [zeros3; pressure];
     Collect.Generic.volume := Some [10]%Q |}.
Definition axis_pressures : list (list (list Q)) :=
  [zeros3; diagonal3 (-3) (-1) (-1); diagonal3 (-1) (-3) (-1);
   diagonal3 (-1) (-1) (-3)]%Q.
Definition axis_children : list (Z * Collect.Generic.t) :=
  combine [6; 7; 8; 9]%Z (map child_output axis_pressures).

(** A child that stores no volume, and one that ran all four strains
    interactively and stores no pressures. *)
Definition child_without_volume : Collect.Generic.t :=
  {| Collect.Generic.energy_tot := Some [1; 2]%Q;
     Collect.Generic.energy_pot := Some [3]%Q;
     Collect.Generic.pressures := Some [diagonal3 (-1) (-1) (-3)]%Q;
     Collect.Generic.volume := None |}.
Definition interactive_child : Collect.Generic.t :=
  {| Collect.Generic.energy_tot := Some [0; 1; 1; 1]%Q;
     Collect.Generic.energy_pot := None;
     Collect.Generic.pressures := None;
     Collect.Generic.volume := Some [2; 2; 2; 2]%Q |}.

(** ** The job generator *)

Module ElasticJobGenerator.
Import Ascii.

(** [str(n)] of a non-negative integer, as [format] prints it. *)
Definition str (n : nat) : string :=
  DecimalString.NilEmpty.string_of_uint (Nat.to_uint n).

(** [s.replace(old, new)] for two single characters. *)
Fixpoint replace (old new : Ascii.ascii) (s : string) : string :=
  match s with
  | EmptyString => EmptyString
  | String c s =>
      String (if Ascii.eqb c old then new else c) (replace old new s)
  end.

Section Generator.
(** The structures, and [basis.apply_strain(np.array(epsilon))] on a
    copy of the structure of the reference job: both belong to the
    atomistics package. *)
Variable Atoms : Type.
Variable apply_strain : list (list Q) -> Atoms -> Atoms.

(** Lines 143-149. *)
Definition parameter_list (strain_matrices : list (list (list Q)))
           (structure : Atoms) : list (nat * Atoms) :=
  map (fun '(ii, epsilon) => (ii, apply_strain epsilon structure))
      (combine (seq 0 (length strain_matrices)) strain_matrices).

(** Lines 151-152; [name] is the name of the master job. *)
Definition job_name (name : string) (parameter : nat * Atoms) : string :=
  replace "."%char "_"%char (name ++ "_" ++ str (fst parameter))%string.

(** Lines 155-157; [set_structure] is the assignment to [job.structure]. *)
Definition modify_job {Job} (set_structure : Atoms -> Job -> Job)
           (job : Job) (parameter : nat * Atoms) : Job :=
  set_structure (snd parameter) job.
End Generator.
End ElasticJobGenerator.

(** ** Reference notions for the correctness of the regression *)

(** The sum [f 0 + ... + f (n - 1)], and the entry [M[i, j]] of a
    nested list, zero outside of it: the normal equations are worked
    out on these. *)
Fixpoint qsum (f : nat -> Q) (n : nat) : Q :=
  match n with
  | O => 0%Q
  | S k => (qsum f k + f k)%Q
  end.

Definition entry (M : list (list Q)) (i j : nat) : Q := nth j (nth i M []) 0%Q.

(** The state of the elimination after the columns [processed]: every
    pivot row has a one in its own column and zeros in the other pivot
    columns, no column has two pivot rows, and the rows left have zeros
    in all processed columns.  Rows have [p] coefficients and a
    right-hand side. *)
Definition elimination_state (p : nat) (processed : list nat)
           (done : list (nat * list Q)) (todo : list (list Q)) : Prop :=
  (forall c r, In (c, r) done ->
     In c processed /\ length r = S p /\ (nth c r 0 == 1)%Q)
  /\ (forall c r c' r', In (c, r) done -> In (c', r') done -> c <> c' ->
        (nth c r' 0 == 0)%Q)
  /\ NoDup (map fst done)
  /\ (forall r, In r todo ->
        length r = S p /\ forall k, In k processed -> (nth k r 0 == 0)%Q).

(** All the equations [rows] hold at [w], the unknowns followed by -1. *)
Definition equations_hold (w : list Q) (rows : list (list Q)) : Prop :=
  forall r, In r rows -> (qdot r w == 0)%Q.

(* ================================================================== *)
(** * Part II: properties                                              *)
(* ================================================================== *)

(** ** Tensor algebra *)

Example voigt_index_table :
  map (fun i => map (voigt_index i) (Np.range 3)) (Np.range 3)
  = [[0; 5; 4]; [5; 1; 3]; [4; 3; 2]].
Proof. reflexivity. Qed.

Section VoigtFacts.
Context {A : Type} (zero : A).

Lemma has_shape2_6x6 (m : list (list A)) :
  Np.has_shape2 6 6 m = true ->
  exists a0 a1 a2 a3 a4 a5 b0 b1 b2 b3 b4 b5 c0 c1 c2 c3 c4 c5
         d0 d1 d2 d3 d4 d5 e0 e1 e2 e3 e4 e5 f0 f1 f2 f3 f4 f5,
    m = [[a0; a1; a2; a3; a4; a5]; [b0; b1; b2; b3; b4; b5];
         [c0; c1; c2; c3; c4; c5]; [d0; d1; d2; d3; d4; d5];
         [e0; e1; e2; e3; e4; e5]; [f0; f1; f2; f3; f4; f5]].
  Proof.
    unfold Np.has_shape2. intros H.
    apply andb_prop in H as [Hl Hr]. apply Nat.eqb_eq in Hl.
    do 7 (destruct m as [|? m]; try discriminate Hl). clear Hl.
    cbn [forallb] in Hr.
    repeat match goal with
           | H : (_ && _)%bool = true |- _ => apply andb_prop in H as [? H]
           end.
    repeat match goal with
           | H : (length ?r =? 6)%nat = true |- _ =>
               apply Nat.eqb_eq in H;
               do 7 (destruct r as [|? r]; try discriminate H); clear H
           end.
    repeat eexists.
  Qed.
End VoigtFacts.

Lemma voigt_index_closed_form (i j : Z) : voigt_index i j = voigt_map i j.
Proof.
  unfold voigt_index, voigt_map.
  destruct (i =? j) eqn:E; cbn [negb Z.b2z]; lia.
Qed.

Ltac split_range H :=
  match type of H with
  | 0 <= ?i < 3 =>
      let E := fresh in
      assert (E : i = 0 \/ i = 1 \/ i = 2) by lia;
      clear H; destruct E as [E | [E | E]]; subst i
  end.

Section VoigtTheorems.
Context {A : Type} (zero : A).

(** C3 (amended): the expansion reads the 6x6 tensor through the map
    [m(i,j) = i if i == j else 6 - i - j]: for a 6x6 tensor and all
    [i,j,k,l] in 0..2, [C[i,j,k,l] = C6x6[m(i,j), m(k,l)]]; a diagonal
    pair maps to itself (0, 1, 2) and an off-diagonal pair to 3, 4 or 5. *)
Theorem voigt_to_full_spec (elastic_tensor : list (list A)) (i j k l : Z) :
  Np.has_shape2 6 6 elastic_tensor = true ->
  0 <= i < 3 -> 0 <= j < 3 -> 0 <= k < 3 -> 0 <= l < 3 ->
  Np.get4 zero (voigt_to_full zero elastic_tensor) i j k l
  = Np.get2 zero elastic_tensor (voigt_map i j) (voigt_map k l)
  /\ voigt_index i j = voigt_map i j
  /\ (i = j -> voigt_map i j = i)
  /\ (i <> j -> 3 <= voigt_map i j <= 5).
  Proof.
    intros Hs Hi Hj Hk Hl.
    destruct (has_shape2_6x6 _ Hs) as
      (a0 & a1 & a2 & a3 & a4 & a5 & b0 & b1 & b2 & b3 & b4 & b5 &
       c0 & c1 & c2 & c3 & c4 & c5 & d0 & d1 & d2 & d3 & d4 & d5 &
       e0 & e1 & e2 & e3 & e4 & e5 & f0 & f1 & f2 & f3 & f4 & f5 & ->).
    split; [| split; [apply voigt_index_closed_form | split]].
    - split_range Hi; split_range Hj; split_range Hk; split_range Hl;
        reflexivity.
    - intros ->. unfold voigt_map. now rewrite Z.eqb_refl.
    - intros Hne. unfold voigt_map.
      destruct (i =? j) eqn:E; [apply Z.eqb_eq in E; contradiction | lia].
  Qed.

(** The contraction undoes the expansion on every 6x6 array. *)
Lemma full_to_voigt_voigt_to_full (elastic_tensor : list (list A)) :
  Np.has_shape2 6 6 elastic_tensor = true ->
  full_to_voigt zero elastic_tensor (voigt_to_full zero elastic_tensor)
  = elastic_tensor.
  Proof.
    intros Hs.
    destruct (has_shape2_6x6 _ Hs) as
      (a0 & a1 & a2 & a3 & a4 & a5 & b0 & b1 & b2 & b3 & b4 & b5 &
       c0 & c1 & c2 & c3 & c4 & c5 & d0 & d1 & d2 & d3 & d4 & d5 &
       e0 & e1 & e2 & e3 & e4 & e5 & f0 & f1 & f2 & f3 & f4 & f5 & ->).
    reflexivity.
  Qed.

(** C8: for every symmetric 6x6 matrix, expanding to the 3x3x3x3 tensor
    and contracting back gives the matrix itself. *)
Theorem voigt_round_trip (C : list (list A)) :
  Np.has_shape2 6 6 C = true ->
  symmetric_6x6 zero C ->
  full_to_voigt zero C (voigt_to_full zero C) = C.
  Proof.
    intros Hs _. now apply full_to_voigt_voigt_to_full.
  Qed.
End VoigtTheorems.

(** C3, as stated, fails: the map of the specification sends the pair
    (1,2) to 2, not into 3..5, and the expanded tensor at [1,2,0,0] holds
    entry [3,0] of the 6x6 array (18), not entry [2,0] (12). *)
Lemma spec_voigt_map_counterexample :
  spec_voigt_map 1 2 = 2
  /\ Np.get4 0 (voigt_to_full 0 numbered_6x6) 1 2 0 0 = 18
  /\ Np.get2 0 numbered_6x6 (spec_voigt_map 1 2) (spec_voigt_map 0 0) = 12
  /\ ~ (forall i j k l, 0 <= i < 3 -> 0 <= j < 3 -> 0 <= k < 3 -> 0 <= l < 3 ->
          Np.get4 0 (voigt_to_full 0 numbered_6x6) i j k l
          = Np.get2 0 numbered_6x6 (spec_voigt_map i j) (spec_voigt_map k l)).
Proof.
  repeat split; try reflexivity.
  intros H. specialize (H 1 2 0 0). vm_compute in H.
  assert (E : 18 = 12) by (apply H; split; congruence).
  discriminate E.
Qed.

Lemma voigt_to_full_spec_witness :
  Np.get4 0 (voigt_to_full 0 numbered_6x6) 1 2 0 0
  = Np.get2 0 numbered_6x6 (voigt_map 1 2) (voigt_map 0 0)
  /\ voigt_index 1 2 = voigt_map 1 2
  /\ (1 = 2 -> voigt_map 1 2 = 1)
  /\ (1 <> 2 -> 3 <= voigt_map 1 2 <= 5).
Proof.
  apply (voigt_to_full_spec 0 numbered_6x6 1 2 0 0); [reflexivity | lia ..].
Defined.

Lemma voigt_round_trip_witness :
  full_to_voigt 0 (map (fun r => map (fun c => r + c) (Np.range 6)) (Np.range 6))
    (voigt_to_full 0 (map (fun r => map (fun c => r + c) (Np.range 6)) (Np.range 6)))
  = map (fun r => map (fun c => r + c) (Np.range 6)) (Np.range 6).
Proof.
  apply (voigt_round_trip 0); [reflexivity |].
  intros i j Hi Hj.
  assert (Ei : i = 0 \/ i = 1 \/ i = 2 \/ i = 3 \/ i = 4 \/ i = 5) by lia.
  assert (Ej : j = 0 \/ j = 1 \/ j = 2 \/ j = 3 \/ j = 4 \/ j = 5) by lia.
  destruct Ei as [-> | [-> | [-> | [-> | [-> | ->]]]]];
    destruct Ej as [-> | [-> | [-> | [-> | [-> | ->]]]]]; reflexivity.
Defined.

(** ** Orientation check *)

Section OrientationFacts.
Local Open Scope R_scope.

Lemma linalg_norm_100 : linalg_norm [1; 0; 0] = 1.
Proof.
  unfold linalg_norm; cbn [fold_right].
  replace (1 * 1 + (0 * 0 + (0 * 0 + 0))) with 1 by ring. apply sqrt_1.
Qed.

Lemma linalg_norm_010 : linalg_norm [0; 1; 0] = 1.
Proof.
  unfold linalg_norm; cbn [fold_right].
  replace (0 * 0 + (1 * 1 + (0 * 0 + 0))) with 1 by ring. apply sqrt_1.
Qed.

Lemma linalg_norm_002 : linalg_norm [0; 0; 2] = 2.
Proof.
  unfold linalg_norm; cbn [fold_right].
  replace (0 * 0 + (0 * 0 + (2 * 2 + 0))) with (Rsqr 2) by (unfold Rsqr; ring).
  apply sqrt_Rsqr; lra.
Qed.

(** Row normalization turns the stretched orientation into the identity. *)
Lemma normalize_rows_stretched_z : normalize_rows stretched_z = eye3R.
Proof.
  unfold normalize_rows, stretched_z, eye3R; cbn [map].
  rewrite linalg_norm_100, linalg_norm_010, linalg_norm_002.
  repeat (f_equal; try lra).
Qed.

Lemma linalg_det_eye3R : linalg_det eye3R = 1.
Proof. cbv -[Rplus Rmult Rminus IZR]. ring. Qed.

Lemma isclose_refl_1 : isclose 1 1 = true.
Proof.
  unfold isclose. destruct (Rle_dec _ _) as [_ | H]; [reflexivity |].
  exfalso; apply H. replace (1 - 1) with 0 by ring.
  rewrite Rabs_R0, Rabs_R1. lra.
Qed.

(** Rotating by the identity leaves the expanded tensor as it is. *)
Lemma einsum_rotate_eye3R (m : list (list R)) :
  Np.has_shape2 6 6 m = true ->
  einsum_rotate eye3R (voigt_to_full 0 m) = voigt_to_full 0 m.
Proof.
  intros Hs.
  destruct (has_shape2_6x6 _ Hs) as
    (a0 & a1 & a2 & a3 & a4 & a5 & b0 & b1 & b2 & b3 & b4 & b5 &
     c0 & c1 & c2 & c3 & c4 & c5 & d0 & d1 & d2 & d3 & d4 & d5 &
     e0 & e1 & e2 & e3 & e4 & e5 & f0 & f1 & f2 & f3 & f4 & f5 & ->).
  cbv -[Rplus Rmult Rminus IZR].
  repeat (f_equal; try ring).
Qed.

(** C4 (amended): for every 6x6 elastic tensor [C] the orientation
    [[1,0,0],[0,1,0],[0,0,2]] raises no error.  Its rows are orthogonal;
    normalizing them gives the identity, the determinant is 1, the check
    passes, and the function returns [C]. *)
Theorem stretched_orientation_accepted (C : list (list R)) :
  Np.has_shape2 6 6 C = true ->
  normalize_rows stretched_z = eye3R
  /\ isclose (linalg_det (normalize_rows stretched_z)) 1 = true
  /\ get_elastic_tensor_by_orientation stretched_z C = inr C.
Proof.
  intros Hs. unfold get_elastic_tensor_by_orientation.
  rewrite normalize_rows_stretched_z, linalg_det_eye3R, isclose_refl_1.
  cbn [negb]. rewrite (einsum_rotate_eye3R C Hs).
  now rewrite (full_to_voigt_voigt_to_full 0 C Hs).
Qed.

(** C4, as stated, fails: on a concrete 6x6 tensor the orientation
    [[1,0,0],[0,1,0],[0,0,2]] does not raise [InvalidOrientation]; the
    tensor comes back. *)
Lemma stretched_orientation_counterexample :
  get_elastic_tensor_by_orientation stretched_z numbered_6x6_R
  <> inl InvalidOrientation.
Proof.
  unfold get_elastic_tensor_by_orientation.
  rewrite normalize_rows_stretched_z, linalg_det_eye3R, isclose_refl_1.
  cbn [negb]. discriminate.
Qed.

Lemma stretched_orientation_accepted_witness :
  normalize_rows stretched_z = eye3R
  /\ isclose (linalg_det (normalize_rows stretched_z)) 1 = true
  /\ get_elastic_tensor_by_orientation stretched_z numbered_6x6_R
     = inr numbered_6x6_R.
Proof.
  apply (stretched_orientation_accepted numbered_6x6_R). reflexivity.
Defined.

End OrientationFacts.

(** ** [np.unique] *)

Section UniqueFacts.
Context {A : Type} (eqb leb : A -> A -> bool).
Hypothesis eqb_refl : forall x, eqb x x = true.
Hypothesis eqb_sym : forall x y, eqb x y = true -> eqb y x = true.
Hypothesis eqb_trans :
  forall x y z, eqb x y = true -> eqb y z = true -> eqb x z = true.

Lemma first_occurrences_incl (l : list A) (x : A) :
  In x (Np.first_occurrences eqb l) -> In x l.
Proof.
  revert x. induction l as [|h t IH]; cbn; intros x Hx; [exact Hx |].
  destruct Hx as [-> | Hx]; [now left |].
  apply filter_In in Hx as [Hx _]. right. now apply IH.
Qed.

Lemma first_occurrences_cover (l : list A) (x : A) :
  In x l -> exists r, In r (Np.first_occurrences eqb l) /\ eqb r x = true.
Proof.
  induction l as [|h t IH]; cbn; [contradiction |].
  intros [-> | Hx].
  - exists x. split; [now left | apply eqb_refl].
  - destruct (IH Hx) as (r & Hr & Erx).
    destruct (eqb h r) eqn:Ehr.
    + exists h. split; [now left | now apply eqb_trans with r].
    + exists r. split; [| exact Erx].
      right. apply filter_In. split; [exact Hr | now rewrite Ehr].
Qed.

Lemma first_occurrences_NoDup (l : list A) :
  NoDup (Np.first_occurrences eqb l).
Proof.
  induction l as [|h t IH]; cbn; constructor.
  - intros Hin. apply filter_In in Hin as [_ Hin].
    now rewrite eqb_refl in Hin.
  - now apply NoDup_filter.
Qed.

Lemma first_occurrences_separated (l : list A) (a b : A) :
  In a (Np.first_occurrences eqb l) -> In b (Np.first_occurrences eqb l) ->
  eqb a b = true -> a = b.
Proof.
  induction l as [|h t IH]; cbn; [contradiction |].
  intros [-> | Ha] [-> | Hb] E; try reflexivity.
  - apply filter_In in Hb as [_ Hb]. now rewrite E in Hb.
  - apply filter_In in Ha as [_ Ha]. now rewrite (eqb_sym _ _ E) in Ha.
  - apply filter_In in Ha as [Ha _]. apply filter_In in Hb as [Hb _]. auto.
Qed.

Lemma first_occurrences_length (l : list A) :
  (length (Np.first_occurrences eqb l) <= length l)%nat.
Proof.
  induction l as [|h t IH]; cbn; [lia |].
  pose proof (filter_length_le (fun y => negb (eqb h y)) (Np.first_occurrences eqb t)).
  lia.
Qed.

Lemma insert_Permutation (x : A) (l : list A) :
  Permutation (Np.insert leb x l) (x :: l).
Proof.
  induction l as [|y t IH]; cbn; [reflexivity |].
  destruct (leb x y); [reflexivity |].
  rewrite IH. apply perm_swap.
Qed.

Lemma sort_Permutation (l : list A) : Permutation (Np.sort leb l) l.
Proof.
  induction l as [|x t IH]; cbn; [reflexivity |].
  rewrite insert_Permutation. now constructor.
Qed.

Lemma unique_length (l : list A) :
  length (Np.unique eqb leb l) = length (Np.first_occurrences eqb l).
Proof. apply Permutation_length, sort_Permutation. Qed.

Lemma unique_In (l : list A) (x : A) :
  In x (Np.unique eqb leb l) <-> In x (Np.first_occurrences eqb l).
Proof.
  split; apply Permutation_in;
    [| symmetry]; apply sort_Permutation.
Qed.

Lemma unique_NoDup (l : list A) : NoDup (Np.unique eqb leb l).
Proof.
  eapply Permutation_NoDup; [symmetry; apply sort_Permutation |].
  apply first_occurrences_NoDup.
Qed.

(** [index_of] finds a position whenever some element matches. *)
Lemma index_of_found (x : A) (u : list A) (d : A) :
  (exists r, In r u /\ eqb x r = true) ->
  (Np.index_of eqb x u < length u)%nat
  /\ eqb x (nth (Np.index_of eqb x u) u d) = true.
Proof.
  induction u as [|y t IH]; cbn; intros (r & Hr & E); [contradiction |].
  destruct (eqb x y) eqn:Exy; [split; [lia | exact Exy] |].
  destruct Hr as [-> | Hr]; [congruence |].
  destruct IH as [Hlt Hnth]; [now exists r |]. split; [lia | exact Hnth].
Qed.

(** The inverse indices are exactly the positions of the unique array. *)
Lemma unique_inverse_In (l : list A) (j : nat) :
  In j (snd (Np.unique_inverse eqb leb l))
  <-> (j < length (Np.unique eqb leb l))%nat.
Proof.
  unfold Np.unique_inverse; cbn [snd].
  set (u := Np.unique eqb leb l).
  split.
  - intros Hj. apply in_map_iff in Hj as (x & <- & Hx).
    destruct l as [|d l']; [contradiction |].
    apply (index_of_found x u d).
    destruct (first_occurrences_cover _ _ Hx) as (r & Hr & E).
    exists r. split; [now apply unique_In | now apply eqb_sym].
  - intros Hj.
    destruct l as [|d l']; [cbn in Hj; lia |].
    set (l := d :: l') in *.
    pose (r := nth j u d).
    assert (Hr : In r u) by now apply nth_In.
    assert (Hrl : In r l)
      by (apply first_occurrences_incl, unique_In; exact Hr).
    apply in_map_iff. exists r. split; [| exact Hrl].
    destruct (index_of_found r u d) as [Hlt E];
      [exists r; split; [exact Hr | apply eqb_refl] |].
    assert (Heq : r = nth (Np.index_of eqb r u) u d).
    { apply (first_occurrences_separated l); try exact E.
      - now apply unique_In.
      - apply unique_In, nth_In, Hlt. }
    apply (proj1 (NoDup_nth u d) (unique_NoDup l)); [exact Hlt | exact Hj |].
    symmetry; exact Heq.
Qed.
End UniqueFacts.

(** *** [np.unique] on integer indices *)

Lemma insert_nat_sorted (x : nat) (l : list nat) :
  Sorted le l -> Sorted le (Np.insert Nat.leb x l).
Proof.
  induction 1 as [|y t Hs IH Hhd]; cbn; [repeat constructor |].
  destruct (Nat.leb x y) eqn:E.
  - apply Nat.leb_le in E. repeat constructor; assumption.
  - apply Nat.leb_gt in E. constructor; [exact IH |].
    destruct t as [|z t']; cbn; [constructor; lia |].
    destruct (Nat.leb x z); constructor; [lia |].
    now inversion Hhd.
Qed.

Lemma sort_nat_sorted (l : list nat) : Sorted le (Np.sort Nat.leb l).
Proof.
  induction l as [|x t IH]; cbn; [constructor |].
  now apply insert_nat_sorted.
Qed.

(** A sorted list of distinct numbers that holds exactly the numbers of
    [a, a+n) is [seq a n]. *)
Lemma sorted_NoDup_is_seq (n : nat) :
  forall (a : nat) (l : list nat),
    Sorted le l -> NoDup l ->
    (forall x, In x l <-> (a <= x < a + n)%nat) ->
    l = seq a n.
Proof.
  induction n as [|n IH]; intros a l Hs Hnd Hin.
  - destruct l as [|x t]; [reflexivity |].
    exfalso. assert (a <= x < a + 0)%nat by (apply Hin; now left). lia.
  - destruct l as [|x t].
    + exfalso. apply (Hin a). lia.
    + apply Sorted_StronglySorted in Hs; [| intros p q r; lia].
      inversion Hs as [|? ? Hst Hall]; subst.
      inversion Hnd as [|? ? Hnotin Hnd']; subst.
      rewrite Forall_forall in Hall.
      assert (Hx : x = a).
      { assert (Hxr : (a <= x < a + S n)%nat) by (apply Hin; now left).
        assert (Ha : In a (x :: t)) by (apply Hin; lia).
        destruct Ha as [Ha | Ha]; [congruence |].
        specialize (Hall a Ha). lia. }
      subst x. cbn [seq]. f_equal.
      apply IH.
      * now apply StronglySorted_Sorted.
      * exact Hnd'.
      * intros y. split.
        -- intros Hy. assert (Hyr : (a <= y < a + S n)%nat) by (apply Hin; now right).
           assert (y <> a) by (intros ->; contradiction). lia.
        -- intros Hy. assert (Hy' : In y (a :: t)) by (apply Hin; lia).
           destruct Hy' as [Hy' | Hy']; [lia | exact Hy'].
Qed.

Lemma unique_nat_is_seq (l : list nat) (n : nat) :
  (forall j, In j l <-> (j < n)%nat) ->
  Np.unique Nat.eqb Nat.leb l = seq 0 n.
Proof.
  intros Hin. apply sorted_NoDup_is_seq.
  - apply sort_nat_sorted.
  - apply unique_NoDup. apply Nat.eqb_refl.
  - intros x. rewrite unique_In. cbn [Nat.add].
    assert (Hx : In x (Np.first_occurrences Nat.eqb l) <-> In x l).
    { split; [apply first_occurrences_incl |].
      intros Hx.
      destruct (first_occurrences_cover Nat.eqb Nat.eqb_refl
                  (fun a b c H1 H2 =>
                     eq_trans (f_equal (fun t => Nat.eqb t c)
                                 (proj1 (Nat.eqb_eq a b) H1)) H2) l x Hx)
        as (r & Hr & E).
      apply Nat.eqb_eq in E. now subst r. }
    rewrite Hx, Hin. lia.
Qed.

(** Indexing with [0, 1, ..., n-1] keeps the first [n] entries. *)
Lemma take_seq_firstn {A} (d : A) (l : list A) (n : nat) :
  (n <= length l)%nat -> Np.take d (seq 0 n) l = firstn n l.
Proof.
  unfold Np.take. revert n. induction l as [|x t IH]; intros n Hn.
  - cbn in Hn. assert (n = 0%nat) by lia. now subst.
  - destruct n as [|n]; [reflexivity |].
    cbn [seq map firstn nth]. f_equal.
    rewrite <- seq_shift, map_map. cbn [nth]. apply IH. cbn in Hn. lia.
Qed.

(** *** Equality of rounded matrices is an equivalence *)

Lemma vec_eqb_refl (u : list Q) : Np.vec_eqb u u = true.
Proof.
  induction u as [|x t IH]; cbn; [reflexivity |].
  rewrite IH, andb_true_r. apply Qeq_bool_iff. reflexivity.
Qed.

Lemma vec_eqb_sym (u v : list Q) :
  Np.vec_eqb u v = true -> Np.vec_eqb v u = true.
Proof.
  revert v. induction u as [|x t IH]; intros [|y v']; cbn; try congruence.
  intros H. apply andb_prop in H as [H1 H2].
  rewrite (IH _ H2), andb_true_r.
  apply Qeq_bool_iff. symmetry. now apply Qeq_bool_iff.
Qed.

Lemma vec_eqb_trans (u v w : list Q) :
  Np.vec_eqb u v = true -> Np.vec_eqb v w = true -> Np.vec_eqb u w = true.
Proof.
  revert v w. induction u as [|x t IH]; intros [|y v'] [|z w']; cbn;
    try congruence.
  intros H1 H2.
  apply andb_prop in H1 as [H1 H1']. apply andb_prop in H2 as [H2 H2'].
  rewrite (IH _ _ H1' H2'), andb_true_r.
  apply Qeq_bool_iff. transitivity y; now apply Qeq_bool_iff.
Qed.

(** *** The rotation reduction of lines 103-105 *)

(** The reduction keeps a prefix of its input: as many leading matrices
    as there are distinct matrices after rounding. *)
Lemma unique_rotations_firstn (rotations : list (list (list Q))) :
  unique_rotations rotations
  = firstn (length (Np.first_occurrences Np.mat_eqb (Np.round_all 6 rotations)))
           rotations.
Proof.
  unfold unique_rotations.
  set (rounded := Np.round_all 6 rotations).
  destruct (Np.unique_inverse Np.mat_eqb Np.mat_leb rounded) as [u indices] eqn:E.
  assert (Ei : indices = snd (Np.unique_inverse Np.mat_eqb Np.mat_leb rounded))
    by now rewrite E.
  assert (Hin : forall j, In j indices
                 <-> (j < length (Np.first_occurrences Np.mat_eqb rounded))%nat).
  { intros j. rewrite Ei.
    rewrite <- (unique_length Np.mat_eqb Np.mat_leb).
    apply unique_inverse_In.
    - intros x. apply vec_eqb_refl.
    - intros x y. apply vec_eqb_sym.
    - intros x y z. apply vec_eqb_trans. }
  rewrite (unique_nat_is_seq _ _ Hin).
  apply take_seq_firstn.
  etransitivity; [apply first_occurrences_length |].
  unfold rounded, Np.round_all. now rewrite length_map.
Qed.

(** C10: when a rotation list is supplied, the rotations used for the
    augmentation start with the exact identity matrix, and there are as
    many of them as the identity-prepended list has distinct matrices
    after rounding to 6 decimal places. *)
Theorem reduce_rotations_identity_first (rotations : list (list (list Q))) :
  hd_error (reduce_rotations (Some rotations)) = Some Np.eye3
  /\ length (reduce_rotations (Some rotations))
     = distinct_after_rounding (Np.eye3 :: rotations).
Proof.
  unfold reduce_rotations, distinct_after_rounding.
  rewrite unique_rotations_firstn.
  set (n := length _).
  assert (Hle : (n <= length (Np.eye3 :: rotations))%nat).
  { unfold n. etransitivity; [apply first_occurrences_length |].
    unfold Np.round_all. now rewrite length_map. }
  assert (Hpos : (1 <= n)%nat) by (unfold n; cbn; lia).
  split.
  - destruct n as [|n']; [lia | reflexivity].
  - rewrite firstn_length_le; [reflexivity | exact Hle].
Qed.

(** C2 at [rotations = [I, I + 1e-8, R90]]: the specification asks for
    [[I, R90]]; the code keeps the first two matrices of the
    identity-prepended list, [[I, I]], and loses the rotation. *)
Theorem reduce_rotations_loses_rotation :
  reduce_rotations (Some [Np.eye3; eye3_perturbed; rot90_z])
  = [Np.eye3; Np.eye3]
  /\ spec_reduce_rotations [Np.eye3; eye3_perturbed; rot90_z]
     = [Np.eye3; rot90_z]
  /\ ~ In rot90_z (reduce_rotations (Some [Np.eye3; eye3_perturbed; rot90_z]))
  /\ _get_rotation_matrices [Np.eye3; eye3_perturbed; rot90_z]
     = [Np.eye3; eye3_perturbed].
Proof.
  assert (E : reduce_rotations (Some [Np.eye3; eye3_perturbed; rot90_z])
              = [Np.eye3; Np.eye3]) by (vm_compute; reflexivity).
  split; [exact E |]. split; [vm_compute; reflexivity |].
  split; [| vm_compute; reflexivity].
  rewrite E. intros [H | [H | []]]; discriminate H.
Qed.

(** ** Least squares and the normal equations *)

Section LeastSquaresFacts.
Local Open Scope Q_scope.

Lemma qdot_vsub (x u v : list Q) :
  length u = length v -> qdot x (vsub u v) == qdot x u - qdot x v.
Proof.
  revert u v. induction x as [|a x IH]; intros [|p u] [|q v] Hl;
    try discriminate Hl; cbn; try ring.
  injection Hl as Hl. unfold qdot in IH. rewrite (IH u v Hl). ring.
Qed.

Lemma qdot_vadd (u v w : list Q) :
  length u = length v -> qdot (vadd u v) w == qdot u w + qdot v w.
Proof.
  revert v w. induction u as [|a u IH]; intros [|b v] [|c w] Hl;
    try discriminate Hl; cbn; try ring.
  injection Hl as Hl. unfold qdot in IH. rewrite (IH v w Hl). ring.
Qed.

Lemma qdot_vscale (a : Q) (u w : list Q) :
  qdot (vscale a u) w == a * qdot u w.
Proof.
  revert w. induction u as [|x u IH]; intros [|c w]; cbn; try ring.
  unfold qdot in IH. rewrite (IH w). ring.
Qed.

Lemma qdot_zero (m w : list Q) :
  forallb (fun x => Qeq_bool x 0) m = true -> qdot m w == 0.
Proof.
  revert w. induction m as [|x m IH]; intros [|c w]; cbn; try reflexivity.
  intros H. apply andb_prop in H as [Hx Hm].
  apply Qeq_bool_iff in Hx. unfold qdot in IH. rewrite (IH w Hm), Hx. ring.
Qed.

Lemma qdot_repeat_zero (n : nat) (w : list Q) : qdot (repeat 0 n) w == 0.
Proof.
  apply qdot_zero. induction n as [|n IH]; [reflexivity | exact IH].
Qed.

Lemma residual_moments_length (X : list (list Q)) (y c : list Q) (b : Q) :
  forallb (fun row => (length row =? length c)%nat) X = true ->
  length (residual_moments X y c b) = length c.
Proof.
  unfold residual_moments. revert y.
  induction X as [|x X IH]; intros y HX; [apply repeat_length |].
  destruct y as [|yn y]; [apply repeat_length |].
  cbn in HX. apply andb_prop in HX as [Hx HX]. apply Nat.eqb_eq in Hx.
  cbn [combine fold_right]. unfold vadd at 1.
  rewrite length_map, length_combine. unfold vscale at 1. rewrite length_map.
  rewrite (IH y HX). lia.
Qed.

(** How the sum of squares changes from [(c, b)] to [(c', b')]. *)
Lemma sum_squared_residuals_shift (X : list (list Q)) (y c c' : list Q) (b b' : Q) :
  forallb (fun row => (length row =? length c)%nat) X = true ->
  length c' = length c ->
  sum_squared_residuals X y c' b'
  == sum_squared_residuals X y c b
     - 2 * (qdot (residual_moments X y c b) (vsub c' c)
            + (b' - b) * residual_sum X y c b)
     + fold_right (fun p acc =>
                     (qdot (fst p) (vsub c' c) + (b' - b))
                     * (qdot (fst p) (vsub c' c) + (b' - b)) + acc)
                  0 (combine X y).
Proof.
  intros HX Hl. revert y.
  induction X as [|x X IH]; intros y.
  - unfold sum_squared_residuals, residual_moments, residual_sum.
    cbn [combine fold_right]. rewrite qdot_repeat_zero. ring.
  - destruct y as [|yn y].
    + unfold sum_squared_residuals, residual_moments, residual_sum.
      cbn [combine fold_right]. rewrite qdot_repeat_zero. ring.
    + cbn in HX. apply andb_prop in HX as [Hx HX].
      specialize (IH HX y).
      assert (Hlen : length (vscale (yn - (qdot x c + b)) x)
                     = length (residual_moments X y c b)).
      { unfold vscale. rewrite length_map, residual_moments_length by exact HX.
        now apply Nat.eqb_eq. }
      unfold sum_squared_residuals, residual_moments, residual_sum in *.
      cbn [combine fold_right fst].
      rewrite (qdot_vadd _ _ _ Hlen), qdot_vscale, IH.
      pose proof (qdot_vsub x c' c Hl) as Hd.
      set (d := qdot x (vsub c' c)) in *.
      setoid_replace (qdot x c') with (d + qdot x c) by (rewrite Hd; ring).
      ring.
Qed.

Lemma sum_of_squares_nonneg {A} (f : A -> Q) (l : list A) :
  0 <= fold_right (fun a acc => f a * f a + acc) 0 l.
Proof.
  induction l as [|a l IH]; cbn [fold_right]; [apply Qle_refl |].
  assert (Hs : 0 <= f a * f a) by Lqa.nra.
  Lqa.lra.
Qed.

(** Coefficients and an intercept that satisfy the normal equations
    minimize the sum of the squared residuals. *)
Lemma normal_equations_least_squares (X : list (list Q)) (y c : list Q) (b : Q) :
  normal_equations X y c b = true -> least_squares_with_intercept X y c b.
Proof.
  unfold normal_equations. intros H.
  apply andb_prop in H as [H Hm]. apply andb_prop in H as [HX Hs].
  apply Qeq_bool_iff in Hs.
  intros c' b' Hl.
  rewrite (sum_squared_residuals_shift X y c c' b b' HX Hl).
  rewrite (qdot_zero _ _ Hm), Hs.
  pose proof (sum_of_squares_nonneg
                (fun p : list Q * Q => qdot (fst p) (vsub c' c) + (b' - b))
                (combine X y)) as Hnn.
  set (D := fold_right _ _ _) in *.
  set (S0 := sum_squared_residuals X y c b).
  Lqa.lra.
Qed.
End LeastSquaresFacts.

(** ** The energy-based fit *)

Section EnergyFitFacts.
Context `{External}.
Local Open Scope Q_scope.

Lemma put_length {A} (mask : list bool) (v a : list A) :
  length (Np.put mask v a) = length a.
Proof.
  revert v a. induction mask as [|b mask IH]; intros v [|x a]; cbn;
    try reflexivity.
  destruct b; [destruct v |]; cbn; now rewrite IH.
Qed.

Lemma imul_masked_length (a : list Q) (mask : list bool) (rhs c : list Q) :
  Np.imul_masked a mask rhs = inr c -> length c = length a.
Proof.
  unfold Np.imul_masked.
  destruct (length rhs =? length (Np.select mask a))%nat.
  - intros [= <-]. apply put_length.
  - destruct rhs as [|y [|? ?]]; try discriminate.
    intros [= <-]. apply put_length.
Qed.

(** The only error of the energy-based fit is numpy's broadcast error. *)
Lemma fit_coeffs_with_energies_error (strain : list (list Q))
      (energy volume : list Q) (rotations : list (list (list Q))) (e : exception) :
  _fit_coeffs_with_energies strain energy volume rotations = inl e ->
  e = BroadcastError.
Proof.
  unfold _fit_coeffs_with_energies, Np.imul_masked.
  destruct (_ =? _)%nat; [discriminate |].
  destruct (map _ (tl _)) as [|y [|? ?]]; try discriminate; now intros [= <-].
Qed.

Lemma symmetrize_6_6_symmetric (c : list Q) (i j : Z) :
  length c = 36%nat -> (0 <= i < 6)%Z -> (0 <= j < 6)%Z ->
  Np.get2 0 (symmetrize_6_6 c) i j == Np.get2 0 (symmetrize_6_6 c) j i.
Proof.
  intros E Hi Hj.
  do 36 (destruct c as [|? c]; [discriminate E |]).
  destruct c; [clear E | discriminate E].
  assert (Ei : (i = 0 \/ i = 1 \/ i = 2 \/ i = 3 \/ i = 4 \/ i = 5)%Z) by lia.
  assert (Ej : (j = 0 \/ j = 1 \/ j = 2 \/ j = 3 \/ j = 4 \/ j = 5)%Z) by lia.
  destruct Ei as [-> | [-> | [-> | [-> | [-> | ->]]]]];
    destruct Ej as [-> | [-> | [-> | [-> | [-> | ->]]]]].
  all: cbv -[Qplus Qmult Qeq].
  all: ring.
Qed.

(** A successful energy-based fit returns the symmetrization of 36
    numbers. *)
Lemma fit_coeffs_with_energies_inr (strain : list (list Q))
      (energy volume : list Q) (rotations : list (list (list Q)))
      (coeff : list (list Q)) (score : Q) :
  _fit_coeffs_with_energies strain energy volume rotations = inr (coeff, score) ->
  exists c, length c = 36%nat /\ coeff = symmetrize_6_6 c.
Proof.
  unfold _fit_coeffs_with_energies. cbv zeta.
  match goal with
  | |- context [Np.imul_masked ?a ?b ?c] =>
      pose proof (imul_masked_length a b c) as L;
      destruct (Np.imul_masked a b c) as [e | c']
  end; intros Heq.
  - discriminate Heq.
  - exists c'. split; [exact (L c' eq_refl) |].
    pose proof (f_equal (fun r : exception + (list (list Q) * Q) =>
                           match r with inr p => fst p | inl _ => [] end) Heq)
      as Hc.
    cbv beta iota in Hc. cbn [fst] in Hc. symmetry. exact Hc.
Qed.

(** *** The branches of [calc_elastic_tensor] *)

Lemma calc_elastic_tensor_no_strain stress energy volume rotations return_score :
  calc_elastic_tensor [] stress energy volume rotations return_score
  = inl InsufficientData.
Proof. reflexivity. Qed.

Lemma calc_elastic_tensor_stress_path
      strain stress st energy volume rotations return_score :
  strain <> [] -> stress = Some st ->
  takes_stress_path strain stress rotations = true ->
  calc_elastic_tensor strain stress energy volume rotations return_score
  = let rots := reduce_rotations rotations in
    let fit := _fit_coeffs_with_stress (augment_strain rots strain) st rots in
    inr (fst fit, if return_score then Some (StressScore (snd fit)) else None).
Proof.
  intros Hne -> Hp. unfold calc_elastic_tensor, takes_stress_path in *.
  destruct strain as [|s strain']; [contradiction |].
  cbn [length Nat.eqb]. cbv zeta. rewrite Hp.
  now destruct (_fit_coeffs_with_stress _ _ _).
Qed.

Lemma calc_elastic_tensor_energy_path
      strain stress energy en volume vol rotations return_score :
  strain <> [] -> energy = Some en -> volume = Some vol ->
  takes_stress_path strain stress rotations = false ->
  energy_data_fits strain energy volume rotations = true ->
  calc_elastic_tensor strain stress energy volume rotations return_score
  = let rots := reduce_rotations rotations in
    match _fit_coeffs_with_energies (augment_strain rots strain) en vol rots with
    | inl e => inl e
    | inr (coeff, score) =>
        inr (coeff, if return_score then Some (EnergyScore score) else None)
    end.
Proof.
  intros Hne -> -> Hp He.
  unfold calc_elastic_tensor, takes_stress_path, energy_data_fits in *.
  destruct strain as [|s strain']; [contradiction |].
  cbn [length Nat.eqb]. cbv zeta. rewrite He.
  destruct stress as [st |]; [rewrite Hp |]; reflexivity.
Qed.

Lemma calc_elastic_tensor_mismatch
      strain stress energy volume rotations return_score :
  strain <> [] ->
  takes_stress_path strain stress rotations = false ->
  energy_data_fits strain energy volume rotations = false ->
  calc_elastic_tensor strain stress energy volume rotations return_score
  = inl InputMismatch.
Proof.
  intros Hne Hp He.
  unfold calc_elastic_tensor, takes_stress_path, energy_data_fits in *.
  destruct strain as [|s strain']; [contradiction |].
  cbn [length Nat.eqb]. cbv zeta.
  assert (Hen : match energy, volume with
                | Some energy0, Some volume0 =>
                    if ((length energy0 * length (reduce_rotations rotations)
                         =? length (augment_strain (reduce_rotations rotations)
                                      (s :: strain')))%nat
                        && (length energy0 =? length volume0)%nat)%bool
                    then
                      match _fit_coeffs_with_energies
                              (augment_strain (reduce_rotations rotations)
                                 (s :: strain'))
                              energy0 volume0 (reduce_rotations rotations) with
                      | inl e => inl e
                      | inr (coeff, score) =>
                          inr (coeff,
                               if return_score then Some (EnergyScore score)
                               else None)
                      end
                    else inl InputMismatch
                | _, _ => inl InputMismatch
                end = (inl InputMismatch
                        : exception + (list (list Q) * option fit_score))).
  { destruct energy as [en |], volume as [vol |]; try reflexivity.
    now rewrite He. }
  destruct stress as [st |]; [rewrite Hp |]; exact Hen.
Qed.
End EnergyFitFacts.

(** The energy-based fit succeeds exactly when the regression returns,
    besides the coefficient of the constant column, 21 coefficients or
    a single one: one per upper-triangle entry, or one that numpy
    broadcasts to all of them. *)
Lemma fit_coeffs_with_energies_succeeds_iff `{External}
      (strain : list (list Q)) (energy volume : list Q)
      (rotations : list (list (list Q))) :
  let C := snd (energy_design_matrix strain
                  (Np.tile volume (length rotations))) in
  let reg := LinearRegression_fit C (Np.tile energy (length rotations)) in
  (exists r, _fit_coeffs_with_energies strain energy volume rotations = inr r)
  <-> (length (tl (coef_ reg)) = 21 \/ length (tl (coef_ reg)) = 1)%nat.
Proof.
  intros C reg. unfold _fit_coeffs_with_energies, Np.imul_masked. cbv zeta.
  fold C. fold reg. rewrite length_map.
  change (length (Np.select _ _)) with 21%nat.
  destruct (length (tl (coef_ reg)) =? 21)%nat eqn:E21.
  - apply Nat.eqb_eq in E21. split; [now left | eexists; reflexivity].
  - apply Nat.eqb_neq in E21.
    destruct (tl (coef_ reg)) as [|y [|y' t]]; cbn [map length] in *.
    + split; [intros [r Hr]; discriminate Hr | lia].
    + split; [now right | eexists; reflexivity].
    + split; [intros [r Hr]; discriminate Hr | lia].
Qed.

(** ** Least-squares solutions on the example designs

    What the normal equations force on two small designs, whatever the
    regression routine. *)

Section ExampleDesigns.
Local Open Scope Q_scope.

Ltac normal_equations_length Hn c :=
  let Hl := fresh "Hl" in
  assert (Hl : length c = 6%nat);
  [ unfold normal_equations in Hn; cbn [forallb length] in Hn;
    apply andb_prop in Hn as [Hn _]; apply andb_prop in Hn as [Hn _];
    apply andb_prop in Hn as [Hn _]; apply Nat.eqb_eq in Hn; now symmetry
  | do 6 (destruct c as [|? c]; [discriminate Hl |]);
    destruct c; [clear Hl | discriminate Hl] ].

Lemma augment_strain_x_x2 :
  augment_strain [Np.eye3] [uniaxial_x 1; uniaxial_x 2] = design_x_x2.
Proof. vm_compute. reflexivity. Qed.

Lemma augment_strain_x_y_0 :
  augment_strain [Np.eye3] [uniaxial_x 1; uniaxial_y 1; zeros3] = design_x_y_0.
Proof. vm_compute. reflexivity. Qed.

(** Strains [e_xx = 1, 2], stress [s_xx = 1, 1]: a least-squares fit with
    intercept has the coefficient 0 for [e_xx] and is not a
    least-squares fit without intercept. *)
Lemma constant_stress_needs_intercept (c : list Q) (b : Q) :
  normal_equations design_x_x2 [1; 1] c b = true ->
  nth 0 c 0 == 0 /\ ~ least_squares_without_intercept design_x_x2 [1; 1] c.
Proof.
  intros Hn. pose proof Hn as Hn'.
  normal_equations_length Hn' c.
  unfold normal_equations in Hn.
  apply andb_prop in Hn as [Hn Hm]. apply andb_prop in Hn as [_ Hs].
  apply Qeq_bool_iff in Hs.
  cbv -[Qplus Qmult Qminus Qeq Qeq_bool andb] in Hm, Hs.
  apply andb_prop in Hm as [Hm _]. apply Qeq_bool_iff in Hm.
  assert (Hq : q == 0) by Lqa.lra.
  split; [exact Hq |].
  intros Hls.
  specialize (Hls [3 # 5; q0; q1; q2; q3; q4] eq_refl).
  cbv -[Qplus Qmult Qminus Qle] in Hls.
  Lqa.nra.
Qed.

(** Strains [e_xx = 1], [e_yy = 1] and none: the normal equations fix
    the coefficients of [e_xx] and [e_yy]. *)
Lemma design_x_y_0_coefficients (y0 y1 y2 : Q) (c : list Q) (b : Q) :
  normal_equations design_x_y_0 [y0; y1; y2] c b = true ->
  nth 0 c 0 == y0 - y2 /\ nth 1 c 0 == y1 - y2.
Proof.
  intros Hn. pose proof Hn as Hn'.
  normal_equations_length Hn' c.
  unfold normal_equations in Hn.
  apply andb_prop in Hn as [Hn Hm]. apply andb_prop in Hn as [_ Hs].
  apply Qeq_bool_iff in Hs.
  cbv -[Qplus Qmult Qminus Qeq Qeq_bool andb] in Hm, Hs.
  apply andb_prop in Hm as [Hm0 Hm]. apply Qeq_bool_iff in Hm0.
  apply andb_prop in Hm as [Hm1 _]. apply Qeq_bool_iff in Hm1.
  cbn [nth]. split; Lqa.lra.
Qed.
End ExampleDesigns.

(** Whatever regression the library provides, if it returns
    least-squares solutions with intercept on the three samples
    [e_xx = 1 -> s_yy = 1], [e_yy = 1 -> 0], [0 -> 0], the stress-based
    fit returns [C[1,0] = 1] and [C[0,1] = 0]. *)
Lemma stress_fit_asymmetric_for_least_squares `{External} :
  let strain := [uniaxial_x 1; uniaxial_y 1; zeros3] in
  let stress := [uniaxial_y 1; zeros3; zeros3] in
  let X := augment_strain [Np.eye3] strain in
  let Y := augment_stress [Np.eye3] stress in
  (forall i, 0 <= i < 6 ->
     normal_equations X (column i Y)
       (coef_ (LinearRegression_fit X (column i Y)))
       (intercept_ (LinearRegression_fit X (column i Y))) = true) ->
  exists C,
    calc_elastic_tensor strain (Some stress) None None None false
    = inr (C, None)
    /\ (Np.get2 0 C 1 0 == 1)%Q /\ (Np.get2 0 C 0 1 == 0)%Q.
Proof.
  intros strain stress X Y Hfit.
  eexists. split.
  - apply (calc_elastic_tensor_stress_path strain (Some stress) stress);
      [discriminate | reflexivity | reflexivity].
  - cbv zeta. cbn [fst reduce_rotations].
    fold X. unfold _fit_coeffs_with_stress. cbn [fst]. fold Y.
    pose proof (Hfit 1 ltac:(lia)) as H1.
    pose proof (Hfit 0 ltac:(lia)) as H0.
    change (Np.get2 0%Q (map fst (map (fun ii =>
              (coef_ (LinearRegression_fit X (column ii Y)),
               LinearRegression_score (LinearRegression_fit X (column ii Y))
                 X (column ii Y))) (Np.range 6))) 1 0)
      with (nth 0 (coef_ (LinearRegression_fit X (column 1 Y))) 0%Q).
    change (Np.get2 0%Q (map fst (map (fun ii =>
              (coef_ (LinearRegression_fit X (column ii Y)),
               LinearRegression_score (LinearRegression_fit X (column ii Y))
                 X (column ii Y))) (Np.range 6))) 0 1)
      with (nth 1 (coef_ (LinearRegression_fit X (column 0 Y))) 0%Q).
    assert (EX : X = design_x_y_0) by apply augment_strain_x_y_0.
    assert (E1 : column 1 Y = [1; 0; 0]%Q) by (vm_compute; reflexivity).
    assert (E0 : column 0 Y = [0; 0; 0]%Q) by (vm_compute; reflexivity).
    rewrite EX, E1 in H1 |- *. rewrite E0 in H0 |- *. rewrite EX in H0.
    apply design_x_y_0_coefficients in H1 as [H1 _].
    apply design_x_y_0_coefficients in H0 as [_ H0].
    split; [rewrite H1 | rewrite H0]; reflexivity.
Qed.

(** ** Symmetry of the fitted tensor *)

(** C1 (amended): a successful call that takes the energy-based fit
    returns a symmetric tensor, [C[i,j] == C[j,i]] for all [i, j] in
    0..5. *)
Theorem energy_fit_tensor_symmetric `{External}
        strain stress energy volume rotations return_score C score (i j : Z) :
  calc_elastic_tensor strain stress energy volume rotations return_score
  = inr (C, score) ->
  takes_stress_path strain stress rotations = false ->
  0 <= i < 6 -> 0 <= j < 6 ->
  (Np.get2 0 C i j == Np.get2 0 C j i)%Q.
Proof.
  intros Hcalc Hp Hi Hj.
  destruct strain as [|s strain'] eqn:Es; [discriminate Hcalc |].
  assert (Hne : s :: strain' <> []) by discriminate.
  destruct (energy_data_fits (s :: strain') energy volume rotations) eqn:He.
  - assert (Hev : exists en vol, energy = Some en /\ volume = Some vol).
    { unfold energy_data_fits in He.
      destruct energy as [en |], volume as [vol |]; try discriminate He.
      now exists en, vol. }
    destruct Hev as (en & vol & Een & Evol).
    rewrite (calc_elastic_tensor_energy_path _ _ _ en _ vol _ _ Hne Een Evol Hp He)
      in Hcalc.
    cbv zeta in Hcalc.
    destruct (_fit_coeffs_with_energies _ _ _ _) as [e | [coeff sc]] eqn:Efit;
      [discriminate Hcalc |].
    assert (EC : coeff = C) by congruence. subst coeff.
    destruct (fit_coeffs_with_energies_inr _ _ _ _ _ _ Efit) as (c & Hlen & ->).
    now apply symmetrize_6_6_symmetric.
  - rewrite (calc_elastic_tensor_mismatch _ _ _ _ _ _ Hne Hp He) in Hcalc.
    discriminate Hcalc.
Qed.

(** C1, as stated, fails on the stress-based path: for three strains
    and stresses the returned tensor has [C[1,0] = 1] and [C[0,1] = 0]. *)
Lemma stress_fit_tensor_not_symmetric :
  calc_elastic_tensor [uniaxial_x 1; uniaxial_y 1; zeros3]
    (Some [uniaxial_y 1; zeros3; zeros3]) None None None false
  = inr ([[0; 0; 0; 0; 0; 0]; [1; 0; 0; 0; 0; 0]; [0; 0; 0; 0; 0; 0];
          [0; 0; 0; 0; 0; 0]; [0; 0; 0; 0; 0; 0]; [0; 0; 0; 0; 0; 0]]%Q, None)
  /\ ~ (forall C score,
          calc_elastic_tensor [uniaxial_x 1; uniaxial_y 1; zeros3]
            (Some [uniaxial_y 1; zeros3; zeros3]) None None None false
          = inr (C, score) ->
          forall i j, 0 <= i < 6 -> 0 <= j < 6 ->
                      (Np.get2 0 C i j == Np.get2 0 C j i)%Q).
Proof.
  assert (E : calc_elastic_tensor [uniaxial_x 1; uniaxial_y 1; zeros3]
                (Some [uniaxial_y 1; zeros3; zeros3]) None None None false
              = inr ([[0; 0; 0; 0; 0; 0]; [1; 0; 0; 0; 0; 0]; [0; 0; 0; 0; 0; 0];
                      [0; 0; 0; 0; 0; 0]; [0; 0; 0; 0; 0; 0]; [0; 0; 0; 0; 0; 0]]%Q,
                     None))
    by (vm_compute; reflexivity).
  split; [exact E |].
  intros Hsym. specialize (Hsym _ _ E 1 0).
  assert (Hq : (1 == 0)%Q) by (apply Hsym; lia).
  discriminate Hq.
Qed.

Lemma energy_fit_tensor_symmetric_witness :
  exists C score,
    calc_elastic_tensor [all_ones3 1; all_ones3 2] None
      (Some [1; 4]%Q) (Some [2; 2]%Q) None true = inr (C, score)
    /\ (Np.get2 0 C 0 3 == Np.get2 0 C 3 0)%Q.
Proof.
  destruct (calc_elastic_tensor [all_ones3 1; all_ones3 2] None
              (Some [1; 4]%Q) (Some [2; 2]%Q) None true)
    as [e | [C score]] eqn:E; [vm_compute in E; discriminate E |].
  exists C, score. split; [reflexivity |].
  apply (energy_fit_tensor_symmetric
           [all_ones3 1; all_ones3 2] None (Some [1; 4]%Q) (Some [2; 2]%Q)
           None true C score 0 3 E); [reflexivity | lia | lia].
Defined.

(** ** The regression of the model solves the least-squares problem *)

Lemma einsum_rotate_samples_length (rotations x : list (list (list Q))) :
  length (Np.einsum_rotate_samples rotations x)
  = (length rotations * length x)%nat.
Proof.
  unfold Np.einsum_rotate_samples.
  induction rotations as [|r t IH]; cbn [flat_map length]; [reflexivity |].
  rewrite length_app, length_map, IH. cbn. reflexivity.
Qed.

(** ** Finite sums *)

Section Sums.
Local Open Scope Q_scope.

Lemma qsum_ext (f g : nat -> Q) (n : nat) :
  (forall k, (k < n)%nat -> f k == g k) -> qsum f n == qsum g n.
Proof.
  induction n as [|n IH]; intros H; cbn [qsum]; [reflexivity |].
  rewrite IH by (intros k Hk; apply H; lia). rewrite (H n) by lia. reflexivity.
Qed.

Lemma qsum_zero (f : nat -> Q) (n : nat) :
  (forall k, (k < n)%nat -> f k == 0) -> qsum f n == 0.
Proof.
  induction n as [|n IH]; intros H; cbn [qsum]; [reflexivity |].
  rewrite IH by (intros k Hk; apply H; lia). rewrite (H n) by lia. ring.
Qed.

Lemma qsum_plus (f g : nat -> Q) (n : nat) :
  qsum (fun k => f k + g k) n == qsum f n + qsum g n.
Proof. induction n as [|n IH]; cbn [qsum]; [ring | rewrite IH; ring]. Qed.

Lemma qsum_minus (f g : nat -> Q) (n : nat) :
  qsum (fun k => f k - g k) n == qsum f n - qsum g n.
Proof. induction n as [|n IH]; cbn [qsum]; [ring | rewrite IH; ring]. Qed.

Lemma qsum_scale (a : Q) (f : nat -> Q) (n : nat) :
  qsum (fun k => a * f k) n == a * qsum f n.
Proof. induction n as [|n IH]; cbn [qsum]; [ring | rewrite IH; ring]. Qed.

Lemma qsum_scale_r (a : Q) (f : nat -> Q) (n : nat) :
  qsum (fun k => f k * a) n == qsum f n * a.
Proof. induction n as [|n IH]; cbn [qsum]; [ring | rewrite IH; ring]. Qed.

Lemma qsum_const (a : Q) (n : nat) :
  qsum (fun _ => a) n == inject_Z (Z.of_nat n) * a.
Proof.
  induction n as [|n IH]; cbn [qsum]; [ring |].
  rewrite IH, Nat2Z.inj_succ. unfold Z.succ. rewrite inject_Z_plus. ring.
Qed.

Lemma qsum_exchange (f : nat -> nat -> Q) (n m : nat) :
  qsum (fun i => qsum (fun j => f i j) m) n
  == qsum (fun j => qsum (fun i => f i j) n) m.
Proof.
  induction n as [|n IH]; cbn [qsum].
  - symmetry. apply qsum_zero. reflexivity.
  - rewrite IH, <- qsum_plus. reflexivity.
Qed.

(** More terms, all of them zero. *)
Lemma qsum_more (f : nat -> Q) (n m : nat) :
  (n <= m)%nat -> (forall k, (n <= k < m)%nat -> f k == 0) ->
  qsum f m == qsum f n.
Proof.
  intros Hnm. induction m as [|m IH]; intros H.
  - now replace n with O by lia.
  - destruct (Nat.eq_dec n (S m)) as [-> | Hne]; [reflexivity |].
    cbn [qsum]. rewrite IH by (try lia; intros k Hk; apply H; lia).
    rewrite (H m) by lia. ring.
Qed.

Lemma qsum_single (f : nat -> Q) (n j : nat) :
  (j < n)%nat -> (forall k, (k < n)%nat -> k <> j -> f k == 0) ->
  qsum f n == f j.
Proof.
  induction n as [|n IH]; intros Hj H; [lia |]. cbn [qsum].
  destruct (Nat.eq_dec j n) as [-> | Hne].
  - rewrite qsum_zero by (intros k Hk; apply H; lia). ring.
  - rewrite IH by (try lia; intros k Hk Hkj; apply H; lia).
    rewrite (H n) by lia. ring.
Qed.

Lemma qsum_squares_zero (f : nat -> Q) (n : nat) :
  qsum (fun k => f k * f k) n == 0 -> forall k, (k < n)%nat -> f k == 0.
Proof.
  assert (Hnn : forall m, 0 <= qsum (fun k => f k * f k) m).
  { induction m as [|m IH]; cbn [qsum]; [apply Qle_refl |].
    assert (0 <= f m * f m) by Lqa.nra. Lqa.lra. }
  induction n as [|n IH]; intros H k Hk; [lia |]. cbn [qsum] in H.
  pose proof (Hnn n) as H1. assert (H2 : 0 <= f n * f n) by Lqa.nra.
  destruct (Nat.eq_dec k n) as [-> | Hne].
  - assert (E : f n * f n == 0) by Lqa.lra.
    apply Qmult_integral in E. now destruct E.
  - apply IH; [Lqa.lra | lia].
Qed.

(** The scalar product of two lists as a sum over indices. *)
Lemma qdot_qsum (u v : list Q) (n : nat) :
  (Nat.min (length u) (length v) <= n)%nat ->
  qdot u v == qsum (fun k => nth k u 0 * nth k v 0) n.
Proof.
  revert v n. induction u as [|a u IH]; intros v n Hn.
  - cbn. symmetry. apply qsum_zero. intros k _. destruct k; cbn; ring.
  - destruct v as [|b v].
    + cbn. symmetry. apply qsum_zero. intros k _. destruct k; cbn; ring.
    + destruct n as [|n]; [cbn in Hn; lia |].
      cbn [qdot combine fold_right]. fold (qdot u v).
      rewrite (IH v n) by (cbn in Hn; lia).
      clear. induction n as [|n IH]; cbn [qsum nth]; [ring |].
      cbn [qsum nth] in IH. rewrite <- IH. ring.
Qed.

Lemma Sk_dot_qdot (u v : list Q) : Sk.dot u v == qdot u v.
Proof.
  unfold Sk.dot, qdot. induction (combine u v) as [|[x y] l IH];
    cbn [fold_right]; [reflexivity |].
  rewrite Qred_correct, IH. reflexivity.
Qed.

Lemma Sk_sum_qsum (v : list Q) :
  Sk.sum v == qsum (fun k => nth k v 0) (length v).
Proof.
  unfold Sk.sum. induction v as [|a v IH]; cbn [fold_right length];
    [reflexivity |].
  rewrite Qred_correct, IH. clear.
  induction (length v) as [|n IH]; cbn [qsum nth]; [ring |].
  cbn [qsum nth] in IH. rewrite <- IH. ring.
Qed.
End Sums.

(** ** The normal equations have a solution *)

Section Projection.
Local Open Scope Q_scope.
Variable n : nat.

(** [sum_i g i * (sum_k c k * a k i) = sum_k c k * (sum_i g i * a k i)] *)
Lemma qsum_combination (g c : nat -> Q) (a : nat -> nat -> Q) (p : nat) :
  qsum (fun i => g i * qsum (fun k => c k * a k i) p) n
  == qsum (fun k => c k * qsum (fun i => g i * a k i) n) p.
Proof.
  rewrite (qsum_ext _ (fun i => qsum (fun k => g i * (c k * a k i)) p))
    by (intros i _; now rewrite qsum_scale).
  rewrite qsum_exchange. apply qsum_ext. intros k _.
  rewrite <- qsum_scale. apply qsum_ext. intros i _. ring.
Qed.

(** Gram-Schmidt, one column at a time: for [p] vectors [a 0], ...,
    [a (p - 1)] and a vector [b] there are coefficients [c] such that
    [b - sum_k c k * a k] is orthogonal to every [a j]. *)
Lemma projection (a : nat -> nat -> Q) (p : nat) :
  forall b : nat -> Q,
  exists c : nat -> Q,
    forall j, (j < p)%nat ->
      qsum (fun i => a j i * (b i - qsum (fun k => c k * a k i) p)) n == 0.
Proof.
  induction p as [|p IH]; intros b.
  - exists (fun _ => 0). intros j Hj. lia.
  - destruct (IH (a p)) as [c1 H1']. destruct (IH b) as [c2 H2'].
    set (r1 := fun i => a p i - qsum (fun k => c1 k * a k i) p).
    set (r2 := fun i => b i - qsum (fun k => c2 k * a k i) p).
    assert (H1 : forall j, (j < p)%nat ->
                 qsum (fun i => a j i * r1 i) n == 0) by exact H1'.
    assert (H2 : forall j, (j < p)%nat ->
                 qsum (fun i => a j i * r2 i) n == 0) by exact H2'.
    clear H1' H2'.
    (* a vector orthogonal to the first p columns is orthogonal to
       their combinations *)
    assert (Hcomb : forall (r c : nat -> Q),
               (forall j, (j < p)%nat -> qsum (fun i => a j i * r i) n == 0) ->
               qsum (fun i => r i * qsum (fun k => c k * a k i) p) n == 0).
    { intros r c Hr. rewrite qsum_combination. apply qsum_zero.
      intros k Hk.
      rewrite (qsum_ext _ (fun i => a k i * r i)) by (intros; ring).
      rewrite (Hr k Hk). ring. }
    assert (Hap : forall r,
               (forall j, (j < p)%nat -> qsum (fun i => a j i * r i) n == 0) ->
               qsum (fun i => a p i * r i) n
               == qsum (fun i => r1 i * r i) n).
    { intros r Hr.
      rewrite (qsum_ext (fun i => a p i * r i)
                 (fun i => r1 i * r i
                           + r i * qsum (fun k => c1 k * a k i) p))
        by (intros i _; unfold r1; ring).
      rewrite qsum_plus, (Hcomb r c1 Hr). ring. }
    set (s := qsum (fun i => r1 i * r1 i) n).
    destruct (Qeq_dec s 0) as [Hs | Hs].
    + (* the new column is a combination of the others *)
      exists (fun k => if (k <? p)%nat then c2 k else 0).
      assert (Hres : forall i,
                 b i - qsum (fun k => (if (k <? p)%nat then c2 k else 0)
                                      * a k i) (S p)
                 == r2 i).
      { intros i. cbn [qsum]. rewrite Nat.ltb_irrefl. unfold r2.
        rewrite (qsum_ext _ (fun k => c2 k * a k i)).
        - ring.
        - intros k Hk. apply Nat.ltb_lt in Hk. now rewrite Hk. }
      intros j Hj.
      rewrite (qsum_ext _ (fun i => a j i * r2 i))
        by (intros i _; now rewrite Hres).
      destruct (Nat.eq_dec j p) as [-> | Hne]; [| apply H2; lia].
      rewrite (Hap r2 H2).
      apply qsum_zero. intros i Hi.
      rewrite (qsum_squares_zero r1 n Hs i Hi). ring.
    + set (t := qsum (fun i => r1 i * r2 i) n / s).
      exists (fun k => if (k <? p)%nat then c2 k - t * c1 k else t).
      assert (Hres : forall i,
                 b i - qsum (fun k => (if (k <? p)%nat
                                       then c2 k - t * c1 k else t)
                                      * a k i) (S p)
                 == r2 i - t * r1 i).
      { intros i. cbn [qsum]. rewrite Nat.ltb_irrefl. unfold r1, r2.
        rewrite (qsum_ext _ (fun k => c2 k * a k i - t * (c1 k * a k i))).
        - rewrite qsum_minus, qsum_scale. ring.
        - intros k Hk. apply Nat.ltb_lt in Hk. rewrite Hk. ring. }
      assert (Horth : forall j, (j < p)%nat ->
                 qsum (fun i => a j i * (r2 i - t * r1 i)) n == 0).
      { intros j Hj.
        rewrite (qsum_ext _ (fun i => a j i * r2 i - t * (a j i * r1 i)))
          by (intros; ring).
        rewrite qsum_minus, qsum_scale, (H1 j Hj), (H2 j Hj). ring. }
      intros j Hj.
      rewrite (qsum_ext _ (fun i => a j i * (r2 i - t * r1 i)))
        by (intros i _; now rewrite Hres).
      destruct (Nat.eq_dec j p) as [-> | Hne]; [| apply Horth; lia].
      rewrite (Hap _ Horth).
      rewrite (qsum_ext _ (fun i => r1 i * r2 i - t * (r1 i * r1 i)))
        by (intros; ring).
      rewrite qsum_minus, qsum_scale. fold s. unfold t. now field.
Qed.
End Projection.

(** For a symmetric [p x p] matrix [N] and a right-hand side [m] in its
    range, [N N z = m] has a solution. *)
Lemma squared_system_solvable (N : nat -> nat -> Q) (x0 : nat -> Q) (p : nat) :
  (forall i j, (N i j == N j i)%Q) ->
  exists z : nat -> Q,
    forall j, (j < p)%nat ->
      (qsum (fun l => qsum (fun k => N j k * N k l) p * z l) p
       == qsum (fun i => N j i * x0 i) p)%Q.
Proof.
  intros Hsym.
  destruct (projection p N p x0) as [z Hz].
  exists z. intros j Hj. specialize (Hz j Hj).
  rewrite (qsum_ext _ (fun i => (N j i * x0 i
                                 - N j i * qsum (fun k => z k * N k i) p)%Q))
    in Hz by (intros; ring).
  rewrite qsum_minus in Hz.
  assert (E : (qsum (fun i => N j i * qsum (fun k => z k * N k i) p) p
               == qsum (fun l => qsum (fun k => N j k * N k l) p * z l) p)%Q).
  { rewrite qsum_combination. apply qsum_ext. intros l _.
    rewrite Qmult_comm. apply Qmult_comp; [| reflexivity].
    apply qsum_ext. intros k _. now rewrite (Hsym l k). }
  rewrite E in Hz. Lqa.lra.
Qed.

(** ** Gauss-Jordan elimination *)

Section Elimination.
Local Open Scope Q_scope.

Lemma axpy_length (a : Q) (u v : list Q) :
  length u = length v -> length (Sk.axpy a u v) = length v.
Proof.
  intros H. unfold Sk.axpy. rewrite length_map, length_combine. lia.
Qed.

Lemma nth_axpy (a : Q) (u v : list Q) (k : nat) :
  length u = length v ->
  nth k (Sk.axpy a u v) 0 == nth k v 0 - a * nth k u 0.
Proof.
  unfold Sk.axpy. revert v k.
  induction u as [|x u IH]; intros [|y v] k H; try discriminate H.
  - destruct k; cbn; ring.
  - injection H as H. destruct k as [|k]; cbn [combine map nth].
    + apply Qred_correct.
    + now apply IH.
Qed.

Lemma qdot_axpy (a : Q) (u v w : list Q) :
  length u = length v ->
  qdot (Sk.axpy a u v) w == qdot v w - a * qdot u w.
Proof.
  unfold Sk.axpy. revert v w.
  induction u as [|x u IH]; intros [|y v] w H; try discriminate H.
  - cbn. ring.
  - injection H as H. destruct w as [|z w]; [cbn; ring |].
    cbn [combine map qdot fold_right].
    fold (qdot (map (fun '(x0, y0) => Qred (y0 - a * x0)) (combine u v)) w).
    fold (qdot v w). fold (qdot u w).
    rewrite (IH v w H), Qred_correct. ring.
Qed.

Lemma nth_divide (d : Q) (r : list Q) (k : nat) :
  nth k (map (fun x => Qred (x / d)) r) 0 == nth k r 0 / d.
Proof.
  revert k. induction r as [|x r IH]; intros [|k]; cbn [map nth];
    try (unfold Qdiv; ring); [apply Qred_correct | apply IH].
Qed.

Lemma qdot_divide (d : Q) (r w : list Q) :
  qdot (map (fun x => Qred (x / d)) r) w == qdot r w / d.
Proof.
  revert w. induction r as [|x r IH]; intros [|z w];
    try (cbn; unfold Qdiv; ring).
  cbn [map combine qdot fold_right].
  fold (qdot (map (fun x0 => Qred (x0 / d)) r) w). fold (qdot r w).
  rewrite IH, Qred_correct. unfold Qdiv. ring.
Qed.

Lemma find_pivot_some (j : nat) (rows : list (list Q)) piv others :
  Sk.find_pivot j rows = Some (piv, others) ->
  Permutation rows (piv :: others) /\ ~ nth j piv 0 == 0.
Proof.
  revert piv others. induction rows as [|r rows IH]; intros piv others;
    cbn [Sk.find_pivot]; [discriminate |].
  destruct (Qeq_bool (nth j r 0) 0) eqn:E.
  - destruct (Sk.find_pivot j rows) as [[p' o'] |]; [| discriminate].
    intros [= <- <-]. destruct (IH p' o' eq_refl) as [HP Hnz].
    split; [| exact Hnz].
    rewrite HP. apply perm_swap.
  - intros [= <- <-]. split; [reflexivity |].
    intros Hz. apply Qeq_bool_iff in Hz. congruence.
Qed.

Lemma find_pivot_none (j : nat) (rows : list (list Q)) :
  Sk.find_pivot j rows = None -> forall r, In r rows -> nth j r 0 == 0.
Proof.
  induction rows as [|r rows IH]; cbn [Sk.find_pivot]; [intros _ ? [] |].
  destruct (Qeq_bool (nth j r 0) 0) eqn:E; [| discriminate].
  destruct (Sk.find_pivot j rows) as [[p' o'] |]; [discriminate |].
  intros _ r' [<- | Hin]; [now apply Qeq_bool_iff | now apply IH].
Qed.

(** One step with a pivot: the state and the solutions are kept. *)
Lemma elimination_step (p j : nat) processed done todo piv rest :
  elimination_state p processed done todo ->
  ~ In j processed ->
  Permutation todo (piv :: rest) -> ~ nth j piv 0 == 0 ->
  let piv' := map (fun x => Qred (x / nth j piv 0)) piv in
  let clear r := Sk.axpy (nth j r 0) piv' r in
  elimination_state p (j :: processed)
    ((j, piv') :: map (fun '(c, r) => (c, clear r)) done) (map clear rest)
  /\ forall w,
       equations_hold w (map snd done ++ todo)
       <-> equations_hold w
             (map snd ((j, piv') :: map (fun '(c, r) => (c, clear r)) done)
              ++ map clear rest).
Proof.
  intros (Hd1 & Hd2 & Hd3 & Ht) Hj HP Hnz piv' clear.
  assert (Hpiv : In piv todo) by (rewrite HP; now left).
  destruct (Ht piv Hpiv) as [Lpiv Zpiv].
  assert (Lpiv' : length piv' = S p) by (unfold piv'; now rewrite length_map).
  assert (Epiv' : forall k, nth k piv' 0 == nth k piv 0 / nth j piv 0)
    by (intros k; apply nth_divide).
  assert (Jpiv' : nth j piv' 0 == 1) by (rewrite Epiv'; now field).
  assert (Zpiv' : forall k, In k processed -> nth k piv' 0 == 0).
  { intros k Hk. rewrite Epiv', (Zpiv k Hk). now field. }
  assert (Eclear : forall r k, length r = S p ->
             nth k (clear r) 0 == nth k r 0 - nth j r 0 * nth k piv' 0).
  { intros r k Lr. unfold clear. apply nth_axpy. congruence. }
  assert (Lclear : forall r, length r = S p -> length (clear r) = S p).
  { intros r Lr. unfold clear. rewrite axpy_length; congruence. }
  assert (Hrest : forall r, In r rest -> In r todo)
    by (intros r Hr; rewrite HP; now right).
  assert (Hdone' : forall c r,
             In (c, r) (map (fun '(c, r) => (c, clear r)) done) ->
             exists r0, In (c, r0) done /\ r = clear r0).
  { intros c r Hin. apply in_map_iff in Hin as ([c0 r0] & [= <- <-] & Hin).
    now exists r0. }
  assert (Hcj : forall c r, In (c, r) done -> c <> j).
  { intros c r Hin ->. apply Hj. now apply (Hd1 j r). }
  split.
  - (* the state *)
    repeat split.
    + destruct H as [[= <- <-] | Hin]; [now left |].
      apply Hdone' in Hin as (r0 & Hin & ->). right. now apply (Hd1 c r0).
    + destruct H as [[= <- <-] | Hin]; [exact Lpiv' |].
      apply Hdone' in Hin as (r0 & Hin & ->).
      apply Lclear. now apply (Hd1 c r0).
    + destruct H as [[= <- <-] | Hin]; [exact Jpiv' |].
      apply Hdone' in Hin as (r0 & Hin & ->).
      destruct (Hd1 c r0 Hin) as (Hc & Lr0 & Er0).
      rewrite (Eclear r0 c Lr0), Er0, (Zpiv' c Hc). ring.
    + intros c r c' r' Hin Hin' Hne.
      destruct Hin as [[= <- <-] | Hin]; destruct Hin' as [[= <- <-] | Hin'].
      * contradiction.
      * apply Hdone' in Hin' as (r0 & Hin' & ->).
        destruct (Hd1 c' r0 Hin') as (_ & Lr0 & _).
        rewrite (Eclear r0 j Lr0), Jpiv'. ring.
      * apply Hdone' in Hin as (r0 & Hin & ->).
        apply Zpiv'. now apply (Hd1 c r0).
      * apply Hdone' in Hin as (r0 & Hin & ->).
        apply Hdone' in Hin' as (r0' & Hin' & ->).
        destruct (Hd1 c r0 Hin) as (Hc & _ & _).
        destruct (Hd1 c' r0' Hin') as (_ & Lr0' & _).
        rewrite (Eclear r0' c Lr0'), (Hd2 c r0 c' r0' Hin Hin' Hne),
          (Zpiv' c Hc). ring.
    + cbn [map fst]. constructor.
      * intros Hin. apply in_map_iff in Hin as ([c r] & Hc & Hin).
        cbn in Hc. subst c.
        apply Hdone' in Hin as (r0 & Hin & _). now apply (Hcj j r0).
      * rewrite map_map.
        rewrite (map_ext _ fst) by (now intros [c r]). exact Hd3.
    + apply in_map_iff in H as (r0 & <- & Hin).
      apply Lclear. now apply Ht, Hrest.
    + intros k Hk. apply in_map_iff in H as (r0 & <- & Hin).
      destruct (Ht r0 (Hrest r0 Hin)) as [Lr0 Zr0].
      rewrite (Eclear r0 k Lr0).
      destruct Hk as [<- | Hk]; [rewrite Jpiv'; ring |].
      rewrite (Zr0 k Hk), (Zpiv' k Hk). ring.
  - (* the solutions *)
    intros w.
    assert (Qpiv' : qdot piv' w == qdot piv w / nth j piv 0)
      by apply qdot_divide.
    assert (Qclear : forall r, length r = S p ->
               qdot (clear r) w == qdot r w - nth j r 0 * qdot piv' w).
    { intros r Lr. unfold clear. apply qdot_axpy. congruence. }
    unfold equations_hold. split.
    + intros H r Hin.
      assert (Hz : qdot piv' w == 0).
      { rewrite Qpiv', (H piv) by (apply in_or_app; now right). now field. }
      cbn [map snd app] in Hin. destruct Hin as [<- | Hin]; [exact Hz |].
      apply in_app_or in Hin as [Hin | Hin].
      * rewrite map_map in Hin.
        apply in_map_iff in Hin as ([c r0] & <- & Hin). cbn [snd].
        rewrite Qclear by now apply (Hd1 c r0).
        rewrite Hz, (H r0); [ring |].
        apply in_or_app. left. apply in_map_iff. now exists (c, r0).
      * apply in_map_iff in Hin as (r0 & <- & Hin).
        rewrite Qclear by now apply Ht, Hrest.
        rewrite Hz, (H r0); [ring |].
        apply in_or_app. right. now apply Hrest.
    + intros H.
      assert (Hz : qdot piv' w == 0) by (apply H; now left).
      assert (Hp0 : qdot piv w == 0).
      { rewrite Qpiv' in Hz.
        setoid_replace (qdot piv w)
          with (qdot piv w / nth j piv 0 * nth j piv 0) by now field.
        rewrite Hz. ring. }
      intros r Hin. apply in_app_or in Hin as [Hin | Hin].
      * apply in_map_iff in Hin as ([c r0] & <- & Hin). cbn [snd].
        assert (Hc : qdot (clear r0) w == 0).
        { apply H. cbn [map snd app]. right. apply in_or_app. left.
          rewrite map_map. apply in_map_iff. now exists (c, r0). }
        rewrite Qclear in Hc by now apply (Hd1 c r0).
        rewrite Hz in Hc. Lqa.lra.
      * rewrite HP in Hin. destruct Hin as [<- | Hin]; [exact Hp0 |].
        assert (Hc : qdot (clear r) w == 0).
        { apply H. cbn [map snd app]. right. apply in_or_app. right.
          now apply in_map. }
        rewrite Qclear in Hc by now apply Ht, Hrest.
        rewrite Hz in Hc. Lqa.lra.
Qed.
End Elimination.

Section Solve.
Local Open Scope Q_scope.

(** The elimination over the columns [cols]: the state is kept and the
    equations keep their solutions. *)
Lemma gauss_jordan_spec (p : nat) (cols : list nat) :
  forall processed done todo,
    elimination_state p processed done todo ->
    (forall c, In c cols -> ~ In c processed) -> NoDup cols ->
    exists todo',
      elimination_state p (rev cols ++ processed)
        (Sk.gauss_jordan cols done todo) todo'
      /\ forall w,
           equations_hold w (map snd done ++ todo)
           <-> equations_hold w
                 (map snd (Sk.gauss_jordan cols done todo) ++ todo').
Proof.
  induction cols as [|j cols IH]; intros processed done todo Hst Hnew Hnd.
  - exists todo. split; [exact Hst | reflexivity].
  - inversion Hnd as [| ? ? Hj Hnd']; subst.
    assert (Hjp : ~ In j processed) by (apply Hnew; now left).
    assert (Hnew' : forall c, In c cols -> ~ In c (j :: processed)).
    { intros c Hc [<- | Hin]; [contradiction |].
      apply (Hnew c); [now right | exact Hin]. }
    cbn [Sk.gauss_jordan rev]. rewrite <- app_assoc. cbn [app].
    destruct (Sk.find_pivot j todo) as [[piv rest] |] eqn:Ef.
    + apply find_pivot_some in Ef as [HP Hnz].
      destruct (elimination_step p j processed done todo piv rest
                  Hst Hjp HP Hnz) as [Hst' Heq].
      cbv zeta in Hst', Heq.
      destruct (IH _ _ _ Hst' Hnew' Hnd') as (todo' & Hst'' & Heq').
      exists todo'. split; [exact Hst'' |].
      intros w. rewrite (Heq w). apply Heq'.
    + assert (Hst' : elimination_state p (j :: processed) done todo).
      { destruct Hst as (Hd1 & Hd2 & Hd3 & Ht). repeat split.
        - right. now apply (Hd1 c r).
        - now apply (Hd1 c r).
        - now apply (Hd1 c r).
        - exact Hd2.
        - exact Hd3.
        - now apply Ht.
        - intros k [<- | Hk]; [now apply (find_pivot_none j todo) |].
          now apply Ht. }
      apply (IH _ _ _ Hst' Hnew' Hnd').
Qed.

Lemma qdot_app (u u' v v' : list Q) :
  length u = length u' ->
  qdot (u ++ v) (u' ++ v') == qdot u u' + qdot v v'.
Proof.
  revert u'. induction u as [|x u IH]; intros [|y u'] H; try discriminate H.
  - cbn [app]. unfold qdot at 2. cbn. ring.
  - injection H as H. cbn [app qdot combine fold_right].
    fold (qdot (u ++ v) (u' ++ v')). fold (qdot u u').
    rewrite (IH u' H). ring.
Qed.

Lemma pivot_row_unique (done : list (nat * list Q)) (j : nat) (r r' : list Q) :
  NoDup (map fst done) -> In (j, r) done -> In (j, r') done -> r = r'.
Proof.
  induction done as [|[c r0] done IH]; intros Hnd Hin Hin'; [destruct Hin |].
  cbn [map fst] in Hnd. inversion Hnd as [| ? ? Hc Hnd']; subst.
  destruct Hin as [E | Hin]; destruct Hin' as [E' | Hin'].
  - congruence.
  - exfalso. apply Hc. apply in_map_iff. exists (j, r').
    split; [cbn; congruence | exact Hin'].
  - exfalso. apply Hc. apply in_map_iff. exists (j, r).
    split; [cbn; congruence | exact Hin].
  - now apply IH.
Qed.

Lemma nth_map_seq {A} (f : nat -> A) (d : A) (p k : nat) :
  (k < p)%nat -> nth k (map f (seq 0 p)) d = f k.
Proof.
  intros Hk. rewrite (nth_indep _ d (f O))
    by (rewrite length_map, length_seq; lia).
  rewrite map_nth, seq_nth by lia. reflexivity.
Qed.

(** [solve] on a system that has a solution returns one. *)
Lemma solve_correct (M : list (list Q)) (c z0 : list Q) :
  let p := Sk.n_features M in
  (forall row, In row M -> length row = p) ->
  length c = length M ->
  length z0 = p ->
  (forall row ci, In (row, ci) (combine M c) -> qdot row z0 == ci) ->
  length (Sk.solve M c) = p
  /\ forall row ci, In (row, ci) (combine M c) ->
       qdot row (Sk.solve M c) == ci.
Proof.
  intros p HM Hc Hz0 Hsol.
  unfold Sk.solve. fold p.
  set (rows := map (fun '(row, ci) => row ++ [ci]) (combine M c)).
  set (pivots := Sk.gauss_jordan (seq 0 p) [] rows).
  set (z := map _ (seq 0 p)).
  assert (Lz : length z = p) by (unfold z; now rewrite length_map, length_seq).
  split; [exact Lz |].
  assert (Hrows : forall r, In r rows ->
             exists row ci, In (row, ci) (combine M c) /\ r = row ++ [ci]).
  { intros r Hr. apply in_map_iff in Hr as ([row ci] & <- & Hin).
    now exists row, ci. }
  assert (Hst0 : elimination_state p [] [] rows).
  { repeat split; try (intros; contradiction).
    - constructor.
    - apply Hrows in H as (row & ci & Hin & ->).
      rewrite length_app. cbn. apply in_combine_l in Hin.
      rewrite (HM row Hin). lia. }
  destruct (gauss_jordan_spec p (seq 0 p) [] [] rows Hst0)
    as (todo' & (Hd1 & Hd2 & Hd3 & Ht) & Heq).
  { intros c0 _ []. }
  { apply seq_NoDup. }
  fold pivots in Hd1, Hd2, Hd3, Heq. cbn [map app] in Heq.
  rewrite app_nil_r in Hd1, Ht.
  assert (Hproc : forall k, (k < p)%nat -> In k (rev (seq 0 p))).
  { intros k Hk. apply -> in_rev. apply in_seq. lia. }
  (* the value at an equation: coefficients times unknowns minus the
     right-hand side *)
  assert (Hval : forall r (u : list Q), length r = S p -> length u = p ->
             qdot r (u ++ [-1])
             == qsum (fun k => nth k r 0 * nth k u 0) p - nth p r 0).
  { intros r u Lr Lu.
    rewrite (qdot_qsum r (u ++ [-1]) (S p))
      by (rewrite length_app; cbn; lia).
    cbn [qsum]. rewrite app_nth2 by lia. rewrite Lu, Nat.sub_diag. cbn [nth].
    rewrite (qsum_ext _ (fun k => nth k r 0 * nth k u 0)).
    - ring.
    - intros k Hk. rewrite app_nth1 by lia. reflexivity. }
  (* the given solution makes the right-hand sides of the rows left
     over zero *)
  assert (H0 : equations_hold (z0 ++ [-1]) rows).
  { intros r Hr. apply Hrows in Hr as (row & ci & Hin & ->).
    rewrite qdot_app by (rewrite Hz0; apply HM; now apply in_combine_l in Hin).
    rewrite (Hsol row ci Hin). cbn. ring. }
  apply Heq in H0.
  assert (Hrhs : forall r, In r todo' -> nth p r 0 == 0).
  { intros r Hr. destruct (Ht r Hr) as [Lr Zr].
    assert (E : qdot r (z0 ++ [-1]) == 0)
      by (apply H0; apply in_or_app; now right).
    rewrite (Hval r z0 Lr Hz0) in E.
    rewrite qsum_zero in E.
    - Lqa.lra.
    - intros k Hk. rewrite (Zr k (Hproc k Hk)). ring. }
  (* the unknowns read off the pivot rows *)
  assert (Hzk : forall k, (k < p)%nat ->
             nth k z 0
             = match find (fun '(c0, _) => (c0 =? k)%nat) pivots with
               | Some (_, r) => nth p r 0
               | None => 0
               end).
  { intros k Hk. unfold z. now rewrite nth_map_seq. }
  assert (Hz : equations_hold (z ++ [-1]) (map snd pivots ++ todo')).
  { intros r Hr. apply in_app_or in Hr as [Hr | Hr].
    - apply in_map_iff in Hr as ([j r0] & <- & Hin). cbn [snd].
      destruct (Hd1 j r0 Hin) as (Hj & Lr0 & Er0).
      assert (Hjp : (j < p)%nat).
      { apply in_rev in Hj. apply in_seq in Hj. lia. }
      rewrite (Hval r0 z Lr0 Lz).
      rewrite (qsum_single _ p j Hjp).
      + rewrite (Hzk j Hjp).
        destruct (find (fun '(c0, _) => (c0 =? j)%nat) pivots)
          as [[c1 r1] |] eqn:Ef.
        * apply find_some in Ef as [Hin1 E1]. apply Nat.eqb_eq in E1. subst c1.
          rewrite (pivot_row_unique pivots j r1 r0 Hd3 Hin1 Hin), Er0. ring.
        * exfalso.
          apply (find_none _ _ Ef) in Hin. cbn in Hin.
          now rewrite Nat.eqb_refl in Hin.
      + intros k Hk Hkj. rewrite (Hzk k Hk).
        destruct (find (fun '(c0, _) => (c0 =? k)%nat) pivots)
          as [[c1 r1] |] eqn:Ef; [| ring].
        apply find_some in Ef as [Hin1 E1]. apply Nat.eqb_eq in E1. subst c1.
        rewrite (Hd2 k r1 j r0 Hin1 Hin Hkj). ring.
    - destruct (Ht r Hr) as [Lr Zr].
      rewrite (Hval r z Lr Lz), (Hrhs r Hr).
      rewrite qsum_zero; [ring |].
      intros k Hk. rewrite (Zr k (Hproc k Hk)). ring. }
  apply Heq in Hz.
  intros row ci Hin.
  assert (E : qdot (row ++ [ci]) (z ++ [-1]) == 0).
  { apply Hz. unfold rows. apply in_map_iff. now exists (row, ci). }
  rewrite qdot_app in E
    by (rewrite Lz; apply HM; now apply in_combine_l in Hin).
  cbn in E. Lqa.lra.
Qed.
End Solve.

(** ** The least-squares solver *)

Section Lstsq.
Local Open Scope Q_scope.

Lemma nth_column (j : nat) (X : list (list Q)) (i : nat) :
  nth i (Sk.column j X) 0 = entry X i j.
Proof.
  unfold Sk.column, entry. revert i.
  induction X as [|row X IH]; intros i.
  - destruct i; destruct j; reflexivity.
  - destruct i; cbn [map nth]; [reflexivity | apply IH].
Qed.

Lemma column_length (j : nat) (X : list (list Q)) :
  length (Sk.column j X) = length X.
Proof. apply length_map. Qed.

Lemma dot_columns (X : list (list Q)) (j k : nat) :
  Sk.dot (Sk.column j X) (Sk.column k X)
  == qsum (fun i => entry X i j * entry X i k) (length X).
Proof.
  rewrite Sk_dot_qdot, (qdot_qsum _ _ (length X))
    by (rewrite !column_length; lia).
  apply qsum_ext. intros i _. now rewrite !nth_column.
Qed.

Lemma entry_gram (X : list (list Q)) (j k : nat) :
  (j < Sk.n_features X)%nat -> (k < Sk.n_features X)%nat ->
  entry (Sk.gram X) j k
  == qsum (fun i => entry X i j * entry X i k) (length X).
Proof.
  intros Hj Hk. unfold entry, Sk.gram. cbv zeta.
  rewrite (nth_map_seq _ [] _ j Hj), (nth_map_seq _ 0 _ k Hk).
  apply dot_columns.
Qed.

Lemma gram_rows (X : list (list Q)) :
  length (Sk.gram X) = Sk.n_features X
  /\ forall row, In row (Sk.gram X) -> length row = Sk.n_features X.
Proof.
  unfold Sk.gram. cbv zeta. split.
  - now rewrite length_map, length_seq.
  - intros row Hin. apply in_map_iff in Hin as (j & <- & _).
    now rewrite length_map, length_seq.
Qed.

Lemma n_features_square (N : list (list Q)) (p : nat) :
  length N = p -> (forall row, In row N -> length row = p) ->
  Sk.n_features N = p.
Proof.
  intros HN Hrows. destruct N as [|row N]; [exact HN |].
  cbn [Sk.n_features]. apply Hrows. now left.
Qed.

Lemma nth_moment (X : list (list Q)) (y : list Q) (j : nat) :
  (j < Sk.n_features X)%nat -> length y = length X ->
  nth j (Sk.moment X y) 0
  == qsum (fun i => entry X i j * nth i y 0) (length X).
Proof.
  intros Hj Hy. unfold Sk.moment. rewrite (nth_map_seq _ 0 _ j Hj).
  rewrite Sk_dot_qdot, (qdot_qsum _ _ (length X))
    by (rewrite column_length; lia).
  apply qsum_ext. intros i _. now rewrite nth_column.
Qed.

Lemma entry_matmul (M N : list (list Q)) (j l : nat) (p : nat) :
  (j < length M)%nat -> (l < Sk.n_features N)%nat ->
  length N = p -> (forall row, In row M -> length row = p) ->
  entry (Sk.matmul M N) j l
  == qsum (fun k => entry M j k * entry N k l) p.
Proof.
  intros Hj Hl HN HM. unfold entry at 1. unfold Sk.matmul.
  rewrite (nth_indep _ [] ((fun row => map (fun k => Sk.dot row (Sk.column k N))
                                          (seq 0 (Sk.n_features N))) []))
    by (now rewrite length_map).
  rewrite (map_nth (fun row => map (fun k => Sk.dot row (Sk.column k N))
                                   (seq 0 (Sk.n_features N)))).
  rewrite (nth_map_seq _ 0 _ l Hl).
  rewrite Sk_dot_qdot, (qdot_qsum _ _ p).
  - apply qsum_ext. intros k _. now rewrite nth_column.
  - rewrite column_length, HN. lia.
Qed.

Lemma nth_matvec (M : list (list Q)) (v : list Q) (j p : nat) :
  (j < length M)%nat -> length v = p ->
  nth j (Sk.matvec M v) 0 == qsum (fun k => entry M j k * nth k v 0) p.
Proof.
  intros Hj Hv. unfold Sk.matvec.
  rewrite (nth_indep _ 0 ((fun row => Sk.dot row v) []))
    by (now rewrite length_map).
  rewrite (map_nth (fun row => Sk.dot row v)).
  rewrite Sk_dot_qdot, (qdot_qsum _ _ p) by lia. reflexivity.
Qed.

Lemma in_combine_nth {A B} (u : list A) (v : list B) (a : A) (b : B) (d : A) (d' : B) :
  In (a, b) (combine u v) ->
  exists j, (j < length u)%nat /\ (j < length v)%nat
            /\ a = nth j u d /\ b = nth j v d'.
Proof.
  revert v. induction u as [|x u IH]; intros [|y v] Hin; try destruct Hin.
  - injection H as <- <-. exists O. cbn. repeat split; lia.
  - destruct (IH v H) as (j & H1 & H2 & H3 & H4).
    exists (S j). cbn. repeat split; try lia; assumption.
Qed.

(** [lstsq] solves the normal equations [A^T (b - A x) = 0]. *)
Lemma lstsq_normal_equations (A : list (list Q)) (b : list Q) :
  let p := Sk.n_features A in
  let x := Sk.lstsq A b in
  length b = length A ->
  length x = p
  /\ forall j, (j < p)%nat ->
       qsum (fun i => entry A i j
                      * (nth i b 0 - qsum (fun k => entry A i k * nth k x 0) p))
            (length A) == 0.
Proof.
  intros p x Hb. unfold x, Sk.lstsq. cbv zeta.
  set (n := length A).
  set (N := Sk.gram A).
  set (m := Sk.moment A b).
  destruct (gram_rows A) as [LN RN]. fold N p in LN, RN.
  set (Nf := fun j k => qsum (fun i => entry A i j * entry A i k) n).
  assert (EN : forall j k, (j < p)%nat -> (k < p)%nat -> entry N j k == Nf j k)
    by (intros j k Hj Hk; now apply entry_gram).
  assert (Hsym : forall j k, Nf j k == Nf k j)
    by (intros j k; unfold Nf; apply qsum_ext; intros; ring).
  assert (Em : forall j, (j < p)%nat ->
             nth j m 0 == qsum (fun i => entry A i j * nth i b 0) n)
    by (intros j Hj; now apply nth_moment).
  assert (Lm : length m = p)
    by (unfold m, Sk.moment; now rewrite length_map, length_seq).
  assert (FN : Sk.n_features N = p) by now apply n_features_square.
  set (NN := Sk.matmul N N).
  assert (LNN : length NN = p) by (unfold NN, Sk.matmul; now rewrite length_map).
  assert (RNN : forall row, In row NN -> length row = p).
  { intros row Hin. apply in_map_iff in Hin as (r0 & <- & _).
    now rewrite length_map, length_seq. }
  assert (FNN : Sk.n_features NN = p) by now apply n_features_square.
  assert (ENN : forall j l, (j < p)%nat -> (l < p)%nat ->
             entry NN j l == qsum (fun k => Nf j k * Nf k l) p).
  { intros j l Hj Hl. unfold NN.
    rewrite (entry_matmul N N j l p) by (try assumption; lia).
    apply qsum_ext. intros k Hk. now rewrite !EN. }
  (* the normal equations have a solution x0, and N N z = m has one *)
  destruct (projection n (fun k i => entry A i k) p (fun i => nth i b 0))
    as [x0 Hx0].
  assert (Hm0 : forall j, (j < p)%nat ->
             nth j m 0 == qsum (fun k => Nf j k * x0 k) p).
  { intros j Hj. specialize (Hx0 j Hj). cbv beta in Hx0.
    rewrite (qsum_ext _ (fun i => entry A i j * nth i b 0
                                  - entry A i j
                                    * qsum (fun k => x0 k * entry A i k) p))
      in Hx0 by (intros; ring).
    rewrite qsum_minus, (qsum_combination n) in Hx0.
    rewrite (Em j Hj).
    rewrite (qsum_ext (fun k => Nf j k * x0 k)
               (fun k => x0 k * qsum (fun i => entry A i j * entry A i k) n))
      by (intros; unfold Nf; ring).
    Lqa.lra. }
  destruct (squared_system_solvable Nf x0 p Hsym) as [zf Hzf].
  set (z0 := map zf (seq 0 p)).
  assert (Lz0 : length z0 = p) by (unfold z0; now rewrite length_map, length_seq).
  destruct (solve_correct NN m z0) as [Lz Hz].
  { now rewrite FNN. }
  { now rewrite Lm, LNN. }
  { now rewrite FNN. }
  { intros row ci Hin.
    destruct (in_combine_nth NN m row ci [] 0 Hin) as (j & Hj & _ & -> & ->).
    rewrite LNN in Hj.
    rewrite (qdot_qsum _ _ p) by lia.
    rewrite (Hm0 j Hj), <- (Hzf j Hj).
    apply qsum_ext. intros l Hl.
    change (nth l (nth j NN []) 0) with (entry NN j l).
    rewrite (ENN j l Hj Hl). unfold z0. now rewrite nth_map_seq. }
  rewrite FNN in Lz.
  set (z := Sk.solve NN m) in *.
  assert (Lx : length (Sk.matvec N z) = p)
    by (unfold Sk.matvec; now rewrite length_map).
  split; [exact Lx |].
  assert (Ex : forall k, (k < p)%nat ->
             nth k (Sk.matvec N z) 0 == qsum (fun l => Nf k l * nth l z 0) p).
  { intros k Hk. rewrite (nth_matvec N z k p) by (try assumption; lia).
    apply qsum_ext. intros l Hl. now rewrite EN. }
  (* N x = N N z = m *)
  assert (HNx : forall j, (j < p)%nat ->
             qsum (fun k => Nf j k * nth k (Sk.matvec N z) 0) p == nth j m 0).
  { intros j Hj.
    rewrite (qsum_ext _ (fun k => Nf j k * qsum (fun l => nth l z 0 * Nf k l) p)).
    - rewrite (qsum_combination p).
      assert (Hrow : In (nth j NN [], nth j m 0) (combine NN m)).
      { rewrite <- (combine_nth NN m j [] 0) by lia.
        apply nth_In. rewrite length_combine. lia. }
      rewrite <- (Hz _ _ Hrow), (qdot_qsum _ _ p) by lia.
      apply qsum_ext. intros l Hl.
      change (nth l (nth j NN []) 0) with (entry NN j l).
      rewrite (ENN j l Hj Hl). ring.
    - intros k Hk. rewrite (Ex k Hk).
      apply Qmult_comp; [reflexivity |]. apply qsum_ext. intros; ring. }
  intros j Hj.
  set (xs := Sk.matvec N z) in *.
  rewrite (qsum_ext _ (fun i => entry A i j * nth i b 0
                                - entry A i j
                                  * qsum (fun k => nth k xs 0 * entry A i k) p)).
  - rewrite qsum_minus, (qsum_combination n), <- (Em j Hj), <- (HNx j Hj).
    rewrite (qsum_ext (fun k => Nf j k * nth k xs 0)
               (fun k => nth k xs 0
                         * qsum (fun i => entry A i j * entry A i k) n))
      by (intros; unfold Nf; ring).
    ring.
  - intros i _.
    rewrite (qsum_ext (fun k => entry A i k * nth k xs 0)
               (fun k => nth k xs 0 * entry A i k)) by (intros; ring).
    ring.
Qed.
End Lstsq.

(** ** The regression with intercept *)

Section Regression.
Local Open Scope Q_scope.

Lemma mean_centered (v : list Q) :
  qsum (fun i => nth i v 0 - Sk.mean v) (length v) == 0.
Proof.
  rewrite qsum_minus, qsum_const. unfold Sk.mean.
  rewrite Qred_correct, <- Sk_sum_qsum.
  destruct v as [|a v]; [cbn; ring |].
  set (n := inject_Z (Z.of_nat (length (a :: v)))).
  assert (Hn : ~ n == 0).
  { unfold n. intros E.
    assert (H : (0 < Z.of_nat (length (a :: v)))%Z) by (cbn [length]; lia).
    rewrite Zlt_Qlt in H. rewrite E in H. discriminate H. }
  now field.
Qed.

Lemma nth_centre (u v : list Q) (k : nat) :
  length u = length v ->
  nth k (map (fun '(x, m) => Qred (x - m)) (combine u v)) 0
  == nth k u 0 - nth k v 0.
Proof.
  revert v k. induction u as [|x u IH]; intros [|m v] k H; try discriminate H.
  - destruct k; cbn; ring.
  - injection H as H. destruct k as [|k]; cbn [combine map nth];
      [apply Qred_correct | now apply IH].
Qed.

Lemma residual_sum_qsum (X : list (list Q)) (y c : list Q) (b : Q) :
  length y = length X ->
  residual_sum X y c b
  == qsum (fun i => nth i y 0 - (qdot (nth i X []) c + b)) (length X).
Proof.
  unfold residual_sum. revert y.
  induction X as [|x X IH]; intros [|yn y] H; try discriminate H;
    [reflexivity |].
  injection H as H. cbn [combine fold_right length].
  rewrite (IH y H). clear.
  induction (length X) as [|n IHn]; cbn [qsum nth]; [ring |].
  cbn [qsum nth] in IHn. rewrite <- IHn. ring.
Qed.

Lemma vadd_nth (u v : list Q) (k : nat) :
  length u = length v -> nth k (vadd u v) 0 == nth k u 0 + nth k v 0.
Proof.
  unfold vadd. revert v k.
  induction u as [|x u IH]; intros [|z v] k H; try discriminate H.
  - destruct k; cbn; ring.
  - injection H as H. destruct k as [|k]; cbn [combine map nth];
      [reflexivity | now apply IH].
Qed.

Lemma vscale_nth (a : Q) (u : list Q) (k : nat) :
  nth k (vscale a u) 0 == a * nth k u 0.
Proof.
  unfold vscale. revert k.
  induction u as [|x u IH]; intros k.
  - destruct k; cbn; ring.
  - destruct k; cbn [map nth]; [reflexivity | apply IH].
Qed.

Lemma residual_moments_qsum (X : list (list Q)) (y c : list Q) (b : Q) (j : nat) :
  length y = length X ->
  (forall row, In row X -> length row = length c) ->
  nth j (residual_moments X y c b) 0
  == qsum (fun i => (nth i y 0 - (qdot (nth i X []) c + b)) * entry X i j)
          (length X).
Proof.
  intros Hy HX.
  assert (HXb : forall X' : list (list Q),
              (forall row, In row X' -> length row = length c) ->
              forallb (fun row => (length row =? length c)%nat) X' = true).
  { intros X' H. apply forallb_forall. intros row Hin.
    apply Nat.eqb_eq. now apply H. }
  revert y Hy. induction X as [|x X IH]; intros [|yn y] H;
    try discriminate H.
  - unfold residual_moments. cbn [combine fold_right length qsum].
    destruct (Nat.lt_ge_cases j (length c)) as [Hj | Hj].
    + now rewrite nth_repeat.
    + rewrite nth_overflow by (now rewrite repeat_length). reflexivity.
  - injection H as H.
    assert (HX' : forall row, In row X -> length row = length c)
      by (intros row Hin; apply HX; now right).
    unfold residual_moments. cbn [combine fold_right length].
    fold (residual_moments X y c b).
    rewrite vadd_nth.
    + rewrite vscale_nth, (IH HX' y H). clear.
      unfold entry.
      induction (length X) as [|n IHn]; cbn [qsum nth]; [ring |].
      cbn [qsum nth] in IHn. rewrite <- IHn. ring.
    + unfold vscale. rewrite length_map.
      rewrite (residual_moments_length X y c b (HXb X HX')).
      apply HX. now left.
Qed.

(** The fit of the model of scikit-learn satisfies the normal
    equations of the regression with intercept. *)
Lemma LinearRegression_fit_normal_equations (X : list (list Q)) (y : list Q) :
  (forall row, In row X -> length row = Sk.n_features X) ->
  length y = length X ->
  normal_equations X y (coef_ (Sk.LinearRegression_fit X y))
    (intercept_ (Sk.LinearRegression_fit X y)) = true.
Proof.
  intros HX Hy. unfold Sk.LinearRegression_fit. cbv zeta. cbn [coef_ intercept_].
  set (p := Sk.n_features X) in *. set (n := length X) in *.
  set (mu := map (fun j => Sk.mean (Sk.column j X)) (seq 0 p)).
  set (ybar := Sk.mean y).
  set (Xc := map (fun row => map (fun '(x, m) => Qred (x - m)) (combine row mu)) X).
  set (yc := map (fun v => Qred (v - ybar)) y).
  set (c := Sk.lstsq Xc yc).
  set (b := Qred (ybar - Sk.dot mu c)).
  assert (Lmu : length mu = p) by (unfold mu; now rewrite length_map, length_seq).
  assert (LXc : length Xc = n) by (unfold Xc; now rewrite length_map).
  assert (Lyc : length yc = n) by (unfold yc; now rewrite length_map).
  assert (FXc : Sk.n_features Xc = p).
  { unfold Xc, p. destruct X as [|row X']; [reflexivity |].
    cbn [map Sk.n_features]. rewrite length_map, length_combine, Lmu.
    fold p. rewrite (HX row) by now left. fold p. lia. }
  assert (EXc : forall i k, (i < n)%nat ->
             entry Xc i k == entry X i k - nth k mu 0).
  { intros i k Hi. unfold entry, Xc.
    rewrite (nth_indep _ [] ((fun row => map (fun '(x, m) => Qred (x - m))
                                            (combine row mu)) []))
      by (now rewrite length_map).
    rewrite (map_nth (fun row => map (fun '(x, m) => Qred (x - m))
                                     (combine row mu))).
    apply nth_centre. rewrite Lmu. apply HX. apply nth_In. exact Hi. }
  assert (Eyc : forall i, (i < n)%nat -> nth i yc 0 == nth i y 0 - ybar).
  { intros i Hi. unfold yc.
    rewrite (nth_indep _ 0 ((fun v => Qred (v - ybar)) 0))
      by (rewrite length_map; lia).
    rewrite (map_nth (fun v => Qred (v - ybar))). apply Qred_correct. }
  assert (Emu : forall k, (k < p)%nat ->
             qsum (fun i => entry X i k - nth k mu 0) n == 0).
  { intros k Hk. unfold mu. rewrite (nth_map_seq _ 0 _ k Hk).
    pose proof (mean_centered (Sk.column k X)) as H.
    rewrite column_length in H. fold n in H. rewrite <- H.
    apply qsum_ext. intros i _. now rewrite nth_column. }
  assert (Eybar : qsum (fun i => nth i y 0 - ybar) n == 0).
  { pose proof (mean_centered y) as H. rewrite Hy in H. exact H. }
  destruct (lstsq_normal_equations Xc yc) as [Lc Hne].
  { now rewrite Lyc, LXc. }
  rewrite FXc in Lc, Hne. rewrite LXc in Hne. fold c in Lc, Hne.
  assert (Eb : b == ybar - qsum (fun k => nth k mu 0 * nth k c 0) p).
  { unfold b. rewrite Qred_correct, Sk_dot_qdot, (qdot_qsum _ _ p) by lia.
    reflexivity. }
  (* the residuals, through the centred data *)
  set (rho := fun i => nth i yc 0 - qsum (fun k => entry Xc i k * nth k c 0) p).
  assert (Erho : forall i, (i < n)%nat ->
             nth i y 0 - (qdot (nth i X []) c + b) == rho i).
  { intros i Hi. unfold rho.
    rewrite (qdot_qsum _ _ p) by lia. rewrite Eb, (Eyc i Hi).
    rewrite (qsum_ext (fun k => entry Xc i k * nth k c 0)
               (fun k => nth k (nth i X []) 0 * nth k c 0
                         - nth k mu 0 * nth k c 0))
      by (intros k _; rewrite (EXc i k Hi); unfold entry; ring).
    rewrite qsum_minus. ring. }
  assert (Srho : qsum rho n == 0).
  { unfold rho. rewrite qsum_minus.
    rewrite (qsum_ext (fun i => nth i yc 0) (fun i => nth i y 0 - ybar))
      by (intros i Hi; now apply Eyc).
    rewrite Eybar.
    rewrite (qsum_ext _ (fun i => 1 * qsum (fun k => nth k c 0 * entry Xc i k) p)).
    - rewrite (qsum_combination n).
      rewrite qsum_zero; [ring |].
      intros k Hk.
      rewrite (qsum_ext _ (fun i => entry X i k - nth k mu 0))
        by (intros i Hi; rewrite (EXc i k Hi); ring).
      rewrite (Emu k Hk). ring.
    - intros i _. rewrite Qmult_1_l. apply qsum_ext. intros; ring. }
  unfold normal_equations.
  assert (HXb : forallb (fun row => (length row =? length c)%nat) X = true).
  { apply forallb_forall. intros row Hin. apply Nat.eqb_eq.
    rewrite Lc. now apply HX. }
  rewrite HXb. cbn [andb].
  apply andb_true_intro. split.
  - apply Qeq_bool_iff. rewrite (residual_sum_qsum X y c b Hy). fold n.
    rewrite (qsum_ext _ rho) by exact Erho. exact Srho.
  - apply forallb_forall. intros v Hv. apply Qeq_bool_iff.
    destruct (In_nth _ _ 0 Hv) as (j & Hj & <-).
    rewrite (residual_moments_length X y c b HXb), Lc in Hj.
    rewrite (residual_moments_qsum X y c b j Hy)
      by (intros row Hin; rewrite Lc; now apply HX).
    fold n.
    rewrite (qsum_ext _ (fun i => entry Xc i j * rho i + nth j mu 0 * rho i)).
    + rewrite qsum_plus, qsum_scale, Srho. unfold rho.
      rewrite (Hne j Hj). ring.
    + intros i Hi. rewrite (Erho i Hi), (EXc i j Hi). ring.
Qed.
End Regression.

(** ** The stress-based fit *)

(** C5 (amended): in the stress-based fit, row [i] of the returned
    tensor is the coefficient vector [coef_] of the regression of stress
    component [i] on the six strain columns, a regression WITH
    intercept (scikit-learn's default): together with the intercept of
    that regression, which is dropped, the row minimizes the sum of the
    squared residuals [stress_i - (strain . coef + intercept)] over all
    coefficients and intercepts. *)
Theorem stress_fit_rows_fit_with_intercept
        strain stress energy volume rotations return_score C score (i : Z) :
  calc_elastic_tensor (H := sklearn_scipy)
    strain (Some stress) energy volume rotations return_score
  = inr (C, score) ->
  takes_stress_path strain (Some stress) rotations = true ->
  0 <= i < 6 ->
  let X := augment_strain (reduce_rotations rotations) strain in
  let y := column i (augment_stress (reduce_rotations rotations) stress) in
  let reg := Sk.LinearRegression_fit X y in
  Np.get1 [] C i = coef_ reg
  /\ least_squares_with_intercept X y (Np.get1 [] C i) (intercept_ reg).
Proof.
  intros Hcalc Hp Hi X y reg.
  assert (Hne : strain <> []) by (intros ->; discriminate Hcalc).
  rewrite (calc_elastic_tensor_stress_path _ _ stress _ _ _ _ Hne eq_refl Hp)
    in Hcalc.
  cbv zeta in Hcalc.
  injection Hcalc as EC _.
  assert (Erow : Np.get1 [] C i = coef_ reg).
  { rewrite <- EC. unfold _fit_coeffs_with_stress, reg, y, X. cbn [fst].
    assert (Ei : i = 0 \/ i = 1 \/ i = 2 \/ i = 3 \/ i = 4 \/ i = 5) by lia.
    destruct Ei as [-> | [-> | [-> | [-> | [-> | ->]]]]]; reflexivity. }
  split; [exact Erow |]. rewrite Erow.
  apply normal_equations_least_squares.
  apply LinearRegression_fit_normal_equations.
  - (* every row of the design matrix has six entries *)
    assert (Hrows : forall row, In row X -> length row = 6%nat).
    { intros row Hin. unfold X, augment_strain in Hin.
      apply in_map_iff in Hin as (s & <- & _). reflexivity. }
    intros row Hin. rewrite (Hrows row Hin).
    destruct X as [|r0 X'] eqn:EX; [destruct Hin |].
    cbn [Sk.n_features]. symmetry. apply Hrows. now left.
  - (* one stress value for each row *)
    unfold takes_stress_path in Hp. apply Nat.eqb_eq in Hp.
    unfold y, column, augment_stress.
    rewrite !length_map, einsum_rotate_samples_length.
    fold X in Hp. rewrite <- Hp. apply Nat.mul_comm.
Qed.

(** C5, as stated, fails: for strains [e_xx = 1, 2] with the stress
    [s_xx = 1] both times the fit returns the zero tensor (the
    regression explains the constant stress by its intercept, 1), and
    the zero row is not a least-squares solution without intercept: the
    coefficient 3/5 for [e_xx] leaves a smaller residual.  No
    least-squares solution with intercept is one without on these
    data. *)
Lemma stress_fit_rows_not_without_intercept :
  let X := augment_strain [Np.eye3] [uniaxial_x 1; uniaxial_x 2] in
  let y := column 0 (augment_stress [Np.eye3] [uniaxial_x 1; uniaxial_x 1]) in
  calc_elastic_tensor [uniaxial_x 1; uniaxial_x 2]
    (Some [uniaxial_x 1; uniaxial_x 1]) None None None false
  = inr (Np.zeros2 0%Q 6 6, None)
  /\ normal_equations X y (Np.get1 [] (Np.zeros2 0%Q 6 6) 0) 1 = true
  /\ ~ least_squares_without_intercept X y (Np.get1 [] (Np.zeros2 0%Q 6 6) 0)
  /\ (forall c b, normal_equations X y c b = true ->
                  ~ least_squares_without_intercept X y c).
Proof.
  cbv zeta. rewrite augment_strain_x_x2.
  replace (column 0 (augment_stress [Np.eye3] [uniaxial_x 1; uniaxial_x 1]))
    with [1; 1]%Q by (vm_compute; reflexivity).
  split; [vm_compute; reflexivity |].
  split; [vm_compute; reflexivity |].
  split.
  - apply (constant_stress_needs_intercept _ 1). vm_compute. reflexivity.
  - intros c b Hn. now apply (constant_stress_needs_intercept c b).
Qed.

Lemma stress_fit_rows_fit_with_intercept_witness :
  exists C score,
    calc_elastic_tensor [uniaxial_x 1; uniaxial_x 2; zeros3]
      (Some [uniaxial_x 3; uniaxial_x 5; uniaxial_x 1]) None None None false
    = inr (C, score)
    /\ Np.get1 [] C 0 = [2; 0; 0; 0; 0; 0]%Q
    /\ intercept_ (Sk.LinearRegression_fit
                     (augment_strain (reduce_rotations None)
                        [uniaxial_x 1; uniaxial_x 2; zeros3])
                     (column 0 (augment_stress (reduce_rotations None)
                                  [uniaxial_x 3; uniaxial_x 5; uniaxial_x 1])))
       = 1%Q
    /\ least_squares_with_intercept
         (augment_strain (reduce_rotations None)
            [uniaxial_x 1; uniaxial_x 2; zeros3])
         (column 0 (augment_stress (reduce_rotations None)
                      [uniaxial_x 3; uniaxial_x 5; uniaxial_x 1]))
         (Np.get1 [] C 0) 1%Q.
Proof.
  destruct (calc_elastic_tensor [uniaxial_x 1; uniaxial_x 2; zeros3]
              (Some [uniaxial_x 3; uniaxial_x 5; uniaxial_x 1])
              None None None false)
    as [e | [C score]] eqn:E; [vm_compute in E; discriminate E |].
  exists C, score. split; [reflexivity |].
  pose proof (stress_fit_rows_fit_with_intercept
                [uniaxial_x 1; uniaxial_x 2; zeros3]
                [uniaxial_x 3; uniaxial_x 5; uniaxial_x 1]
                None None None false C score 0 E eq_refl ltac:(lia))
    as [Hrow Hls].
  assert (Eint : intercept_ (Sk.LinearRegression_fit
                     (augment_strain (reduce_rotations None)
                        [uniaxial_x 1; uniaxial_x 2; zeros3])
                     (column 0 (augment_stress (reduce_rotations None)
                                  [uniaxial_x 3; uniaxial_x 5; uniaxial_x 1])))
                 = 1%Q) by (vm_compute; reflexivity).
  split; [| split; [exact Eint |]].
  - rewrite Hrow. vm_compute. reflexivity.
  - rewrite <- Eint. exact Hls.
Defined.

(** ** Dropped columns in the energy-based fit *)

(** C6 at [strain = [diag(1,0,0), diag(2,0,0)]], [energy = [1, 4]],
    [volume = [2, 2]]: of the 36 flattened columns only the first, the
    pair (0,0), is kept, and the single fitted coefficient is 1.  It is
    not scattered to position (0,0) alone: numpy broadcasts it over all
    21 upper-triangle entries, so the returned tensor has
    [eV_div_A3_to_GPa] on its whole diagonal and half of it elsewhere.
    And for [strain = [diag(1,1,0), diag(1,-1,0)]] the column of the
    pair (0,1) has no zero entry (it holds 1 and -1), yet it is dropped,
    because the test is on the column sum. *)
Theorem energy_fit_scatter_ignores_dropped_columns :
  let strain := augment_strain [Np.eye3] [uniaxial_x 1; uniaxial_x 2] in
  fst (energy_design_matrix strain [2; 2]%Q)
  = true :: repeat false 35
  /\ tl (coef_ (LinearRegression_fit
                  (snd (energy_design_matrix strain [2; 2]%Q)) [1; 4]%Q))
     = [1%Q]
  /\ (exists C,
        calc_elastic_tensor [uniaxial_x 1; uniaxial_x 2] None
          (Some [1; 4]%Q) (Some [2; 2]%Q) None false = inr (C, None)
        /\ (Np.get2 0 C 0 0 == eV_div_A3_to_GPa)%Q
        /\ (Np.get2 0 C 1 1 == eV_div_A3_to_GPa)%Q
        /\ (Np.get2 0 C 3 5 == 0.5 * eV_div_A3_to_GPa)%Q)
  /\ (let strain' :=
        augment_strain [Np.eye3] [diagonal3 1 1 0; diagonal3 1 (-1) 0] in
      nth 1 (fst (energy_design_matrix strain' [2; 2]%Q)) true = false
      /\ map (fun s => Qeq_bool (0.5 * 2 * nth 0 s 0 * nth 1 s 0) 0)%Q strain'
         = [false; false]).
Proof.
  cbv zeta. split; [vm_compute; reflexivity |].
  split; [vm_compute; reflexivity |].
  split.
  - destruct (calc_elastic_tensor [uniaxial_x 1; uniaxial_x 2] None
                (Some [1; 4]%Q) (Some [2; 2]%Q) None false)
      as [e | [C [sc |]]] eqn:E; try (vm_compute in E; discriminate E).
    exists C. split; [reflexivity |].
    vm_compute in E. injection E as <-.
    repeat split; vm_compute; reflexivity.
  - split; vm_compute; reflexivity.
Qed.

(** ** Errors of [calc_elastic_tensor] *)

Section ErrorFacts.
Context `{External}.

Lemma calc_elastic_tensor_InsufficientData_iff
      strain stress energy volume rotations return_score :
  calc_elastic_tensor strain stress energy volume rotations return_score
  = inl InsufficientData
  <-> strain = [].
Proof.
  split; [| intros ->; reflexivity].
  destruct strain as [|s strain']; [reflexivity |].
  intros Hcalc. exfalso.
  assert (Hne : s :: strain' <> []) by discriminate.
  destruct (takes_stress_path (s :: strain') stress rotations) eqn:Hp.
  - destruct stress as [st |]; [| discriminate Hp].
    rewrite (calc_elastic_tensor_stress_path _ _ st _ _ _ _ Hne eq_refl Hp)
      in Hcalc.
    discriminate Hcalc.
  - destruct (energy_data_fits (s :: strain') energy volume rotations) eqn:He.
    + assert (Hev : exists en vol, energy = Some en /\ volume = Some vol).
      { unfold energy_data_fits in He.
        destruct energy as [en |], volume as [vol |]; try discriminate He.
        now exists en, vol. }
      destruct Hev as (en & vol & Een & Evol).
      rewrite (calc_elastic_tensor_energy_path
                 _ _ _ en _ vol _ _ Hne Een Evol Hp He) in Hcalc.
      cbv zeta in Hcalc.
      destruct (_fit_coeffs_with_energies _ _ _ _) as [e | [coeff sc]] eqn:Efit;
        [| discriminate Hcalc].
      apply fit_coeffs_with_energies_error in Efit. subst e.
      discriminate Hcalc.
    + rewrite (calc_elastic_tensor_mismatch _ _ _ _ _ _ Hne Hp He) in Hcalc.
      discriminate Hcalc.
Qed.

Lemma calc_elastic_tensor_InputMismatch_iff
      strain stress energy volume rotations return_score :
  strain <> [] ->
  calc_elastic_tensor strain stress energy volume rotations return_score
  = inl InputMismatch
  <-> takes_stress_path strain stress rotations = false
      /\ energy_data_fits strain energy volume rotations = false.
Proof.
  intros Hne. split.
  - intros Hcalc.
    destruct (takes_stress_path strain stress rotations) eqn:Hp.
    + destruct stress as [st |]; [| discriminate Hp].
      rewrite (calc_elastic_tensor_stress_path _ _ st _ _ _ _ Hne eq_refl Hp)
        in Hcalc.
      discriminate Hcalc.
    + split; [reflexivity |].
      destruct (energy_data_fits strain energy volume rotations) eqn:He;
        [| reflexivity].
      assert (Hev : exists en vol, energy = Some en /\ volume = Some vol).
      { unfold energy_data_fits in He.
        destruct energy as [en |], volume as [vol |]; try discriminate He.
        now exists en, vol. }
      destruct Hev as (en & vol & Een & Evol).
      rewrite (calc_elastic_tensor_energy_path
                 _ _ _ en _ vol _ _ Hne Een Evol Hp He) in Hcalc.
      cbv zeta in Hcalc.
      destruct (_fit_coeffs_with_energies _ _ _ _) as [e | [coeff sc]] eqn:Efit;
        [| discriminate Hcalc].
      apply fit_coeffs_with_energies_error in Efit. subst e.
      discriminate Hcalc.
  - intros [Hp He]. now apply calc_elastic_tensor_mismatch.
Qed.

(** The two instances of the specification: no strain at all, and two
    strains with a single stress and no energy. *)
Lemma calc_elastic_tensor_error_instances (s1 s2 t1 : list (list Q)) :
  calc_elastic_tensor [] None None None None false = inl InsufficientData
  /\ calc_elastic_tensor [s1; s2] (Some [t1]) None None None false
     = inl InputMismatch.
Proof. split; reflexivity. Qed.
End ErrorFacts.

(** C7 at [strain = [diag(1,0,0), diag(0,1,0), 0]], [energy = [1, 2, 3]],
    [volume = [2, 2, 2]], no stress: the strain is not empty and energy
    and volume have its length, so the specification promises a tensor;
    the design matrix keeps two columns, the two coefficients do not
    fit the 21 upper-triangle entries, and numpy raises its own
    [ValueError]. *)
Theorem energy_fit_raises_broadcast_error :
  let strain := [uniaxial_x 1; uniaxial_y 1; zeros3] in
  let energy := Some [1; 2; 3]%Q in
  let volume := Some [2; 2; 2]%Q in
  strain <> []
  /\ takes_stress_path strain None None = false
  /\ energy_data_fits strain energy volume None = true
  /\ calc_elastic_tensor strain None energy volume None false
     = inl BroadcastError
  /\ BroadcastError <> InsufficientData
  /\ BroadcastError <> InputMismatch.
Proof.
  cbv zeta. repeat split; try discriminate; vm_compute; reflexivity.
Qed.

(** ** The unit conversion *)

(** C9 (amended): the constant is [1e21] divided by scipy's
    "joule-electron volt relationship", the number of electron volts in
    one joule.  The tables of scipy give that entry as the reciprocal
    of the elementary charge [e] in coulombs to within one part in
    [1e7]; so the constant is [1e21] multiplied by [e], not divided by
    it, up to [2e-5]: it lies between 160.2176 and 160.2177. *)
Theorem eV_div_A3_to_GPa_value `{External} :
  (Qabs (joule_electron_volt_relationship * elementary_charge - 1) <= 1e-7)%Q ->
  (eV_div_A3_to_GPa == 1e21 / joule_electron_volt_relationship)%Q
  /\ (Qabs (eV_div_A3_to_GPa - 1e21 * elementary_charge) <= 2e-5)%Q
  /\ (160.2176 < eV_div_A3_to_GPa < 160.2177)%Q.
Proof.
  intros He. unfold eV_div_A3_to_GPa.
  set (j := joule_electron_volt_relationship) in *.
  split; [reflexivity |].
  apply Qabs_Qle_condition in He. destruct He as [Hlo Hhi].
  set (x := (1e21 / j)%Q).
  let e := eval vm_compute in elementary_charge in
  change elementary_charge with e in *.
  let c := eval vm_compute in (1e-7)%Q in change (1e-7)%Q with c in *.
  assert (Hj : (0 < j)%Q) by Lqa.lra.
  assert (Hx : (x * j == 1e21)%Q).
  { unfold x. field. intros E. rewrite E in Hj. discriminate Hj. }
  let c := eval vm_compute in (1e21)%Q in change (1e21)%Q with c in *.
  let c := eval vm_compute in (2e-5)%Q in change (2e-5)%Q with c in *.
  split.
  - apply Qabs_Qle_condition. split; Lqa.nra.
  - split; Lqa.nra.
Qed.

(** C9, as stated, fails: with the CODATA 2018 table the constant lies
    between 160.2176 and 160.2177, while [1e21] divided by the
    elementary charge exceeds [6e39]. *)
Lemma eV_div_A3_to_GPa_counterexample :
  (160.2176 < eV_div_A3_to_GPa < 160.2177)%Q
  /\ (6e39 < 1e21 / elementary_charge)%Q
  /\ ~ (eV_div_A3_to_GPa == 1e21 / elementary_charge)%Q.
Proof.
  repeat split; try reflexivity.
  intros Heq. vm_compute in Heq. discriminate Heq.
Qed.

Lemma eV_div_A3_to_GPa_value_witness :
  (@eV_div_A3_to_GPa sklearn_scipy
   == 1e21 / @joule_electron_volt_relationship sklearn_scipy)%Q
  /\ (Qabs (@eV_div_A3_to_GPa sklearn_scipy - 1e21 * elementary_charge)
      <= 2e-5)%Q
  /\ (160.2176 < @eV_div_A3_to_GPa sklearn_scipy < 160.2177)%Q.
Proof.
  apply (@eV_div_A3_to_GPa_value sklearn_scipy).
  vm_compute. discriminate.
Defined.

(* ================================================================== *)
(** * Part III: further properties of the module                       *)
(* ================================================================== *)

(** ** Rotation reduction on lists without duplicates *)

Section DistinctFacts.
Context {A : Type} (eqb : A -> A -> bool).
Hypothesis eqb_sym : forall x y, eqb x y = true -> eqb y x = true.
Hypothesis eqb_trans :
  forall x y z, eqb x y = true -> eqb y z = true -> eqb x z = true.

Lemma filter_all_true (f : A -> bool) (l : list A) :
  forallb f l = true -> filter f l = l.
Proof.
  induction l as [|x t IH]; cbn; [reflexivity |].
  intros H. apply andb_prop in H as [Hx Ht]. rewrite Hx. f_equal. now apply IH.
Qed.

Lemma first_occurrences_distinct (l : list A) :
  pairwise_distinctb eqb l = true -> Np.first_occurrences eqb l = l.
Proof.
  induction l as [|x t IH]; cbn; [reflexivity |].
  intros H. apply andb_prop in H as [Hx Ht].
  rewrite (IH Ht). f_equal. now apply filter_all_true.
Qed.

(** In a list without duplicates at most one element equals [x]. *)
Lemma distinct_filter_le_1 (x : A) (l : list A) :
  pairwise_distinctb eqb l = true ->
  (length (filter (eqb x) l) <= 1)%nat.
Proof.
  induction l as [|y t IH]; cbn; [lia |].
  intros H. apply andb_prop in H as [Hy Ht].
  destruct (eqb x y) eqn:Exy; [| now apply IH].
  assert (Hnone : filter (eqb x) t = []).
  { clear IH Ht. induction t as [|z t IH]; cbn in *; [reflexivity |].
    apply andb_prop in Hy as [Hz Hy].
    destruct (eqb x z) eqn:Exz; [| now apply IH].
    exfalso. apply eqb_sym in Exy.
    rewrite (eqb_trans _ _ _ Exy Exz) in Hz. discriminate Hz. }
  rewrite Hnone. cbn. lia.
Qed.

Lemma first_occurrences_cons_distinct_length (x : A) (l : list A) :
  pairwise_distinctb eqb l = true ->
  existsb (eqb x) l = true ->
  length (Np.first_occurrences eqb (x :: l)) = length l.
Proof.
  intros Hd Hex. cbn [Np.first_occurrences length].
  rewrite (first_occurrences_distinct l Hd).
  pose proof (filter_length (eqb x) l) as Hlen.
  pose proof (distinct_filter_le_1 x l Hd) as Hle.
  assert (Hpos : (1 <= length (filter (eqb x) l))%nat).
  { apply existsb_exists in Hex as (y & Hy & Exy).
    assert (Hin : In y (filter (eqb x) l)) by (apply filter_In; now split).
    destruct (filter (eqb x) l); [contradiction | cbn; lia]. }
  lia.
Qed.

Lemma first_occurrences_all_equal (x : A) (l : list A) :
  forallb (eqb x) l = true ->
  Np.first_occurrences eqb (x :: l) = [x].
Proof.
  intros Hall. cbn [Np.first_occurrences]. f_equal.
  assert (Hin : forall y, In y (Np.first_occurrences eqb l) -> eqb x y = true).
  { intros y Hy. rewrite forallb_forall in Hall. apply Hall.
    clear Hall. revert y Hy.
    induction l as [|h t IH]; cbn; intros y Hy; [exact Hy |].
    destruct Hy as [-> | Hy]; [now left |].
    apply filter_In in Hy as [Hy _]. right. now apply IH. }
  induction (Np.first_occurrences eqb l) as [|y t IH]; cbn; [reflexivity |].
  rewrite (Hin y (or_introl eq_refl)). cbn. apply IH.
  intros z Hz. apply Hin. now right.
Qed.
End DistinctFacts.

Lemma forallb_map_comp {A B} (f : A -> B) (p : B -> bool) (l : list A) :
  forallb p (map f l) = forallb (fun x => p (f x)) l.
Proof. induction l as [|x t IH]; cbn; [reflexivity | now rewrite IH]. Qed.

Lemma existsb_map_comp {A B} (f : A -> B) (p : B -> bool) (l : list A) :
  existsb p (map f l) = existsb (fun x => p (f x)) l.
Proof. induction l as [|x t IH]; cbn; [reflexivity | now rewrite IH]. Qed.

Lemma mat_eqb_sym (a b : list (list Q)) :
  Np.mat_eqb a b = true -> Np.mat_eqb b a = true.
Proof. apply vec_eqb_sym. Qed.

Lemma mat_eqb_trans (a b c : list (list Q)) :
  Np.mat_eqb a b = true -> Np.mat_eqb b c = true -> Np.mat_eqb a c = true.
Proof. apply vec_eqb_trans. Qed.

(** X1: a rotation list without duplicates (after rounding to 6 decimal
    places) passes through lines 215-216 unchanged:
    [_get_rotation_matrices] stores the list the symmetry analysis
    gave. *)
Theorem get_rotation_matrices_keeps_distinct (rotations : list (list (list Q))) :
  distinct_rotations rotations = true ->
  _get_rotation_matrices rotations = rotations.
Proof.
  unfold distinct_rotations, _get_rotation_matrices. intros Hd.
  rewrite unique_rotations_firstn, (first_occurrences_distinct _ _ Hd).
  unfold Np.round_all. rewrite length_map. apply firstn_all.
Qed.

Lemma get_rotation_matrices_keeps_distinct_witness :
  _get_rotation_matrices [rot90_z; Np.eye3] = [rot90_z; Np.eye3].
Proof.
  apply (get_rotation_matrices_keeps_distinct [rot90_z; Np.eye3]). reflexivity.
Defined.

(** X2: when the supplied rotations, with the identity put in front,
    have no duplicates after rounding (so none of them is the
    identity), [calc_elastic_tensor] augments with the identity
    followed by exactly the supplied rotations. *)
Theorem reduce_rotations_prepends_identity (rotations : list (list (list Q))) :
  distinct_rotations (Np.eye3 :: rotations) = true ->
  reduce_rotations (Some rotations) = Np.eye3 :: rotations.
Proof.
  unfold distinct_rotations, reduce_rotations. intros Hd.
  rewrite unique_rotations_firstn, (first_occurrences_distinct _ _ Hd).
  unfold Np.round_all. rewrite length_map. apply firstn_all.
Qed.

Lemma reduce_rotations_prepends_identity_witness :
  reduce_rotations (Some [rot90_z]) = [Np.eye3; rot90_z].
Proof.
  apply (reduce_rotations_prepends_identity [rot90_z]). reflexivity.
Defined.

(** X3: when the supplied rotations have no duplicates and one of them
    is the identity (after rounding), [calc_elastic_tensor] uses the
    identity followed by all supplied rotations but the last: the
    identity counts twice and the last rotation is left out. *)
Theorem reduce_rotations_drops_last (rotations : list (list (list Q))) :
  distinct_rotations rotations = true ->
  existsb rounds_to_identity rotations = true ->
  reduce_rotations (Some rotations) = Np.eye3 :: removelast rotations.
Proof.
  unfold distinct_rotations. intros Hd Hex. unfold reduce_rotations.
  rewrite unique_rotations_firstn.
  change (Np.round_all 6 (Np.eye3 :: rotations))
    with (map (map (Np.round 6)) Np.eye3 :: Np.round_all 6 rotations).
  rewrite (first_occurrences_cons_distinct_length
             Np.mat_eqb mat_eqb_sym mat_eqb_trans _ _ Hd).
  - unfold Np.round_all. rewrite length_map.
    destruct rotations as [|r t]; [discriminate Hex |].
    cbn [length firstn]. f_equal.
    rewrite removelast_firstn_len. reflexivity.
  - unfold Np.round_all. rewrite existsb_map_comp. exact Hex.
Qed.

Lemma reduce_rotations_drops_last_witness :
  reduce_rotations (Some [Np.eye3; rot90_z]) = Np.eye3 :: removelast [Np.eye3; rot90_z].
Proof.
  apply (reduce_rotations_drops_last [Np.eye3; rot90_z]); reflexivity.
Defined.

(** X4: rotations that all round to the identity (an empty list among
    them) count as no rotation: only the exact identity is used, as for
    [rotations=None]. *)
Theorem identity_rotations_ignored (rotations : list (list (list Q))) :
  forallb rounds_to_identity rotations = true ->
  reduce_rotations (Some rotations) = reduce_rotations None.
Proof.
  intros Hall. unfold reduce_rotations.
  rewrite unique_rotations_firstn.
  change (Np.round_all 6 (Np.eye3 :: rotations))
    with (map (map (Np.round 6)) Np.eye3 :: Np.round_all 6 rotations).
  rewrite first_occurrences_all_equal; [reflexivity |].
  unfold Np.round_all. rewrite forallb_map_comp. exact Hall.
Qed.

Lemma identity_rotations_ignored_witness :
  reduce_rotations (Some [eye3_perturbed; Np.eye3]) = reduce_rotations None.
Proof.
  apply (identity_rotations_ignored [eye3_perturbed; Np.eye3]). reflexivity.
Defined.

(** ** Which data [calc_elastic_tensor] fits *)

Lemma augment_strain_length (rotations strain : list (list (list Q))) :
  length (augment_strain rotations strain)
  = (length rotations * length strain)%nat.
Proof.
  unfold augment_strain. now rewrite length_map, einsum_rotate_samples_length.
Qed.

Lemma reduce_rotations_length_pos (rotations : option (list (list (list Q)))) :
  (1 <= length (reduce_rotations rotations))%nat.
Proof.
  destruct rotations as [rots |]; cbn [reduce_rotations length]; [| lia].
  rewrite unique_rotations_firstn.
  set (n := length (Np.first_occurrences _ _)).
  assert (Hle : (n <= length (Np.eye3 :: rots))%nat).
  { unfold n. etransitivity; [apply first_occurrences_length |].
    unfold Np.round_all. now rewrite length_map. }
  assert (Hpos : (1 <= n)%nat) by (unfold n; cbn; lia).
  rewrite firstn_length_le by exact Hle. exact Hpos.
Qed.

(** The test of line 110 compares the lengths of stress and strain. *)
Lemma takes_stress_path_lengths strain stress rotations :
  takes_stress_path strain (Some stress) rotations
  = (length stress =? length strain)%nat.
Proof.
  unfold takes_stress_path. rewrite augment_strain_length.
  pose proof (reduce_rotations_length_pos rotations) as Hpos.
  set (u := length (reduce_rotations rotations)) in *.
  destruct (length stress =? length strain)%nat eqn:E.
  - apply Nat.eqb_eq in E. apply Nat.eqb_eq. rewrite E. apply Nat.mul_comm.
  - apply Nat.eqb_neq in E. apply Nat.eqb_neq. nia.
Qed.

(** The test of line 112 compares the lengths of energy, volume and
    strain. *)
Lemma energy_data_fits_lengths strain energy volume rotations :
  energy_data_fits strain (Some energy) (Some volume) rotations
  = ((length energy =? length strain)%nat
     && (length energy =? length volume)%nat)%bool.
Proof.
  unfold energy_data_fits. rewrite augment_strain_length. f_equal.
  pose proof (reduce_rotations_length_pos rotations) as Hpos.
  set (u := length (reduce_rotations rotations)) in *.
  destruct (length energy =? length strain)%nat eqn:E.
  - apply Nat.eqb_eq in E. apply Nat.eqb_eq. rewrite E. apply Nat.mul_comm.
  - apply Nat.eqb_neq in E. apply Nat.eqb_neq. nia.
Qed.

Section PathTheorems.
Context `{External}.

(** X5: stress takes priority.  When stress has one entry per strain,
    whatever the rotations, the call succeeds with the stress-based fit
    and energy and volume play no part. *)
Theorem stress_takes_priority
        strain stress energy volume rotations return_score :
  strain <> [] ->
  length stress = length strain ->
  calc_elastic_tensor strain (Some stress) energy volume rotations return_score
  = calc_elastic_tensor strain (Some stress) None None rotations return_score
  /\ exists C score,
       calc_elastic_tensor strain (Some stress) energy volume rotations
         return_score = inr (C, score).
Proof.
  intros Hne Hlen.
  assert (Hp : takes_stress_path strain (Some stress) rotations = true).
  { rewrite takes_stress_path_lengths. now apply Nat.eqb_eq. }
  rewrite !(calc_elastic_tensor_stress_path _ _ stress _ _ _ _ Hne eq_refl Hp).
  split; [reflexivity |]. cbv zeta. eexists. eexists. reflexivity.
Qed.

(** X6: stress with another number of entries than strain is passed
    over without an error: the call behaves as if no stress had been
    given. *)
Theorem stress_of_other_length_ignored
        strain stress energy volume rotations return_score :
  length stress <> length strain ->
  calc_elastic_tensor strain (Some stress) energy volume rotations return_score
  = calc_elastic_tensor strain None energy volume rotations return_score.
Proof.
  intros Hlen.
  assert (Hp : takes_stress_path strain (Some stress) rotations = false).
  { rewrite takes_stress_path_lengths. now apply Nat.eqb_neq. }
  unfold calc_elastic_tensor. destruct (length strain =? 0)%nat; [reflexivity |].
  cbv zeta. unfold takes_stress_path in Hp. rewrite Hp. reflexivity.
Qed.

(** X7: for a non-empty strain list the error "You have to provide
    either strain and stress, or strain, energy and volume of same
    length." is raised exactly when stress is missing or differs in
    length from strain, and energy or volume is missing or they do not
    both have the length of strain. *)
Theorem input_mismatch_iff_lengths
        strain stress energy volume rotations return_score :
  strain <> [] ->
  calc_elastic_tensor strain stress energy volume rotations return_score
  = inl InputMismatch
  <-> (forall st, stress = Some st -> length st <> length strain)
      /\ (forall en vol, energy = Some en -> volume = Some vol ->
            length en <> length strain \/ length en <> length vol).
Proof.
  intros Hne.
  rewrite (calc_elastic_tensor_InputMismatch_iff _ _ _ _ _ _ Hne).
  split.
  - intros [Hp He]. split.
    + intros st ->. rewrite takes_stress_path_lengths in Hp.
      now apply Nat.eqb_neq.
    + intros en vol -> ->. rewrite energy_data_fits_lengths in He.
      apply andb_false_iff in He as [He | He]; apply Nat.eqb_neq in He; auto.
  - intros [Hs He]. split.
    + destruct stress as [st |]; [| reflexivity].
      rewrite takes_stress_path_lengths. apply Nat.eqb_neq. now apply Hs.
    + destruct energy as [en |], volume as [vol |]; try reflexivity.
      rewrite energy_data_fits_lengths. apply andb_false_iff.
      destruct (He en vol eq_refl eq_refl) as [Hl | Hl];
        [left | right]; now apply Nat.eqb_neq.
Qed.

(** X8: asking for the score changes neither the tensor nor the
    error. *)
Theorem return_score_keeps_tensor strain stress energy volume rotations :
  match calc_elastic_tensor strain stress energy volume rotations true,
        calc_elastic_tensor strain stress energy volume rotations false with
  | inr (C, Some _), inr (C', None) => C = C'
  | inl e, inl e' => e = e'
  | _, _ => False
  end.
Proof.
  destruct strain as [|s strain'] eqn:Es; [reflexivity |].
  assert (Hne : s :: strain' <> []) by discriminate.
  destruct (takes_stress_path (s :: strain') stress rotations) eqn:Hp.
  - destruct stress as [st |]; [| discriminate Hp].
    rewrite !(calc_elastic_tensor_stress_path _ _ st _ _ _ _ Hne eq_refl Hp).
    reflexivity.
  - destruct (energy_data_fits (s :: strain') energy volume rotations) eqn:He.
    + assert (Hev : exists en vol, energy = Some en /\ volume = Some vol).
      { unfold energy_data_fits in He.
        destruct energy as [en |], volume as [vol |]; try discriminate He.
        now exists en, vol. }
      destruct Hev as (en & vol & Een & Evol).
      rewrite !(calc_elastic_tensor_energy_path
                  _ _ _ en _ vol _ _ Hne Een Evol Hp He).
      cbv zeta.
      destruct (_fit_coeffs_with_energies _ _ _ _) as [e | [coeff sc]];
        reflexivity.
    + rewrite !(calc_elastic_tensor_mismatch _ _ _ _ _ _ Hne Hp He).
      reflexivity.
Qed.
End PathTheorems.

Lemma stress_takes_priority_witness :
  calc_elastic_tensor [uniaxial_x 1; uniaxial_x 2]
    (Some [uniaxial_x 1; uniaxial_x 1]) (Some [1; 4]%Q) (Some [2; 2]%Q)
    (Some [rot90_z]) true
  = calc_elastic_tensor [uniaxial_x 1; uniaxial_x 2]
      (Some [uniaxial_x 1; uniaxial_x 1]) None None (Some [rot90_z]) true
  /\ exists C score,
       calc_elastic_tensor [uniaxial_x 1; uniaxial_x 2]
         (Some [uniaxial_x 1; uniaxial_x 1]) (Some [1; 4]%Q) (Some [2; 2]%Q)
         (Some [rot90_z]) true = inr (C, score).
Proof.
  apply (stress_takes_priority [uniaxial_x 1; uniaxial_x 2]
           [uniaxial_x 1; uniaxial_x 1]); [discriminate | reflexivity].
Defined.

Lemma stress_of_other_length_ignored_witness :
  calc_elastic_tensor [uniaxial_x 1; uniaxial_x 2]
    (Some [uniaxial_x 1]) (Some [1; 4]%Q) (Some [2; 2]%Q) None false
  = calc_elastic_tensor [uniaxial_x 1; uniaxial_x 2]
      None (Some [1; 4]%Q) (Some [2; 2]%Q) None false.
Proof.
  apply (stress_of_other_length_ignored [uniaxial_x 1; uniaxial_x 2]
           [uniaxial_x 1]). cbn. discriminate.
Defined.

Lemma input_mismatch_iff_lengths_witness :
  calc_elastic_tensor [uniaxial_x 1; uniaxial_x 2]
    (Some [uniaxial_x 1]) (Some [1]%Q) (Some [2; 2]%Q) None false
  = inl InputMismatch
  <-> (forall st, Some [uniaxial_x 1] = Some st ->
         length st <> length [uniaxial_x 1; uniaxial_x 2])
      /\ (forall en vol, Some [1]%Q = Some en -> Some [2; 2]%Q = Some vol ->
            length en <> length [uniaxial_x 1; uniaxial_x 2]
            \/ length en <> length vol).
Proof.
  apply (input_mismatch_iff_lengths [uniaxial_x 1; uniaxial_x 2]).
  discriminate.
Defined.

(** ** Orientations *)

Section OrientationTheorems.
Local Open Scope R_scope.

Lemma sum_squares_scale (s : R) (v : list R) :
  fold_right (fun x acc => x * x + acc) 0 (map (Rmult s) v)
  = s * s * fold_right (fun x acc => x * x + acc) 0 v.
Proof.
  induction v as [|x t IH]; cbn [map fold_right]; [ring |].
  rewrite IH. ring.
Qed.

Lemma sum_squares_nonneg (v : list R) :
  0 <= fold_right (fun x acc => x * x + acc) 0 v.
Proof.
  induction v as [|x t IH]; cbn [fold_right]; [lra |]. nra.
Qed.

Lemma linalg_norm_scale (s : R) (v : list R) :
  0 < s -> linalg_norm (map (Rmult s) v) = s * linalg_norm v.
Proof.
  intros Hs. unfold linalg_norm. rewrite sum_squares_scale.
  rewrite sqrt_mult; [| nra | apply sum_squares_nonneg].
  rewrite sqrt_square; [reflexivity | lra].
Qed.

(** Normalizing a row forgets a positive factor. *)
Lemma normalize_row_scale (s : R) (v : list R) :
  0 < s ->
  map (fun x => x * (1 / linalg_norm (map (Rmult s) v))) (map (Rmult s) v)
  = map (fun x => x * (1 / linalg_norm v)) v.
Proof.
  intros Hs. rewrite (linalg_norm_scale s v Hs), map_map.
  apply map_ext. intros x.
  destruct (Req_dec (linalg_norm v) 0) as [Hz | Hnz].
  - rewrite Hz, Rmult_0_r. unfold Rdiv. rewrite Rinv_0. ring.
  - field. split; lra.
Qed.

(** X9: the orientation need not be orthonormal.  Multiplying the
    three rows of an orientation by positive factors changes neither
    the outcome of the determinant check nor the returned tensor. *)
Theorem orientation_row_scaling (s1 s2 s3 : R) (r1 r2 r3 : list R)
        (elastic_tensor : list (list R)) :
  0 < s1 -> 0 < s2 -> 0 < s3 ->
  get_elastic_tensor_by_orientation
    (scale_rows [s1; s2; s3] [r1; r2; r3]) elastic_tensor
  = get_elastic_tensor_by_orientation [r1; r2; r3] elastic_tensor.
Proof.
  intros H1 H2 H3. unfold get_elastic_tensor_by_orientation.
  assert (E : normalize_rows (scale_rows [s1; s2; s3] [r1; r2; r3])
              = normalize_rows [r1; r2; r3]).
  { unfold normalize_rows, scale_rows. cbn [combine map].
    now rewrite !normalize_row_scale. }
  now rewrite E.
Qed.

Lemma linalg_norm_axis (a : R) (u v : list R) :
  (forall x, In x u -> x = 0) -> (forall x, In x v -> x = 0) ->
  linalg_norm (u ++ a :: v) = Rabs a.
Proof.
  intros Hu Hv. unfold linalg_norm.
  assert (Hz : forall w, (forall x, In x w -> x = 0) ->
                 fold_right (fun x acc => x * x + acc) 0 w = 0).
  { induction w as [|x t IH]; cbn [fold_right]; intros Hw; [reflexivity |].
    rewrite (Hw x (or_introl eq_refl)), IH; [ring |].
    intros y Hy. apply Hw. now right. }
  assert (E : fold_right (fun x acc => x * x + acc) 0 (u ++ a :: v) = Rsqr a).
  { induction u as [|x t IH]; cbn [app fold_right].
    - rewrite (Hz v Hv). unfold Rsqr. ring.
    - rewrite (Hu x (or_introl eq_refl)), IH; [ring |].
      intros y Hy. apply Hu. now right. }
  rewrite E. apply sqrt_Rsqr_abs.
Qed.

Lemma normalize_rows_diagonal (a b c : R) :
  normalize_rows (diagonal_orientation a b c)
  = diagonal_orientation (a * (1 / Rabs a)) (b * (1 / Rabs b)) (c * (1 / Rabs c)).
Proof.
  assert (Hzero : forall w : list R,
             Forall (fun x => x = 0) w -> forall x, In x w -> x = 0)
    by (intros w Hw; now apply Forall_forall).
  assert (Na : linalg_norm [a; 0; 0] = Rabs a)
    by (apply (linalg_norm_axis a [] [0; 0]); apply Hzero; repeat constructor).
  assert (Nb : linalg_norm [0; b; 0] = Rabs b)
    by (apply (linalg_norm_axis b [0] [0]); apply Hzero; repeat constructor).
  assert (Nc : linalg_norm [0; 0; c] = Rabs c)
    by (apply (linalg_norm_axis c [0; 0] []); apply Hzero; repeat constructor).
  unfold normalize_rows, diagonal_orientation. cbn [map].
  rewrite Na, Nb, Nc.
  repeat (f_equal; try ring).
Qed.

(** X10: a diagonal orientation with positive entries, the identity
    among them, returns the 6x6 tensor unchanged. *)
Theorem positive_diagonal_orientation (a b c : R) (C : list (list R)) :
  0 < a -> 0 < b -> 0 < c ->
  Np.has_shape2 6 6 C = true ->
  get_elastic_tensor_by_orientation (diagonal_orientation a b c) C = inr C.
Proof.
  intros Ha Hb Hc Hs. unfold get_elastic_tensor_by_orientation.
  rewrite normalize_rows_diagonal.
  rewrite !Rabs_pos_eq by lra.
  replace (a * (1 / a)) with 1 by (field; lra).
  replace (b * (1 / b)) with 1 by (field; lra).
  replace (c * (1 / c)) with 1 by (field; lra).
  change (diagonal_orientation 1 1 1) with eye3R.
  rewrite linalg_det_eye3R, isclose_refl_1. cbn [negb].
  rewrite (einsum_rotate_eye3R C Hs).
  now rewrite (full_to_voigt_voigt_to_full 0 C Hs).
Qed.

Lemma linalg_det_diagonal (a b c : R) :
  linalg_det (diagonal_orientation a b c) = a * b * c.
Proof. cbv -[Rplus Rmult Rminus IZR]. ring. Qed.

(** X11: a diagonal orientation whose entries have a negative product
    (a mirror image, such as [diag(1,1,-1)]) is rejected with
    "orientation must be an orthogonal 3x3 tensor": after the rows are
    normalized its determinant is -1. *)
Theorem mirror_orientation_rejected (a b c : R) (C : list (list R)) :
  a * b * c < 0 ->
  get_elastic_tensor_by_orientation (diagonal_orientation a b c) C
  = inl InvalidOrientation.
Proof.
  intros Hneg. unfold get_elastic_tensor_by_orientation.
  rewrite normalize_rows_diagonal, linalg_det_diagonal.
  assert (Ha : a <> 0) by (intros ->; lra).
  assert (Hb : b <> 0) by (intros ->; lra).
  assert (Hc : c <> 0) by (intros ->; lra).
  assert (Hdet : a * (1 / Rabs a) * (b * (1 / Rabs b)) * (c * (1 / Rabs c))
                 = -1).
  { assert (Habs : Rabs (a * b * c) = - (a * b * c))
      by (apply Rabs_left; exact Hneg).
    rewrite !Rabs_mult in Habs.
    pose proof (Rabs_pos_lt a Ha). pose proof (Rabs_pos_lt b Hb).
    pose proof (Rabs_pos_lt c Hc).
    replace (a * (1 / Rabs a) * (b * (1 / Rabs b)) * (c * (1 / Rabs c)))
      with ((a * b * c) / (Rabs a * Rabs b * Rabs c)) by (field; lra).
    rewrite Habs. field. lra. }
  rewrite Hdet. unfold isclose.
  destruct (Rle_dec _ _) as [Hle | _]; [| reflexivity].
  exfalso. replace (-1 - 1) with (-2) in Hle by ring.
  rewrite Rabs_left in Hle by lra. rewrite Rabs_R1 in Hle. lra.
Qed.
End OrientationTheorems.

Lemma orientation_row_scaling_witness :
  get_elastic_tensor_by_orientation
    (scale_rows [2; 3; 5]%R [[1; 1; 0]; [-1; 1; 0]; [0; 0; 1]]%R) numbered_6x6_R
  = get_elastic_tensor_by_orientation
      [[1; 1; 0]; [-1; 1; 0]; [0; 0; 1]]%R numbered_6x6_R.
Proof.
  apply (orientation_row_scaling 2 3 5); lra.
Defined.

Lemma positive_diagonal_orientation_witness :
  get_elastic_tensor_by_orientation (diagonal_orientation 2 3 4) numbered_6x6_R
  = inr numbered_6x6_R.
Proof.
  apply (positive_diagonal_orientation 2 3 4 numbered_6x6_R);
    [lra | lra | lra | reflexivity].
Defined.

Lemma mirror_orientation_rejected_witness :
  get_elastic_tensor_by_orientation (diagonal_orientation 1 1 (-1)) numbered_6x6_R
  = inl InvalidOrientation.
Proof.
  apply (mirror_orientation_rejected 1 1 (-1) numbered_6x6_R). lra.
Defined.

(** ** Symmetries of the expanded and of the rotated tensor *)

Lemma has_shape2_3x3 {A} (m : list (list A)) :
  Np.has_shape2 3 3 m = true ->
  exists a0 a1 a2 b0 b1 b2 c0 c1 c2,
    m = [[a0; a1; a2]; [b0; b1; b2]; [c0; c1; c2]].
Proof.
  unfold Np.has_shape2. intros H.
  apply andb_prop in H as [Hl Hr]. apply Nat.eqb_eq in Hl.
  do 4 (destruct m as [|? m]; try discriminate Hl). clear Hl.
  cbn [forallb] in Hr.
  repeat match goal with
         | H : (_ && _)%bool = true |- _ => apply andb_prop in H as [? H]
         end.
  repeat match goal with
         | H : (length ?r =? 3)%nat = true |- _ =>
             apply Nat.eqb_eq in H;
             do 4 (destruct r as [|? r]; try discriminate H); clear H
         end.
  repeat eexists.
Qed.

Lemma normalize_rows_shape (o : list (list R)) :
  Np.has_shape2 3 3 o = true -> Np.has_shape2 3 3 (normalize_rows o) = true.
Proof.
  intros H. destruct (has_shape2_3x3 o H)
    as (a0 & a1 & a2 & b0 & b1 & b2 & c0 & c1 & c2 & ->).
  reflexivity.
Qed.

Ltac split_range6 H :=
  match type of H with
  | 0 <= ?i < 6 =>
      let E := fresh in
      assert (E : i = 0 \/ i = 1 \/ i = 2 \/ i = 3 \/ i = 4 \/ i = 5) by lia;
      clear H; destruct E as [E | [E | [E | [E | [E | E]]]]]; subst i
  end.

Section RotatedSymmetry.
Local Open Scope R_scope.

Lemma rotated_tensor_symmetric (n C : list (list R)) (i j : Z) :
  Np.has_shape2 3 3 n = true ->
  Np.has_shape2 6 6 C = true ->
  symmetric_6x6 0 C ->
  (0 <= i < 6)%Z -> (0 <= j < 6)%Z ->
  Np.get2 0 (full_to_voigt 0 C (einsum_rotate n (voigt_to_full 0 C))) i j
  = Np.get2 0 (full_to_voigt 0 C (einsum_rotate n (voigt_to_full 0 C))) j i.
Proof.
  intros Hn Hs Hsym Hi Hj.
  destruct (has_shape2_3x3 n Hn)
    as (n00 & n01 & n02 & n10 & n11 & n12 & n20 & n21 & n22 & ->).
  destruct (has_shape2_6x6 _ Hs) as
    (a0 & a1 & a2 & a3 & a4 & a5 & b0 & b1 & b2 & b3 & b4 & b5 &
     c0 & c1 & c2 & c3 & c4 & c5 & d0 & d1 & d2 & d3 & d4 & d5 &
     e0 & e1 & e2 & e3 & e4 & e5 & f0 & f1 & f2 & f3 & f4 & f5 & ->).
  pose proof (Hsym 0 1 ltac:(lia) ltac:(lia))%Z as S01.
  pose proof (Hsym 0 2 ltac:(lia) ltac:(lia))%Z as S02.
  pose proof (Hsym 0 3 ltac:(lia) ltac:(lia))%Z as S03.
  pose proof (Hsym 0 4 ltac:(lia) ltac:(lia))%Z as S04.
  pose proof (Hsym 0 5 ltac:(lia) ltac:(lia))%Z as S05.
  pose proof (Hsym 1 2 ltac:(lia) ltac:(lia))%Z as S12.
  pose proof (Hsym 1 3 ltac:(lia) ltac:(lia))%Z as S13.
  pose proof (Hsym 1 4 ltac:(lia) ltac:(lia))%Z as S14.
  pose proof (Hsym 1 5 ltac:(lia) ltac:(lia))%Z as S15.
  pose proof (Hsym 2 3 ltac:(lia) ltac:(lia))%Z as S23.
  pose proof (Hsym 2 4 ltac:(lia) ltac:(lia))%Z as S24.
  pose proof (Hsym 2 5 ltac:(lia) ltac:(lia))%Z as S25.
  pose proof (Hsym 3 4 ltac:(lia) ltac:(lia))%Z as S34.
  pose proof (Hsym 3 5 ltac:(lia) ltac:(lia))%Z as S35.
  pose proof (Hsym 4 5 ltac:(lia) ltac:(lia))%Z as S45.
  cbv -[Rplus Rmult Rminus IZR] in S01, S02, S03, S04, S05, S12, S13, S14,
    S15, S23, S24, S25, S34, S35, S45.
  subst. clear Hsym Hn Hs.
  split_range6 Hi; split_range6 Hj; try reflexivity;
    cbv -[Rplus Rmult Rminus IZR]; ring.
Qed.
End RotatedSymmetry.

(** X12: rotating a symmetric 6x6 tensor gives a symmetric 6x6 tensor:
    whenever the orientation (3x3) is accepted, the returned tensor
    satisfies [T[i,j] = T[j,i]]. *)
Theorem rotated_tensor_is_symmetric
        (orientation C T : list (list R)) (i j : Z) :
  Np.has_shape2 3 3 orientation = true ->
  Np.has_shape2 6 6 C = true ->
  symmetric_6x6 0%R C ->
  get_elastic_tensor_by_orientation orientation C = inr T ->
  0 <= i < 6 -> 0 <= j < 6 ->
  Np.get2 0%R T i j = Np.get2 0%R T j i.
Proof.
  intros Ho Hs Hsym Hget Hi Hj.
  unfold get_elastic_tensor_by_orientation in Hget.
  destruct (negb (isclose _ _)); [discriminate Hget |].
  injection Hget as <-.
  apply rotated_tensor_symmetric; auto using normalize_rows_shape.
Qed.

Lemma normalize_rows_quarter_turn :
  normalize_rows quarter_turn_scaled_R = quarter_turn_R.
Proof.
  assert (Hzero : forall w : list R,
             Forall (fun x => x = 0%R) w -> forall x, In x w -> x = 0%R)
    by (intros w Hw; now apply Forall_forall).
  assert (Na : linalg_norm [0; -2; 0]%R = 2%R).
  { transitivity (Rabs (-2)).
    - apply (linalg_norm_axis (-2) [0%R] [0%R]); apply Hzero;
        repeat constructor.
    - rewrite Rabs_left by lra. lra. }
  assert (Nb : linalg_norm [3; 0; 0]%R = 3%R).
  { transitivity (Rabs 3).
    - apply (linalg_norm_axis 3 [] [0%R; 0%R]); apply Hzero;
        repeat constructor.
    - apply Rabs_right. lra. }
  assert (Nc : linalg_norm [0; 0; 1]%R = 1%R).
  { transitivity (Rabs 1).
    - apply (linalg_norm_axis 1 [0%R; 0%R] []); apply Hzero;
        repeat constructor.
    - apply Rabs_right. lra. }
  unfold normalize_rows, quarter_turn_scaled_R, quarter_turn_R.
  cbn [map]. rewrite Na, Nb, Nc.
  repeat (f_equal; try lra).
Qed.

Lemma rotated_tensor_is_symmetric_witness :
  exists T,
    get_elastic_tensor_by_orientation quarter_turn_scaled_R symmetric_numbered_R
    = inr T
    /\ Np.get2 0%R T 0 0 = 3%R
    /\ Np.get2 0%R T 0 4 = Np.get2 0%R T 4 0.
Proof.
  assert (Hget : get_elastic_tensor_by_orientation quarter_turn_scaled_R
                   symmetric_numbered_R
                 = inr (full_to_voigt 0%R symmetric_numbered_R
                          (einsum_rotate quarter_turn_R
                             (voigt_to_full 0%R symmetric_numbered_R)))).
  { unfold get_elastic_tensor_by_orientation.
    rewrite normalize_rows_quarter_turn.
    assert (Hdet : linalg_det quarter_turn_R = 1%R)
      by (cbv -[Rplus Rmult Rminus Ropp IZR]; ring).
    rewrite Hdet, isclose_refl_1. reflexivity. }
  eexists. split; [exact Hget |]. split.
  - cbv -[Rplus Rmult Rminus Ropp IZR]. ring.
  - apply (rotated_tensor_is_symmetric quarter_turn_scaled_R
             symmetric_numbered_R _ 0 4).
    + reflexivity.
    + reflexivity.
    + intros i j Hi Hj. split_range6 Hi; split_range6 Hj; reflexivity.
    + exact Hget.
    + lia.
    + lia.
Defined.

Section ExpansionSymmetry.
Context {A : Type} (zero : A).

(** X13: the expanded 3x3x3x3 tensor has the minor symmetries: its
    entries do not change when the first two or the last two indices
    are swapped. *)
Theorem voigt_to_full_minor_symmetries
        (elastic_tensor : list (list A)) (i j k l : Z) :
  Np.has_shape2 6 6 elastic_tensor = true ->
  0 <= i < 3 -> 0 <= j < 3 -> 0 <= k < 3 -> 0 <= l < 3 ->
  Np.get4 zero (voigt_to_full zero elastic_tensor) i j k l
  = Np.get4 zero (voigt_to_full zero elastic_tensor) j i k l
  /\ Np.get4 zero (voigt_to_full zero elastic_tensor) i j k l
     = Np.get4 zero (voigt_to_full zero elastic_tensor) i j l k.
Proof.
  intros Hs Hi Hj Hk Hl.
  destruct (has_shape2_6x6 _ Hs) as
    (a0 & a1 & a2 & a3 & a4 & a5 & b0 & b1 & b2 & b3 & b4 & b5 &
     c0 & c1 & c2 & c3 & c4 & c5 & d0 & d1 & d2 & d3 & d4 & d5 &
     e0 & e1 & e2 & e3 & e4 & e5 & f0 & f1 & f2 & f3 & f4 & f5 & ->).
  split_range Hi; split_range Hj; split_range Hk; split_range Hl;
    split; reflexivity.
Qed.
End ExpansionSymmetry.

Lemma voigt_to_full_minor_symmetries_witness :
  Np.get4 0 (voigt_to_full 0 numbered_6x6) 1 2 0 1
  = Np.get4 0 (voigt_to_full 0 numbered_6x6) 2 1 0 1
  /\ Np.get4 0 (voigt_to_full 0 numbered_6x6) 1 2 0 1
     = Np.get4 0 (voigt_to_full 0 numbered_6x6) 1 2 1 0.
Proof.
  apply (voigt_to_full_minor_symmetries 0 numbered_6x6 1 2 0 1);
    [reflexivity | lia ..].
Defined.

(** ** Elastic constants *)

Section ConstantsFacts.
Local Open Scope Q_scope.

Lemma Qeq_bool_false (x : Q) : ~ x == 0 -> Qeq_bool x 0 = false.
Proof.
  intros Hx. destruct (Qeq_bool x 0) eqn:E; [| reflexivity].
  apply Qeq_bool_iff in E. contradiction.
Qed.

Lemma Qeq_bool_true (x : Q) : x == 0 -> Qeq_bool x 0 = true.
Proof. intros Hx. now apply Qeq_bool_iff. Qed.

Lemma det3_cubic (c11 c12 c44 : Q) :
  Constants.det3 (Constants.upper_left (cubic_tensor c11 c12 c44))
  == (c11 - c12) * (c11 - c12) * (c11 + 2 * c12).
Proof. cbv -[Qplus Qmult Qminus Qopp Qeq]. ring. Qed.

Lemma det3_cubic_nonzero (c11 c12 c44 : Q) :
  ~ c11 == c12 -> ~ c11 + 2 * c12 == 0 ->
  ~ Constants.det3 (Constants.upper_left (cubic_tensor c11 c12 c44)) == 0.
Proof.
  intros H1 H2. rewrite det3_cubic. intros E.
  apply Qmult_integral in E as [E | E]; [| contradiction].
  apply Qmult_integral in E as [E | E]; apply H1; Lqa.lra.
Qed.


(** X15: for a cubic tensor with [c11 <> c12], [c11 <> -2 c12] and
    [c11 <> -c12] the constants are the textbook ones:
    the "lame_coefficient" is [c11], the shear modulus [c44], the bulk
    modulus [(c11 + 2 c12)/3], Young's modulus
    [(c11 - c12)(c11 + 2 c12)/(c11 + c12)], Poisson's ratio
    [c12/(c11 + c12)] and the Zener ratio [2 c44/(c11 - c12)]. *)
Theorem cubic_constants (c11 c12 c44 : Q) :
  ~ c11 == c12 -> ~ c11 + 2 * c12 == 0 -> ~ c11 + c12 == 0 ->
  exists r E nu z,
    calc_elastic_constants (cubic_tensor c11 c12 c44) = inr r
    /\ elastic_tensor r = cubic_tensor c11 c12 c44
    /\ lame_coefficient r == c11
    /\ shear_modulus r == c44
    /\ bulk_modulus r == (c11 + 2 * c12) / 3
    /\ youngs_modulus r = Some E
    /\ E == (c11 - c12) * (c11 + 2 * c12) / (c11 + c12)
    /\ poissons_ratio r = Some nu
    /\ nu == c12 / (c11 + c12)
    /\ zener_ratio r = Some z
    /\ z == 2 * c44 / (c11 - c12).
Proof.
  intros H1 H2 H3.
  pose proof (det3_cubic_nonzero c11 c12 c44 H1 H2) as Hdet.
  pose proof (det3_cubic c11 c12 c44) as Edet.
  assert (H1' : ~ c11 - c12 == 0) by (intros E; apply H1; Lqa.lra).
  unfold calc_elastic_constants, Constants.inv3.
  rewrite (Qeq_bool_false _ Hdet).
  set (d := Constants.det3 _) in *.
  match goal with
  | |- context [Constants.divide 1 ?m] =>
      assert (Hm : m == (c11 + c12) / ((c11 - c12) * (c11 + 2 * c12)));
      [| assert (Hmz : Qeq_bool m 0 = false); [| set (mm := m) in * ] ]
  end.
  { cbv -[Qplus Qmult Qminus Qopp Qdiv Qinv Qeq Qeq_bool d].
    rewrite Edet. field. repeat split; assumption. }
  { apply Qeq_bool_false. rewrite Hm. intros E. apply H3.
    setoid_replace (c11 + c12)
      with ((c11 + c12) / ((c11 - c12) * (c11 + 2 * c12))
            * ((c11 - c12) * (c11 + 2 * c12)))
      by (field; split; assumption).
    rewrite E. ring. }
  match goal with
  | |- context [Constants.divide (12 * ?n) ?q] =>
      assert (Hq : q == 6 * (c11 - c12))
        by (cbv -[Qplus Qmult Qminus Qopp Qdiv Qinv Qeq Qeq_bool d]; ring);
      assert (Hqz : Qeq_bool q 0 = false)
        by (apply Qeq_bool_false; rewrite Hq; intros E; apply H1'; Lqa.lra);
      set (qq := q) in *
  end.
  unfold Constants.divide. rewrite Hmz, Hqz. cbn [option_map].
  do 4 eexists.
  split; [reflexivity |].
  cbn [elastic_tensor lame_coefficient shear_modulus bulk_modulus
       youngs_modulus poissons_ratio zener_ratio].
  split; [reflexivity |].
  split; [cbv -[Qplus Qmult Qminus Qopp Qdiv Qinv Qeq]; field |].
  split; [cbv -[Qplus Qmult Qminus Qopp Qdiv Qinv Qeq]; field |].
  split; [cbv -[Qplus Qmult Qminus Qopp Qdiv Qinv Qeq]; field |].
  split; [reflexivity |].
  split; [rewrite Hm; field; repeat split; assumption |].
  split; [reflexivity |].
  split.
  - rewrite Hm.
    cbv -[Qplus Qmult Qminus Qopp Qdiv Qinv Qeq Qeq_bool d].
    rewrite Edet. field. repeat split; assumption.
  - split; [reflexivity |].
    rewrite Hq. cbv -[Qplus Qmult Qminus Qopp Qdiv Qinv Qeq]. field.
    assumption.
Qed.

End ConstantsFacts.

Lemma cubic_constants_witness :
  exists r E nu z,
    calc_elastic_constants (cubic_tensor 3 1 1) = inr r
    /\ elastic_tensor r = cubic_tensor 3 1 1
    /\ (lame_coefficient r == 3)%Q
    /\ (shear_modulus r == 1)%Q
    /\ (bulk_modulus r == (3 + 2 * 1) / 3)%Q
    /\ youngs_modulus r = Some E
    /\ (E == (3 - 1) * (3 + 2 * 1) / (3 + 1))%Q
    /\ poissons_ratio r = Some nu
    /\ (nu == 1 / (3 + 1))%Q
    /\ zener_ratio r = Some z
    /\ (z == 2 * 1 / (3 - 1))%Q.
Proof.
  apply (cubic_constants 3 1 1); discriminate.
Defined.


(** ** The float quotient of two integers *)

Section Binary64Facts.
Local Open Scope Q_scope.

Lemma rint_close (s : Q) :
  - (1 # 2) <= inject_Z (Np.rint s) - s <= 1 # 2.
Proof.
  unfold Np.rint.
  pose proof (Qfloor_le s) as Hlo. pose proof (Qlt_floor s) as Hhi.
  rewrite inject_Z_plus in Hhi. change (inject_Z 1) with 1 in Hhi.
  set (f := Qfloor s) in *.
  destruct (Qcompare (s - inject_Z f) (1 # 2)) eqn:E.
  - apply Qeq_alt in E.
    destruct (Z.even f); [| rewrite inject_Z_plus; change (inject_Z 1) with 1];
      split; Lqa.lra.
  - apply Qlt_alt in E. split; Lqa.lra.
  - apply Qgt_alt in E. rewrite inject_Z_plus. change (inject_Z 1) with 1.
    split; Lqa.lra.
Qed.

Lemma rint_integer (s : Q) (k : Z) : s == inject_Z k -> Np.rint s = k.
Proof.
  intros Hs. unfold Np.rint.
  assert (Hf : Qfloor s = k) by (rewrite Hs; apply Qfloor_Z).
  rewrite Hf.
  destruct (Qcompare (s - inject_Z k) (1 # 2)) eqn:E; [| reflexivity |].
  - apply Qeq_alt in E. exfalso. rewrite Hs in E.
    assert (E' : 0 == 1 # 2) by (rewrite <- E; ring). discriminate E'.
  - apply Qgt_alt in E. exfalso. rewrite Hs in E.
    assert (E' : 1 # 2 < 0) by (eapply Qlt_le_trans; [exact E |]; Lqa.lra).
    discriminate E'.
Qed.

Lemma pow2_pos (z : Z) : 0 < 2 ^ z.
Proof. now apply Qpower.Qpower_0_lt. Qed.

Lemma pow2_succ (z : Z) : 2 ^ (z + 1) == 2 * 2 ^ z.
Proof. rewrite Qpower.Qpower_plus by discriminate. rewrite Qpower.Qpower_1_r. ring. Qed.

Lemma pow2_pred (z : Z) : 2 * 2 ^ (z - 1) == 2 ^ z.
Proof.
  rewrite <- pow2_succ. now replace (z - 1 + 1)%Z with z by lia.
Qed.

Lemma pow2_le (n m : Z) : (n <= m)%Z -> 2 ^ n <= 2 ^ m.
Proof. intros H. apply Qpower.Qpower_le_compat_l; [exact H | discriminate]. Qed.

Lemma pow2_lt (n m : Z) : (n < m)%Z -> 2 ^ n < 2 ^ m.
Proof. intros H. apply Qpower.Qpower_lt_compat_l; [exact H | reflexivity]. Qed.

Lemma pow2_lt_inv (n m : Z) : 2 ^ n < 2 ^ m -> (n < m)%Z.
Proof. intros H. eapply Qpower.Qpower_lt_compat_l_inv; [exact H | reflexivity]. Qed.

Lemma pow2_inject (k : Z) : (0 <= k)%Z -> inject_Z (2 ^ k) == 2 ^ k.
Proof. intros H. now rewrite Qpower.Zpower_Qpower. Qed.

(** The power of two at or below a positive rational [n / d]. *)
Lemma exponent_spec (n : Z) (d : positive) :
  (0 < n)%Z ->
  let a := n # d in
  let e0 := (Z.log2 n - Z.log2 (Z.pos d))%Z in
  let e := if Qle_bool (2 ^ e0) a then e0 else (e0 - 1)%Z in
  2 ^ e <= a /\ a < 2 ^ (e + 1).
Proof.
  intros Hn a e0 e.
  destruct (Z.log2_spec n Hn) as [Hn1 Hn2].
  destruct (Z.log2_spec (Z.pos d) (Pos2Z.is_pos d)) as [Hd1 Hd2].
  pose proof (Z.log2_nonneg n) as Ln. pose proof (Z.log2_nonneg (Z.pos d)) as Ld.
  set (ln := Z.log2 n) in *. set (ld := Z.log2 (Z.pos d)) in *.
  assert (Ha : a == inject_Z n / inject_Z (Z.pos d))
    by (unfold a; apply Qmake_Qdiv).
  assert (Hdpos : 0 < inject_Z (Z.pos d)) by reflexivity.
  assert (Qn1 : 2 ^ ln <= inject_Z n)
    by (rewrite <- pow2_inject by exact Ln; now rewrite <- Zle_Qle).
  assert (Qn2 : inject_Z n < 2 * 2 ^ ln).
  { rewrite <- pow2_succ, <- pow2_inject by lia. now rewrite <- Zlt_Qlt. }
  assert (Qd1 : 2 ^ ld <= inject_Z (Z.pos d))
    by (rewrite <- pow2_inject by exact Ld; now rewrite <- Zle_Qle).
  assert (Qd2 : inject_Z (Z.pos d) < 2 * 2 ^ ld).
  { rewrite <- pow2_succ, <- pow2_inject by lia. now rewrite <- Zlt_Qlt. }
  assert (E0 : 2 ^ e0 * 2 ^ ld == 2 ^ ln).
  { unfold e0. rewrite <- Qpower.Qpower_plus by discriminate.
    now replace (ln - ld + ld)%Z with ln by lia. }
  pose proof (pow2_pos ln) as Pln. pose proof (pow2_pos ld) as Pld.
  pose proof (pow2_pos e0) as Pe0.
  assert (Ham : a * inject_Z (Z.pos d) == inject_Z n)
    by (rewrite Ha; field; intros E; rewrite E in Hdpos; discriminate Hdpos).
  assert (Hapos : 0 < a) by (unfold a; unfold Qlt; cbn; lia).
  set (D := inject_Z (Z.pos d)) in *. set (N := inject_Z n) in *.
  set (P := 2 ^ e0) in *. set (L := 2 ^ ld) in *. set (M := 2 ^ ln) in *.
  (* P / 2 < a < 2 P *)
  assert (Hup : a < 2 * P).
  { apply Qnot_le_lt. intros Hc.
    assert (2 * P * L <= a * D) by Lqa.nra. Lqa.nra. }
  assert (Hlo : P < 2 * a).
  { apply Qnot_le_lt. intros Hc.
    assert (2 * a * D <= P * (2 * L)) by Lqa.nra. Lqa.nra. }
  unfold e. destruct (Qle_bool P a) eqn:Eb.
  - apply Qle_bool_iff in Eb. split; [exact Eb |].
    fold P. rewrite pow2_succ. exact Hup.
  - assert (Hlt : a < P).
    { apply Qnot_le_lt. intros Hc. apply Qle_bool_iff in Hc. congruence. }
    replace (e0 - 1 + 1)%Z with e0 by lia. split; [| exact Hlt].
    pose proof (pow2_pred e0) as Hp. fold P in Hp.
    Lqa.lra.
Qed.

Lemma Qceiling_unique (y : Q) (c : Z) :
  inject_Z (c - 1) < y -> y <= inject_Z c -> Qceiling y = c.
Proof.
  intros Hlo Hhi.
  pose proof (Qle_ceiling y) as H1. pose proof (Qceiling_lt y) as H2.
  assert (L1 : inject_Z (Qceiling y - 1) < inject_Z c)
    by (eapply Qlt_le_trans; eassumption).
  assert (L2 : inject_Z (c - 1) < inject_Z (Qceiling y))
    by (eapply Qlt_le_trans; eassumption).
  rewrite <- Zlt_Qlt in L1, L2. lia.
Qed.

Lemma Qabs_make (x : Q) : Qabs x = Z.abs (Qnum x) # Qden x.
Proof. now destruct x. Qed.

Lemma Qabs_num_pos (x : Q) : 0 < Qabs x -> (0 < Z.abs (Qnum x))%Z.
Proof. destruct x as [n d]. unfold Qlt. cbn. lia. Qed.

(** The float quotient of two integers has the ceiling of the exact
    quotient, as long as the numerator is below [2 ^ 53] in absolute
    value (the denominator is the length of a list, below [2 ^ 63]). *)
Lemma binary64_integer_quotient (p r : Z) :
  (Z.abs p < 2 ^ 53)%Z -> (1 <= r < 2 ^ 63)%Z ->
  exists q,
    binary64 (inject_Z p / inject_Z r) = Some q
    /\ Qceiling q = Qceiling (inject_Z p / inject_Z r).
Proof.
  intros Hp Hr.
  set (x := inject_Z p / inject_Z r).
  assert (Hrq : 0 < inject_Z r)
    by (change 0 with (inject_Z 0); rewrite <- Zlt_Qlt; lia).
  assert (Hrnz : ~ inject_Z r == 0)
    by (intros E; rewrite E in Hrq; discriminate Hrq).
  assert (Hxr : x * inject_Z r == inject_Z p) by (unfold x; now field).
  unfold binary64. cbv zeta.
  destruct (Qeq_bool (Qabs x) 0) eqn:Ez.
  { (* the quotient is zero *)
    exists 0. split; [reflexivity |].
    apply Qeq_bool_iff in Ez.
    assert (Hx0 : x == 0).
    { destruct (Qabs_Qle_condition x 0) as [Hc _].
      destruct Hc as [H1 H2]; [rewrite Ez; apply Qle_refl |]. Lqa.lra. }
    now rewrite Hx0. }
  assert (Hanz : ~ Qabs x == 0).
  { intros E. apply Qeq_bool_iff in E. congruence. }
  assert (Hapos : 0 < Qabs x).
  { pose proof (Qabs_nonneg x). apply Qnot_le_lt. intros Hc.
    apply Hanz. Lqa.lra. }
  assert (Hnum : (0 < Z.abs (Qnum x))%Z).
  { now apply Qabs_num_pos. }
  pose proof (exponent_spec (Z.abs (Qnum x)) (Qden x) Hnum) as He.
  cbv zeta in He. rewrite <- Qabs_make in He.
  set (e := if Qle_bool _ _ then _ else _) in *.
  set (a := Qabs x) in *.
  destruct He as [He1 He2].
  (* a = |p| / r *)
  assert (Har : a * inject_Z r == inject_Z (Z.abs p)).
  { unfold a. rewrite <- (Qabs_pos (inject_Z r)) by now apply Qlt_le_weak.
    rewrite <- Qabs_Qmult, Hxr.
    unfold Qabs, inject_Z. reflexivity. }
  assert (Hp1 : 1 <= inject_Z (Z.abs p)).
  { change 1 with (inject_Z 1). rewrite <- Zle_Qle.
    assert (Hpnz : Z.abs p <> 0%Z).
    { intros E. apply Hanz. fold a.
      rewrite E in Har. change (inject_Z 0) with 0 in Har.
      apply Qmult_integral in Har. destruct Har as [H0 | H0];
        [exact H0 | contradiction]. }
    lia. }
  assert (Hp2 : inject_Z (Z.abs p) + 1 <= 2 ^ 53).
  { change 1 with (inject_Z 1). rewrite <- inject_Z_plus.
    rewrite <- pow2_inject by lia. rewrite <- Zle_Qle. lia. }
  assert (Hr1 : 1 <= inject_Z r)
    by (change 1 with (inject_Z 1); rewrite <- Zle_Qle; lia).
  assert (Hr2 : inject_Z r <= 2 ^ 63)
    by (rewrite <- pow2_inject by lia; rewrite <- Zle_Qle; lia).
  set (R := inject_Z r) in *. set (P := inject_Z (Z.abs p)) in *.
  (* -64 < e < 53 *)
  assert (Ee1 : (e < 53)%Z).
  { apply pow2_lt_inv. eapply Qle_lt_trans; [exact He1 |].
    apply Qnot_le_lt. intros Hc.
    assert (2 ^ 53 * R <= a * R) by Lqa.nra. Lqa.nra. }
  assert (Ee2 : (- 64 < e)%Z).
  { assert (L : 2 ^ (-63) < 2 ^ (e + 1)).
    { eapply Qle_lt_trans; [| exact He2].
      assert (E63 : 2 ^ (-63) * 2 ^ 63 == 1)
        by (rewrite <- Qpower.Qpower_plus by discriminate; reflexivity).
      pose proof (pow2_pos (-63)) as P63.
      apply Qnot_lt_le. intros Hc.
      assert (a * R < 2 ^ (-63) * 2 ^ 63) by Lqa.nra. Lqa.nra. }
    apply pow2_lt_inv in L. lia. }
  replace (Z.max (e - 52) (-1074)) with (e - 52)%Z by lia.
  set (u := 2 ^ (e - 52)).
  assert (Hu : 0 < u) by apply pow2_pos.
  assert (Hue : u * 2 ^ 52 == 2 ^ e).
  { unfold u. rewrite <- Qpower.Qpower_plus by discriminate.
    now replace (e - 52 + 52)%Z with e by lia. }
  set (m := Np.rint (a / u)).
  pose proof (rint_close (a / u)) as Hm. fold m in Hm.
  set (rr := inject_Z m * u).
  assert (Hau : a / u * u == a) by (field; Lqa.lra).
  assert (Hclose : - (u * (1 # 2)) <= rr - a <= u * (1 # 2)).
  { unfold rr. set (s := a / u) in *. set (M := inject_Z m) in *.
    split; Lqa.nra. }
  (* half a unit in the last place is less than 1/r *)
  assert (E52 : 2 ^ 53 == 2 * 2 ^ 52) by reflexivity.
  pose proof (pow2_pos 52) as P52. pose proof (pow2_pos e) as Pe.
  set (T52 := 2 ^ 52) in *. set (T53 := 2 ^ 53) in *. set (Te := 2 ^ e) in *.
  assert (Hhalf : u * (1 # 2) * R < 1).
  { assert (H1 : u * T53 <= 2 * a) by Lqa.nra.
    assert (H2 : u * T53 * R <= 2 * P) by Lqa.nra.
    assert (H3 : u * R * T53 < 2 * T53) by Lqa.nra.
    assert (H4 : u * R < 2).
    { apply Qnot_le_lt. intros Hc.
      assert (2 * T53 <= u * R * T53) by Lqa.nra. Lqa.lra. }
    Lqa.lra. }
  (* no overflow *)
  assert (Hno : Qle_bool (2 ^ 1024) rr = false).
  { destruct (Qle_bool (2 ^ 1024) rr) eqn:Eb; [| reflexivity].
    apply Qle_bool_iff in Eb. exfalso.
    assert (Hbig : 2 ^ 54 < 2 ^ 1024) by reflexivity.
    assert (E54 : 2 ^ 54 == 2 * T53) by reflexivity.
    assert (Ha53 : a < T53).
    { apply Qnot_le_lt. intros Hc.
      assert (T53 * R <= a * R) by Lqa.nra. Lqa.nra. }
    assert (Hua : u * (1 # 2) <= a) by Lqa.nra.
    Lqa.lra. }
  rewrite Hno.
  eexists. split; [reflexivity |].
  (* the result is within 1/r of the quotient *)
  set (res := if Qle_bool 0 x then rr else - rr).
  assert (Hres : - (u * (1 # 2)) <= res - x <= u * (1 # 2)).
  { unfold res. destruct (Qle_bool 0 x) eqn:Es.
    - apply Qle_bool_iff in Es.
      assert (Eax : a == x) by (unfold a; now apply Qabs_pos).
      rewrite <- Eax. exact Hclose.
    - assert (Hneg : x <= 0).
      { apply Qlt_le_weak, Qnot_le_lt. intros Hc.
        apply Qle_bool_iff in Hc. congruence. }
      assert (Eax : a == - x) by (unfold a; now apply Qabs_neg).
      split; Lqa.lra. }
  set (c := Qceiling x).
  pose proof (Qle_ceiling x) as Hc1. pose proof (Qceiling_lt x) as Hc2.
  fold c in Hc1, Hc2.
  destruct (Qeq_dec x (inject_Z c)) as [Hint | Hnint].
  - (* the quotient is an integer: the division is exact *)
    assert (Hrr : rr == a).
    { assert (Eabs : a == inject_Z (Z.abs c)).
      { unfold a. rewrite Hint. unfold Qabs, inject_Z. reflexivity. }
      assert (E1 : 2 ^ (52 - e) * u == 1).
      { unfold u. rewrite <- Qpower.Qpower_plus by discriminate.
        now replace (52 - e + (e - 52))%Z with 0%Z by lia. }
      assert (Einv : / u == 2 ^ (52 - e)).
      { rewrite <- (Qmult_1_l (/ u)), <- E1, <- Qmult_assoc.
        rewrite Qmult_inv_r by Lqa.lra. apply Qmult_1_r. }
      assert (Em : m = (Z.abs c * 2 ^ (52 - e))%Z).
      { unfold m. apply rint_integer.
        rewrite inject_Z_mult, pow2_inject by lia.
        rewrite Eabs. unfold Qdiv. now rewrite Einv. }
      unfold rr. rewrite Em, inject_Z_mult, pow2_inject by lia.
      rewrite Eabs, <- Qmult_assoc, E1. ring. }
    assert (Eres : res == x).
    { unfold res. destruct (Qle_bool 0 x) eqn:Es.
      - apply Qle_bool_iff in Es. rewrite Hrr. unfold a. now apply Qabs_pos.
      - assert (Hneg : x <= 0).
        { apply Qlt_le_weak, Qnot_le_lt. intros Hc.
          apply Qle_bool_iff in Hc. congruence. }
        rewrite Hrr. unfold a. rewrite Qabs_neg by exact Hneg. ring. }
    now rewrite Eres.
  - (* it is not: the result stays strictly between c - 1 and c *)
    assert (Hlt : x < inject_Z c).
    { apply Qnot_le_lt. intros Hc. apply Hnint. Lqa.lra. }
    assert (Z1 : (p + 1 <= c * r)%Z).
    { assert (L : inject_Z p < inject_Z (c * r)).
      { rewrite inject_Z_mult, <- Hxr. fold R. Lqa.nra. }
      rewrite <- Zlt_Qlt in L. lia. }
    assert (Z2 : (c * r + 1 <= p + r)%Z).
    { assert (L : inject_Z (c - 1) * R < inject_Z p).
      { rewrite <- Hxr. fold R. Lqa.nra. }
      unfold R in L. rewrite <- inject_Z_mult, <- Zlt_Qlt in L. lia. }
    rewrite Zle_Qle in Z1, Z2.
    rewrite inject_Z_plus, inject_Z_mult in Z1.
    rewrite !inject_Z_plus, inject_Z_mult in Z2.
    change (inject_Z 1) with 1 in *. fold R in Z1, Z2.
    set (C := inject_Z c) in *. set (h := u * (1 # 2)) in *.
    set (Pz := inject_Z p) in *.
    apply Qceiling_unique.
    + unfold Z.sub. rewrite inject_Z_plus. change (inject_Z (- (1))) with (- (1)).
      fold C.
      apply Qnot_le_lt. intros Hc.
      assert (H1 : x - h <= C - 1) by Lqa.lra.
      assert (H2 : (x - h) * R <= (C - 1) * R) by Lqa.nra.
      Lqa.nra.
    + fold C. apply Qnot_lt_le. intros Hc.
      assert (H1 : C < x + h) by Lqa.lra.
      assert (H2 : C * R < (x + h) * R) by Lqa.nra.
      Lqa.nra.
Qed.
End Binary64Facts.

(** ** Sample sizing and the generated strains *)

Section SampleSizing.
Import ElasticTensor.
Local Open Scope Z_scope.

(** X17: the number of measurements is the least integer that is at
    least [min_num_measurements] and, multiplied by the number of
    rotations (counted as 1 when there is none), at least
    [min_num_points]; this for [min_num_points] below [2 ^ 53] in
    absolute value, because the quotient is a float (a Python list has
    fewer than [2 ^ 63] items). *)
Theorem number_of_measurements_least (inp : input) :
  Z.abs (min_num_points inp) < 2 ^ 53 ->
  Z.of_nat (length (rotations inp)) < 2 ^ 63 ->
  let r := Z.max (Z.of_nat (length (rotations inp))) 1 in
  exists n,
    _number_of_measurements inp = inr n
    /\ min_num_measurements inp <= n
    /\ min_num_points inp <= n * r
    /\ forall m, min_num_measurements inp <= m -> min_num_points inp <= m * r ->
                 n <= m.
Proof.
  intros Hp Hlen r. unfold _number_of_measurements. fold r.
  assert (Hr : 1 <= r < 2 ^ 63) by (unfold r; lia).
  set (p := min_num_points inp) in *.
  destruct (binary64_integer_quotient p r Hp Hr) as (q & -> & Hq).
  eexists. split; [reflexivity |]. rewrite Hq. clear q Hq.
  set (c := Qceiling (inject_Z p / inject_Z r)).
  assert (Hrq : (0 < inject_Z r)%Q)
    by (change 0%Q with (inject_Z 0); rewrite <- Zlt_Qlt; lia).
  assert (Hup : p <= c * r).
  { pose proof (Qle_ceiling (inject_Z p / inject_Z r)) as Hc. fold c in Hc.
    apply (Qmult_le_compat_r _ _ (inject_Z r)) in Hc; [| now apply Qlt_le_weak].
    assert (E : (inject_Z p / inject_Z r * inject_Z r == inject_Z p)%Q)
      by (field; intros E; rewrite E in Hrq; discriminate Hrq).
    rewrite E, <- inject_Z_mult, <- Zle_Qle in Hc. exact Hc. }
  assert (Hlow : forall m, p <= m * r -> c <= m).
  { intros m Hm.
    pose proof (Qceiling_lt (inject_Z p / inject_Z r)) as Hc. fold c in Hc.
    assert (Hq : (inject_Z p / inject_Z r <= inject_Z m)%Q).
    { apply Qle_shift_div_r; [exact Hrq |].
      rewrite <- inject_Z_mult, <- Zle_Qle. exact Hm. }
    assert (Hlt : (inject_Z (c - 1) < inject_Z m)%Q)
      by (eapply Qlt_le_trans; eassumption).
    rewrite <- Zlt_Qlt in Hlt. lia. }
  split; [lia |]. split.
  - destruct (Z.max_spec (min_num_measurements inp) c) as [[_ ->] | [Hle ->]];
      [exact Hup |]. nia.
  - intros m Hm Hpm. specialize (Hlow m Hpm). lia.
Qed.
End SampleSizing.

Section GeneratedStrains.
Import ElasticTensor.
Local Open Scope Q_scope.

Variable get_symmetry_rotations : bool -> list (list (list Q)).
Variable random : nat -> list (list (list Q)).
Variable super_validate_ready_to_run : input -> error + input.

(** The strain made from one random matrix [m]:
    [e + e^T] with [e = (m - 0.5) * max_strain]. *)
Lemma create_strain_matrices_inr (inp inp' : input) :
  _create_strain_matrices get_symmetry_rotations random inp = inr inp' ->
  exists n,
    _number_of_measurements inp' = inr n
    /\ (0 <= n)%Z
    /\ strain_matrices inp'
       = map (fun m =>
                add_matrices
                  (map (map (fun e => e * max_strain inp))
                       (map (map (fun r => r - 0.5)) m))
                  (Np.transpose 3
                     (map (map (fun e => e * max_strain inp))
                          (map (map (fun r => r - 0.5)) m))))
             (random (Z.to_nat n))
    /\ min_num_measurements inp' = min_num_measurements inp
    /\ min_num_points inp' = min_num_points inp
    /\ max_strain inp' = max_strain inp
    /\ use_symmetry inp' = use_symmetry inp
    /\ use_elements inp' = use_elements inp
    /\ rotations inp'
       = if (use_symmetry inp && (length (rotations inp) =? 0)%nat)%bool
         then _get_rotation_matrices (get_symmetry_rotations (use_elements inp))
         else rotations inp.
Proof.
  unfold _create_strain_matrices.
  destruct (use_symmetry inp && (length (rotations inp) =? 0)%nat)%bool;
    cbv zeta;
    match goal with
    | |- match ?c with inl _ => _ | inr _ => _ end = _ -> _ =>
        destruct c as [e | n] eqn:En; [discriminate |]
    end;
    destruct (Z.ltb_spec n 0) as [Hn | Hn]; [discriminate | | discriminate |];
    intros Heq;
    apply (f_equal (fun r => match r with inr x => x | inl _ => inp end)) in Heq;
    subst inp'; exists n;
    cbn [strain_matrices min_num_measurements min_num_points
         max_strain use_symmetry use_elements rotations];
    (split; [exact En |]);
    rewrite !map_map; repeat split; try reflexivity; try exact Hn.
Qed.

(** X18: every generated strain is a symmetric matrix. *)
Theorem generated_strains_symmetric (inp inp' : input)
        (s : list (list Q)) (i j : Z) :
  random_array_ok random ->
  _create_strain_matrices get_symmetry_rotations random inp = inr inp' ->
  In s (strain_matrices inp') ->
  (0 <= i < 3)%Z -> (0 <= j < 3)%Z ->
  Np.get2 0 s i j == Np.get2 0 s j i.
Proof.
  intros Hrnd Hc Hs Hi Hj.
  apply create_strain_matrices_inr in Hc as (n & _ & _ & Es & _).
  rewrite Es in Hs. apply in_map_iff in Hs as (m & <- & Hm).
  destruct (Hrnd (Z.to_nat n)) as [_ Hall].
  rewrite Forall_forall in Hall. destruct (Hall m Hm) as [Hshape _].
  destruct (has_shape2_3x3 m Hshape)
    as (a0 & a1 & a2 & b0 & b1 & b2 & c0 & c1 & c2 & ->).
  split_range Hi; split_range Hj;
    cbv -[Qplus Qmult Qminus Qopp Qeq]; ring.
Qed.

(** X19: no entry of a generated strain exceeds [max_strain] in
    absolute value. *)
Theorem generated_strains_bounded (inp inp' : input)
        (s : list (list Q)) (i j : Z) :
  random_array_ok random ->
  0 <= max_strain inp ->
  _create_strain_matrices get_symmetry_rotations random inp = inr inp' ->
  In s (strain_matrices inp') ->
  (0 <= i < 3)%Z -> (0 <= j < 3)%Z ->
  - max_strain inp <= Np.get2 0 s i j <= max_strain inp.
Proof.
  intros Hrnd Hms Hc Hs Hi Hj.
  apply create_strain_matrices_inr in Hc as (n & _ & _ & Es & _).
  rewrite Es in Hs. apply in_map_iff in Hs as (m & <- & Hm).
  destruct (Hrnd (Z.to_nat n)) as [_ Hall].
  rewrite Forall_forall in Hall. destruct (Hall m Hm) as [Hshape Hrange].
  destruct (has_shape2_3x3 m Hshape)
    as (a0 & a1 & a2 & b0 & b1 & b2 & c0 & c1 & c2 & ->).
  repeat match goal with
         | H : Forall _ (_ :: _) |- _ => inversion H; subst; clear H
         | H : Forall _ [] |- _ => clear H
         end.
  set (ms := max_strain inp) in *.
  split_range Hi; split_range Hj;
    cbv -[Qplus Qmult Qminus Qopp Qle ms]; split; Lqa.nra.
Qed.

(** X20: as many strains are generated as [_number_of_measurements]
    asks for, the rotations being those found by the symmetry analysis
    when symmetry is in use and none were given. *)
Theorem generated_strains_count (inp inp' : input) :
  random_array_ok random ->
  _create_strain_matrices get_symmetry_rotations random inp = inr inp' ->
  _number_of_measurements inp'
  = inr (Z.of_nat (length (strain_matrices inp'))).
Proof.
  intros Hrnd Hc.
  apply create_strain_matrices_inr in Hc as (n & En & Hn & Es & _).
  rewrite Es, length_map.
  destruct (Hrnd (Z.to_nat n)) as [-> _].
  now rewrite Z2Nat.id.
Qed.

(** X21: [validate_ready_to_run] only fills in what is missing.  After
    the check of the parent class, strain matrices that are given are
    kept, and then nothing changes at all; rotations that are given, or
    unwanted ([use_symmetry] off), are kept; the other settings are
    never touched. *)
Theorem validate_ready_to_run_keeps_input (inp inp' : input) :
  validate_ready_to_run get_symmetry_rotations random
    super_validate_ready_to_run inp = inr inp' ->
  exists inp0,
    super_validate_ready_to_run inp = inr inp0
    /\ (strain_matrices inp0 <> [] -> inp' = inp0)
    /\ (rotations inp0 <> [] \/ use_symmetry inp0 = false ->
        rotations inp' = rotations inp0)
    /\ min_num_measurements inp' = min_num_measurements inp0
    /\ min_num_points inp' = min_num_points inp0
    /\ max_strain inp' = max_strain inp0
    /\ use_symmetry inp' = use_symmetry inp0
    /\ use_elements inp' = use_elements inp0.
Proof.
  unfold validate_ready_to_run.
  destruct (super_validate_ready_to_run inp) as [e | inp0]; [discriminate |].
  intros Hv. exists inp0. split; [reflexivity |].
  destruct (strain_matrices inp0) as [|s t] eqn:Es; cbn [length Nat.eqb] in Hv.
  - apply create_strain_matrices_inr in Hv
      as (n & _ & _ & _ & E1 & E2 & E3 & E4 & E5 & E6).
    split; [intros Hne; now contradiction Hne |].
    split; [| repeat split; assumption].
    intros Hkeep. rewrite E6.
    destruct Hkeep as [Hr | Hu].
    + destruct (rotations inp0); [contradiction |].
      now rewrite andb_false_r.
    + now rewrite Hu.
  - injection Hv as <-. repeat split; reflexivity.
Qed.
End GeneratedStrains.

Lemma constant_random_ok : random_array_ok constant_random.
Proof.
  intros n. split; [apply repeat_length |].
  apply Forall_forall. intros m Hm. apply repeat_spec in Hm. subst m.
  split; [reflexivity |].
  repeat constructor; try (intros E; discriminate E).
Qed.

Lemma skewed_random_ok : random_array_ok skewed_random.
Proof.
  intros n. split; [apply repeat_length |].
  apply Forall_forall. intros m Hm. apply repeat_spec in Hm. subst m.
  split; [reflexivity |].
  repeat constructor; try (intros E; discriminate E).
Qed.

Lemma number_of_measurements_least_witness :
  exists n,
    ElasticTensor._number_of_measurements input_with_rotations = inr n
    /\ 11 <= n
    /\ 100 <= n * 3
    /\ forall m, 11 <= m -> 100 <= m * 3 -> n <= m.
Proof.
  apply (number_of_measurements_least input_with_rotations).
  - vm_compute. reflexivity.
  - vm_compute. reflexivity.
Defined.

Lemma generated_strains_symmetric_witness :
  (Np.get2 0 (nth 0 (ElasticTensor.strain_matrices skewed_run) []) 0 1
   == Np.get2 0 (nth 0 (ElasticTensor.strain_matrices skewed_run) []) 1 0)%Q.
Proof.
  apply (generated_strains_symmetric quarter_turn_symmetry skewed_random
           two_sample_input skewed_run).
  - exact skewed_random_ok.
  - vm_compute. reflexivity.
  - vm_compute. left. reflexivity.
  - lia.
  - lia.
Defined.

Lemma generated_strains_bounded_witness :
  (- (0.01) <= Np.get2 0 (nth 1 (ElasticTensor.strain_matrices two_sample_run) []) 2 0
   <= 0.01)%Q.
Proof.
  apply (generated_strains_bounded quarter_turn_symmetry constant_random
           two_sample_input two_sample_run).
  - exact constant_random_ok.
  - discriminate.
  - vm_compute. reflexivity.
  - vm_compute. right. left. reflexivity.
  - lia.
  - lia.
Defined.

Lemma generated_strains_count_witness :
  ElasticTensor._number_of_measurements two_sample_run
  = inr (Z.of_nat (length (ElasticTensor.strain_matrices two_sample_run))).
Proof.
  apply (generated_strains_count quarter_turn_symmetry constant_random
           two_sample_input two_sample_run).
  - exact constant_random_ok.
  - vm_compute. reflexivity.
Defined.

Lemma validate_ready_to_run_keeps_input_witness :
  ElasticTensor.validate_ready_to_run quarter_turn_symmetry skewed_random
    parent_accepts input_with_strains = inr input_with_strains
  /\ exists inp',
       ElasticTensor.validate_ready_to_run quarter_turn_symmetry skewed_random
         parent_accepts input_with_rotations = inr inp'
       /\ ElasticTensor.strain_matrices inp' <> []
       /\ ElasticTensor.rotations inp' = [rot90_z; rot90_z; Np.eye3].
Proof.
  split.
  - destruct (ElasticTensor.validate_ready_to_run quarter_turn_symmetry
                skewed_random parent_accepts input_with_strains)
      as [e | inp'] eqn:E; [vm_compute in E; discriminate E |].
    destruct (validate_ready_to_run_keeps_input quarter_turn_symmetry
                skewed_random parent_accepts input_with_strains inp' E)
      as (inp0 & E0 & Hkeep & _).
    injection E0 as <-. f_equal. apply Hkeep. discriminate.
  - destruct (ElasticTensor.validate_ready_to_run quarter_turn_symmetry
                skewed_random parent_accepts input_with_rotations)
      as [e | inp'] eqn:E; [vm_compute in E; discriminate E |].
    exists inp'. split; [reflexivity |].
    destruct (validate_ready_to_run_keeps_input quarter_turn_symmetry
                skewed_random parent_accepts input_with_rotations inp' E)
      as (inp0 & E0 & _ & Hrot & _).
    injection E0 as <-. split.
    + vm_compute in E. injection E as <-. discriminate.
    + apply Hrot. left. discriminate.
Defined.

(** ** Gathering the results of the children *)

Section CollectFacts.
Import Collect.
Context `{External}.

Lemma last_item_last {A} (history : list A) (x d : A) :
  last_item history = inr x -> history <> [] /\ x = last history d.
Proof.
  unfold last_item. destruct (rev history) as [|y t] eqn:E; [discriminate |].
  intros [= <-]. apply (f_equal (@rev A)) in E. rewrite rev_involutive in E.
  cbn in E. subst history. split.
  - intros E. apply (f_equal (@length A)) in E.
    rewrite length_app in E. cbn in E. lia.
  - now rewrite last_last.
Qed.

Lemma gather_inr {A} (node channel channel' : option (list A)) :
  gather node channel = inr channel' ->
  channel' = Some (entries channel')
  /\ match node with
     | Some history =>
         exists x, last_item history = inr x
                   /\ entries channel' = entries channel ++ [x]
     | None => entries channel' = []
     end.
Proof.
  unfold gather. destruct node as [history |].
  - destruct (last_item history) as [e | x]; [discriminate |].
    intros [= <-]. split; [reflexivity |]. now exists x.
  - intros [= <-]. now split.
Qed.

Lemma gather_job_inr (d d' : channels) (job : Z * Generic.t) :
  gather_job d job = inr d' ->
  exists en,
    gather (Generic.energy_tot (snd job)) (energy d) = inr en
    /\ gather (Generic.energy_pot (snd job)) en = inr (energy d')
    /\ gather (Generic.pressures (snd job)) (pressures d) = inr (pressures d')
    /\ gather (Generic.volume (snd job)) (volume d) = inr (volume d')
    /\ id d' = Some (entries (id d) ++ [fst job]).
Proof.
  destruct job as [job_id ham]. unfold gather_job. cbn [fst snd].
  destruct (gather (Generic.energy_tot ham) (energy d)) as [e | en] eqn:E1;
    [discriminate |].
  destruct (gather (Generic.energy_pot ham) en) as [e | en'] eqn:E2;
    [discriminate |].
  destruct (gather (Generic.pressures ham) (pressures d)) as [e | pr] eqn:E3;
    [discriminate |].
  destruct (gather (Generic.volume ham) (volume d)) as [e | vol] eqn:E4;
    [discriminate |].
  intros [= <-]. exists en. cbn [energy pressures volume id].
  repeat split; assumption.
Qed.

Lemma gather_job_filled (d d' : channels) (job : Z * Generic.t) :
  gather_job d job = inr d' -> filled d'.
Proof.
  intros Hg. apply gather_job_inr in Hg as (en & _ & He & Hp & Hv & Hi).
  apply gather_inr in He as [He _]. apply gather_inr in Hp as [Hp _].
  apply gather_inr in Hv as [Hv _].
  unfold filled. rewrite He, Hp, Hv, Hi. repeat split; discriminate.
Qed.

Lemma gather_jobs_filled (children : list (Z * Generic.t)) :
  forall d d',
    gather_jobs d children = inr d' -> filled d \/ children <> [] -> filled d'.
Proof.
  induction children as [|job rest IH]; intros d d' Hg Hd; cbn in Hg.
  - injection Hg as <-. destruct Hd as [Hd | Hd]; [exact Hd | contradiction].
  - destruct (gather_job d job) as [e | d1] eqn:E1; [discriminate |].
    apply (IH d1 d' Hg). left. eapply gather_job_filled; eassumption.
Qed.

Lemma store_filled (d _output : channels) : filled d -> store d _output = d.
Proof.
  destruct d as [[e |] [p |] [v |] [i |]]; unfold filled; cbn;
    intros (He & Hp & Hv & Hi); try contradiction; reflexivity.
Qed.

Lemma gather_jobs_app (a b : list (Z * Generic.t)) :
  forall d,
    gather_jobs d (a ++ b)
    = match gather_jobs d a with
      | inl e => inl e
      | inr d1 => gather_jobs d1 b
      end.
Proof.
  induction a as [|job a IH]; intros d; cbn; [reflexivity |].
  destruct (gather_job d job); [reflexivity | apply IH].
Qed.

(** Two entries of energy for a child that stores both energies. *)
Lemma gather_jobs_energy (children : list (Z * Generic.t)) :
  forall d d',
    Forall (fun job => Generic.energy_tot (snd job) <> None
                       /\ Generic.energy_pot (snd job) <> None) children ->
    gather_jobs d children = inr d' ->
    length (entries (energy d'))
    = (length (entries (energy d)) + 2 * length children)%nat.
Proof.
  induction children as [|job rest IH]; intros d d' Hall Hg; cbn in Hg.
  - injection Hg as <-. cbn. lia.
  - inversion Hall as [| ? ? [Ht Hp] Hrest]; subst.
    destruct (gather_job d job) as [e | d1] eqn:E1; [discriminate |].
    rewrite (IH d1 d' Hrest Hg). cbn [length].
    apply gather_job_inr in E1 as (en & G1 & G2 & _).
    apply gather_inr in G1 as [_ G1]. apply gather_inr in G2 as [_ G2].
    destruct (Generic.energy_tot (snd job)); [| contradiction].
    destruct (Generic.energy_pot (snd job)); [| contradiction].
    destruct G1 as (x & _ & G1). destruct G2 as (y & _ & G2).
    rewrite G2, G1, !length_app. cbn. lia.
Qed.

(** At most one entry of volume for a child. *)
Lemma gather_jobs_volume (children : list (Z * Generic.t)) :
  forall d d',
    gather_jobs d children = inr d' ->
    (length (entries (volume d'))
     <= length (entries (volume d)) + length children)%nat.
Proof.
  induction children as [|job rest IH]; intros d d' Hg; cbn in Hg.
  - injection Hg as <-. cbn. lia.
  - destruct (gather_job d job) as [e | d1] eqn:E1; [discriminate |].
    etransitivity; [apply (IH d1 d' Hg) |]. cbn [length].
    apply gather_job_inr in E1 as (en & _ & _ & _ & G & _).
    apply gather_inr in G as [_ G].
    destruct (Generic.volume (snd job)).
    + destruct G as (x & _ & G). rewrite G, length_app. cbn. lia.
    + rewrite G. cbn. lia.
Qed.

(** The last pressure of every child, when every child stores pressures. *)
Lemma gather_jobs_pressures (children : list (Z * Generic.t)) :
  forall d d' hists,
    map (fun job => Generic.pressures (snd job)) children = map Some hists ->
    gather_jobs d children = inr d' ->
    entries (pressures d')
    = entries (pressures d) ++ map (fun h => last h []) hists.
Proof.
  induction children as [|job rest IH]; intros d d' hists Hm Hg; cbn in Hg.
  - injection Hg as <-. destruct hists; [| discriminate].
    cbn. now rewrite app_nil_r.
  - destruct hists as [|h hists]; [discriminate |].
    cbn in Hm. injection Hm as Hh Hm.
    destruct (gather_job d job) as [e | d1] eqn:E1; [discriminate |].
    rewrite (IH d1 d' hists Hm Hg).
    apply gather_job_inr in E1 as (en & _ & _ & G & _).
    apply gather_inr in G as [_ G]. rewrite Hh in G.
    destruct G as (x & Hx & G). rewrite G.
    apply (last_item_last _ _ []) in Hx as [_ ->].
    cbn [map]. now rewrite <- app_assoc.
Qed.

Lemma calc_elastic_constants_tensor (tensor : list (list Q)) c :
  calc_elastic_constants tensor = inr c -> elastic_tensor c = tensor.
Proof.
  unfold calc_elastic_constants.
  destruct (Constants.inv3 _); [discriminate |]. now intros [= <-].
Qed.

(** What a successful [collect_output] went through. *)
Lemma collect_output_inr inp interactive children _output out :
  collect_output inp interactive children _output = inr out ->
  exists p en vol tensor,
    (if interactive then take_interactive children _output
     else match gather_jobs empty children with
          | inl e => inl e
          | inr d => inr (store d _output)
          end) = inr (gathered out)
    /\ pressures (gathered out) = Some p
    /\ energy (gathered out) = Some en
    /\ volume (gathered out) = Some vol
    /\ calc_elastic_tensor (ElasticTensor.strain_matrices inp)
         (Some (negate p)) (Some en) (Some vol)
         (Some (ElasticTensor.rotations inp)) true
       = inr (tensor, score out)
    /\ calc_elastic_constants tensor = inr (constants out).
Proof.
  unfold collect_output.
  destruct (if interactive then _ else _) as [e | o]; [discriminate |].
  destruct (pressures o) as [p |] eqn:Ep; cbn [lookup]; [| discriminate].
  destruct (energy o) as [en |] eqn:Een; cbn [lookup]; [| discriminate].
  destruct (volume o) as [vol |] eqn:Ev; cbn [lookup]; [| discriminate].
  destruct (calc_elastic_tensor _ _ _ _ _ _) as [e | [tensor fit]] eqn:Ec;
    [discriminate |].
  destruct (calc_elastic_constants tensor) as [e | c] eqn:Ek; [discriminate |].
  intros [= <-]. cbn [gathered score constants].
  exists p, en, vol, tensor. repeat split; assumption.
Qed.

Lemma negate_length p : length (negate p) = length p.
Proof. apply length_map. Qed.

(** X22: in batch mode the energy-based fit is out of reach once the
    children store both [energy_tot] and [energy_pot].  Both go to the
    entry ['energy'], which then holds two values per child; a result,
    if there is one, comes from the stress-based fit. *)
Theorem batch_energy_counted_twice inp children _output out :
  children <> [] ->
  Forall (fun job => Generic.energy_tot (snd job) <> None
                     /\ Generic.energy_pot (snd job) <> None) children ->
  collect_output inp false children _output = inr out ->
  exists en s,
    energy (gathered out) = Some en
    /\ length en = (2 * length children)%nat
    /\ score out = Some (StressScore s).
Proof.
  intros Hne Hall Hc.
  apply collect_output_inr in Hc
    as (p & en & vol & tensor & Hg & Hp & Hen & Hvol & Hcalc & _).
  destruct (gather_jobs empty children) as [e | d] eqn:Ed; [discriminate |].
  injection Hg as Hg.
  rewrite store_filled in Hg
    by (eapply gather_jobs_filled; [eassumption | now right]).
  subst d.
  pose proof (gather_jobs_energy _ _ _ Hall Ed) as Len.
  pose proof (gather_jobs_volume _ _ _ Ed) as Lvol.
  rewrite Hen in Len. rewrite Hvol in Lvol. cbn in Len, Lvol.
  assert (Hn : (1 <= length children)%nat)
    by (destruct children; [contradiction | cbn; lia]).
  exists en.
  assert (Hs : ElasticTensor.strain_matrices inp <> []).
  { intros E. rewrite E, calc_elastic_tensor_no_strain in Hcalc.
    discriminate Hcalc. }
  destruct (takes_stress_path (ElasticTensor.strain_matrices inp)
              (Some (negate p)) (Some (ElasticTensor.rotations inp))) eqn:Et.
  - rewrite (calc_elastic_tensor_stress_path _ _ (negate p)) in Hcalc
      by (try assumption; reflexivity).
    cbv zeta in Hcalc. injection Hcalc as _ Hs'.
    eexists. split; [exact Hen |]. split; [lia | symmetry; exact Hs'].
  - rewrite calc_elastic_tensor_mismatch in Hcalc; [discriminate | | |];
      try assumption.
    rewrite energy_data_fits_lengths.
    apply andb_false_iff. right. apply Nat.eqb_neq. lia.
Qed.

(** X23: in batch mode, when every child stores pressures and there are
    as many children as strains, the tensor is the stress-based fit of
    the strains against minus the last pressure of each child, in the
    order of the children. *)
Theorem batch_fits_last_pressures inp children _output out hists :
  map (fun job => Generic.pressures (snd job)) children = map Some hists ->
  length children = length (ElasticTensor.strain_matrices inp) ->
  collect_output inp false children _output = inr out ->
  let rots := reduce_rotations (Some (ElasticTensor.rotations inp)) in
  let fit :=
    _fit_coeffs_with_stress
      (augment_strain rots (ElasticTensor.strain_matrices inp))
      (negate (map (fun h => last h []) hists)) rots in
  pressures (gathered out) = Some (map (fun h => last h []) hists)
  /\ elastic_tensor (constants out) = fst fit
  /\ score out = Some (StressScore (snd fit)).
Proof.
  intros Hm Hlen Hc rots fit.
  apply collect_output_inr in Hc
    as (p & en & vol & tensor & Hg & Hp & Hen & Hvol & Hcalc & Hk).
  assert (Hs : ElasticTensor.strain_matrices inp <> []).
  { intros E. rewrite E, calc_elastic_tensor_no_strain in Hcalc.
    discriminate Hcalc. }
  assert (Hne : children <> []).
  { intros ->. destruct (ElasticTensor.strain_matrices inp);
      [contradiction | discriminate Hlen]. }
  destruct (gather_jobs empty children) as [e | d] eqn:Ed; [discriminate |].
  injection Hg as Hg.
  rewrite store_filled in Hg
    by (eapply gather_jobs_filled; [eassumption | now right]).
  subst d.
  pose proof (gather_jobs_pressures _ _ _ _ Hm Ed) as Ep.
  rewrite Hp in Ep. cbn in Ep. subst p.
  rewrite (calc_elastic_tensor_stress_path _ _
             (negate (map (fun h => last h []) hists))) in Hcalc;
    [ | assumption | reflexivity | ].
  - cbv zeta in Hcalc. injection Hcalc as Ht Hs'.
    split; [exact Hp |]. split.
    + rewrite (calc_elastic_constants_tensor _ _ Hk). exact (eq_sym Ht).
    + exact (eq_sym Hs').
  - rewrite takes_stress_path_lengths, negate_length, length_map.
    apply Nat.eqb_eq. rewrite <- Hlen.
    apply (f_equal (@length _)) in Hm. now rewrite !length_map in Hm.
Qed.

(** X24: a node that the last child does not store leaves its entry
    empty, whatever the children before stored; without [energy_pot]
    that is the entry ['energy'], also when [energy_tot] is there. *)
Theorem batch_missing_node_empties_entry
        inp children job_id ham _output out :
  collect_output inp false (children ++ [(job_id, ham)]) _output = inr out ->
  (Generic.pressures ham = None -> pressures (gathered out) = Some [])
  /\ (Generic.volume ham = None -> volume (gathered out) = Some [])
  /\ (Generic.energy_pot ham = None -> energy (gathered out) = Some []).
Proof.
  intros Hc.
  apply collect_output_inr in Hc as (p & en & vol & tensor & Hg & _).
  destruct (gather_jobs empty (children ++ [(job_id, ham)])) as [e | d] eqn:Ed;
    [discriminate |].
  injection Hg as Hg.
  rewrite store_filled in Hg
    by (eapply gather_jobs_filled;
        [eassumption | right; now destruct children]).
  subst d. rewrite gather_jobs_app in Ed.
  destruct (gather_jobs empty children) as [e | d1]; [discriminate |].
  cbn [gather_jobs] in Ed.
  destruct (gather_job d1 (job_id, ham)) as [e | d2] eqn:E2; [discriminate |].
  injection Ed as <-.
  apply gather_job_inr in E2 as (en' & _ & Ge & Gp & Gv & _).
  cbn [snd] in *.
  apply gather_inr in Ge as [Ge1 Ge2]. apply gather_inr in Gp as [Gp1 Gp2].
  apply gather_inr in Gv as [Gv1 Gv2].
  repeat split; intros E.
  - rewrite E in Gp2. now rewrite Gp1, Gp2.
  - rewrite E in Gv2. now rewrite Gv1, Gv2.
  - rewrite E in Ge2. now rewrite Ge1, Ge2.
Qed.

Lemma calc_elastic_tensor_empty_stress strain energy volume rotations score :
  calc_elastic_tensor strain (Some []) energy volume rotations score
  = calc_elastic_tensor strain None energy volume rotations score.
Proof.
  destruct strain as [|s0 strain']; [reflexivity |].
  unfold calc_elastic_tensor. cbn [length Nat.eqb]. cbv zeta.
  rewrite augment_strain_length.
  pose proof (reduce_rotations_length_pos rotations) as Hpos.
  destruct (_ =? _)%nat eqn:E; [| reflexivity].
  apply Nat.eqb_eq in E. cbn [length] in E. nia.
Qed.

(** X25: in interactive mode only the first child is read, and a first
    child without pressures makes [collect_output] the energy-based
    call: the tensor and the score are those of [calc_elastic_tensor]
    without stress, on the whole histories of [energy_tot] and
    [volume]. *)
Theorem interactive_without_pressures
        inp job_id ham rest _output :
  Generic.pressures ham = None ->
  collect_output inp true ((job_id, ham) :: rest) _output
  = match calc_elastic_tensor (ElasticTensor.strain_matrices inp) None
            (Some (entries (Generic.energy_tot ham)))
            (Some (entries (Generic.volume ham)))
            (Some (ElasticTensor.rotations inp)) true with
    | inl e => inl (Raised e)
    | inr (tensor, fit) =>
        match calc_elastic_constants tensor with
        | inl e => inl (Raised e)
        | inr c =>
            inr {| gathered :=
                     {| energy := Some (entries (Generic.energy_tot ham));
                        pressures := Some [];
                        volume := Some (entries (Generic.volume ham));
                        id := id _output |};
                   score := fit; constants := c |}
        end
    end.
Proof.
  intros Hp. unfold collect_output, take_interactive.
  rewrite Hp. cbn [lookup pressures energy volume negate map].
  rewrite calc_elastic_tensor_empty_stress. reflexivity.
Qed.
End CollectFacts.

Lemma batch_energy_counted_twice_witness :
  exists out,
    Collect.collect_output axis_strains_input false axis_children Collect.empty
    = inr out
    /\ exists en s,
         Collect.energy (Collect.gathered out) = Some en
         /\ length en = 8%nat
         /\ Collect.score out = Some (StressScore s).
Proof.
  eexists. split; [vm_compute; reflexivity |].
  apply (batch_energy_counted_twice axis_strains_input axis_children
           Collect.empty).
  - discriminate.
  - repeat constructor; discriminate.
  - vm_compute. reflexivity.
Defined.

Lemma batch_fits_last_pressures_witness :
  exists out,
    Collect.collect_output axis_strains_input false axis_children Collect.empty
    = inr out
    /\ Collect.pressures (Collect.gathered out) = Some axis_pressures
    /\ elastic_tensor (Collect.constants out)
       = fst (_fit_coeffs_with_stress
                (augment_strain [Np.eye3]
                   (ElasticTensor.strain_matrices axis_strains_input))
                (Collect.negate axis_pressures) [Np.eye3])
    /\ Collect.score out
       = Some (StressScore
                 (snd (_fit_coeffs_with_stress
                         (augment_strain [Np.eye3]
                            (ElasticTensor.strain_matrices axis_strains_input))
                         (Collect.negate axis_pressures) [Np.eye3]))).
Proof.
  eexists. split; [vm_compute; reflexivity |].
  apply (batch_fits_last_pressures axis_strains_input axis_children
           Collect.empty _
           (map (fun p => [zeros3; p]) axis_pressures)).
  - reflexivity.
  - reflexivity.
  - vm_compute. reflexivity.
Defined.

Lemma batch_missing_node_empties_entry_witness :
  exists out,
    Collect.collect_output axis_strains_input false
      (firstn 3 axis_children ++ [(9, child_without_volume)]) Collect.empty
    = inr out
    /\ Collect.volume (Collect.gathered out) = Some [].
Proof.
  eexists. split; [vm_compute; reflexivity |].
  apply (batch_missing_node_empties_entry axis_strains_input
           (firstn 3 axis_children) 9 child_without_volume Collect.empty).
  - vm_compute. reflexivity.
  - reflexivity.
Defined.

Lemma interactive_without_pressures_witness :
  Collect.collect_output axis_strains_input true
    [(6, interactive_child); (7, child_without_volume)] Collect.empty
  = match calc_elastic_tensor
            (ElasticTensor.strain_matrices axis_strains_input) None
            (Some [0; 1; 1; 1]%Q) (Some [2; 2; 2; 2]%Q) (Some []) true with
    | inl e => inl (Collect.Raised e)
    | inr (tensor, fit) =>
        match calc_elastic_constants tensor with
        | inl e => inl (Collect.Raised e)
        | inr c =>
            inr {| Collect.gathered :=
                     {| Collect.energy := Some [0; 1; 1; 1]%Q;
                        Collect.pressures := Some [];
                        Collect.volume := Some [2; 2; 2; 2]%Q;
                        Collect.id := None |};
                   Collect.score := fit; Collect.constants := c |}
        end
    end.
Proof.
  apply (interactive_without_pressures axis_strains_input 6 interactive_child
           [(7, child_without_volume)] Collect.empty).
  reflexivity.
Defined.

(** ** The names of the child jobs *)

Section JobNames.
Import Ascii ElasticJobGenerator.
Local Open Scope string_scope.

Lemma replace_append (old new : Ascii.ascii) (a b : string) :
  replace old new (a ++ b) = replace old new a ++ replace old new b.
Proof. induction a as [|c a IH]; cbn; [reflexivity | now rewrite IH]. Qed.

Lemma replace_str (n : nat) : replace "." "_" (str n) = str n.
Proof.
  unfold str. induction (Nat.to_uint n) as [| d IH | d IH | d IH | d IH | d IH
                                            | d IH | d IH | d IH | d IH | d IH];
    cbn; [reflexivity | now rewrite IH ..].
Qed.

Lemma str_inj (i j : nat) : str i = str j -> i = j.
Proof.
  unfold str. intros E.
  apply (f_equal DecimalString.NilEmpty.uint_of_string) in E.
  rewrite !DecimalString.NilEmpty.usu in E. injection E as E.
  now apply DecimalNat.Unsigned.to_uint_inj.
Qed.

Lemma append_inj_l (a b c : string) : a ++ b = a ++ c -> b = c.
Proof.
  induction a as [|x a IH]; cbn; [easy |]. intros [= E]. now apply IH.
Qed.

Lemma get_replace (old new : Ascii.ascii) (s : string) :
  new <> old -> forall n, get n (replace old new s) <> Some old.
Proof.
  intros Hne. induction s as [|c s IH]; intros n; cbn; [discriminate |].
  destruct n as [|n]; [| apply IH].
  destruct (Ascii.eqb_spec c old) as [-> | Hc]; intros [= E]; congruence.
Qed.

Lemma parameter_list_indices {Atoms} (apply_strain : list (list Q) -> Atoms -> Atoms)
      strain_matrices structure :
  map fst (parameter_list Atoms apply_strain strain_matrices structure)
  = seq 0 (length strain_matrices).
Proof.
  unfold parameter_list. rewrite map_map.
  generalize 0%nat. induction strain_matrices as [|e l IH]; intros k; cbn;
    [reflexivity |]. f_equal. apply IH.
Qed.

(** X26: the name of a child job holds no dot, whatever the name of the
    master job. *)
Theorem job_name_has_no_dot {Atoms} (name : string) (parameter : nat * Atoms) :
  forall n, get n (job_name Atoms name parameter) <> Some "."%char.
Proof. intros n. unfold job_name. now apply get_replace. Qed.

(** X27: the children made from a list of strain matrices all get
    different names, one per strain matrix. *)
Theorem job_names_distinct {Atoms}
        (apply_strain : list (list Q) -> Atoms -> Atoms)
        (name : string) strain_matrices structure :
  let names :=
    map (job_name Atoms name)
        (parameter_list Atoms apply_strain strain_matrices structure) in
  NoDup names /\ length names = length strain_matrices.
Proof.
  cbv zeta.
  assert (E : map (job_name Atoms name)
                (parameter_list Atoms apply_strain strain_matrices structure)
              = map (fun i => replace "." "_" name ++ "_" ++ str i)
                    (seq 0 (length strain_matrices))).
  { rewrite <- (parameter_list_indices apply_strain strain_matrices structure).
    rewrite map_map. apply map_ext. intros p. unfold job_name.
    rewrite !replace_append, replace_str. reflexivity. }
  rewrite E. split.
  - apply Finite.Injective_map_NoDup; [| apply seq_NoDup].
    intros i j Hij. apply append_inj_l in Hij. apply append_inj_l in Hij.
    now apply str_inj.
  - now rewrite length_map, length_seq.
Qed.
End JobNames.

Lemma job_name_has_no_dot_witness :
  String.get 7 (ElasticJobGenerator.job_name unit "elastic.v1" (12%nat, tt))
  <> Some (Ascii.ascii_of_nat 46).
Proof.
  apply (job_name_has_no_dot (Atoms := unit) "elastic.v1" (12%nat, tt) 7).
Defined.

Lemma job_names_distinct_witness :
  NoDup (map (ElasticJobGenerator.job_name unit "elastic.v1")
           (ElasticJobGenerator.parameter_list unit (fun _ s => s)
              [zeros3; zeros3; uniaxial_x 1] tt))
  /\ length (map (ElasticJobGenerator.job_name unit "elastic.v1")
               (ElasticJobGenerator.parameter_list unit (fun _ s => s)
                  [zeros3; zeros3; uniaxial_x 1] tt)) = 3%nat.
Proof.
  apply (job_names_distinct (Atoms := unit) (fun _ s => s) "elastic.v1"
           [zeros3; zeros3; uniaxial_x 1] tt).
Defined.
